(** * Turing Soup: the BFF interpreter, the soup populations and the worker

  A shallow embedding of the JavaScript sources (bff.js, population.js,
  population-wasm.js, worker.js, worker-pool.js).  JavaScript numbers that
  hold indices and counters are integers of [Z]; byte cells are integers
  reduced modulo 256 at every typed-array store. *)

From Stdlib Require Import QArith Qround.
From stdpp Require Import base numbers list list_numbers gmap.

Open Scope Z_scope.

(** ** JavaScript primitives *)

Module JS.

(** The remainder operator [%] truncates toward zero. *)
Definition rem (a b : Z) : Z := Z.rem a b.

(** [ToInt32]: the integer reduced modulo 2^32 into [-2^31, 2^31), the
    operand conversion of the bit operators. *)
Definition toInt32 (z : Z) : Z := (z + 2 ^ 31) `mod` 2 ^ 32 - 2 ^ 31.

(** [for (let i = 0; i < n; i++) body], threading the mutated state. *)
Definition for_range {S : Type} (n : Z) (body : Z → S → S) (s : S) : S :=
  foldl (λ acc i, body i acc) s (seqZ 0 n).

(** [for (let i = 1; i <= n; i++) body]. *)
Definition for_range1 {S : Type} (n : Z) (body : Z → S → S) (s : S) : S :=
  foldl (λ acc i, body i acc) s (seqZ 1 n).

(** [l.slice(start, end)], with negative indices counted from the end. *)
Definition slice {A : Type} (l : list A) (start stop : Z) : list A :=
  let len := Z.of_nat (length l) in
  let k := if bool_decide (start < 0) then Z.max (len + start) 0
           else Z.min start len in
  let final := if bool_decide (stop < 0) then Z.max (len + stop) 0
               else Z.min stop len in
  take (Z.to_nat (final - k)) (drop (Z.to_nat k) l).

End JS.

(** ** Uint8Array *)

Module U8.

(** The conversion applied by every store into a Uint8Array. *)
Definition u8 (v : Z) : Z := v `mod` 256.

Definition length (a : list Z) : Z := Z.of_nat (List.length a).

(** [a[i]].  Out of range JavaScript yields [undefined]; every consumer in
    the sources (a typed-array store, a bit operation, a set membership
    test against the opcodes) treats it like 0. *)
Definition get (a : list Z) (i : Z) : Z :=
  if bool_decide (0 ≤ i) then default 0 (a !! Z.to_nat i) else 0.

(** [a[i] = v].  Out of range the store is ignored. *)
Definition set (a : list Z) (i v : Z) : list Z :=
  if bool_decide (0 ≤ i) then <[Z.to_nat i := u8 v]> a else a.

(** [new Uint8Array(n)]. *)
Definition make (n : Z) : list Z := replicate (Z.to_nat n) 0.

(** [a.slice(start, end)]. *)
Definition slice (a : list Z) (start stop : Z) : list Z :=
  JS.slice a start stop.

End U8.

(** ** tape.js: the tape as its buffer *)

Module Tape.

(** The class of tape.js keeps [size] and the Uint8Array [data].  The
    constructor allocates [size] cells and no method replaces the buffer,
    so a tape is kept here as its buffer and [size] is its length; [TapeJs]
    below keeps both fields and is shown to agree. *)
Definition t := list Z.

(** [new Tape(size)]. *)
Definition make (size : Z) : t := U8.make size.

(** [tape.size]. *)
Definition size (tp : t) : Z := U8.length tp.

(** [_wrap(index)]. *)
Definition _wrap (tp : t) (index : Z) : Z :=
  JS.rem (JS.rem index (size tp) + size tp) (size tp).

(** [get(index)]. *)
Definition get (tp : t) (index : Z) : Z := U8.get tp (_wrap tp index).

(** [set(index, value)]. *)
Definition set (tp : t) (index value : Z) : t :=
  U8.set tp (_wrap tp index) (Z.land value 0xFF).

(** [increment(index)]. *)
Definition increment (tp : t) (index : Z) : t :=
  let i := _wrap tp index in
  U8.set tp i (Z.land (U8.get tp i + 1) 0xFF).

(** [decrement(index)]. *)
Definition decrement (tp : t) (index : Z) : t :=
  let i := _wrap tp index in
  U8.set tp i (Z.land (U8.get tp i - 1) 0xFF).

(** [toArray()]. *)
Definition toArray (tp : t) : list Z := tp.

End Tape.

(** ** tape.js: the class with both of its fields

    The file follows wasm-bridge.js in the sources.  [Tape] above keeps the
    buffer only; the two are related in the properties part. *)

Module TapeJs.

(** A tape object: [size] and the Uint8Array [data]. *)
Record t := mkTape { size : Z; data : list Z }.

(** [new Tape(size)]. *)
Definition new (size : Z) : t := mkTape size (U8.make size).

(** [_wrap(index)]. *)
Definition _wrap (tp : t) (index : Z) : Z :=
  JS.rem (JS.rem index (size tp) + size tp) (size tp).

(** [get(index)]. *)
Definition get (tp : t) (index : Z) : Z := U8.get (data tp) (_wrap tp index).

(** [set(index, value)]. *)
Definition set (tp : t) (index value : Z) : t :=
  mkTape (size tp) (U8.set (data tp) (_wrap tp index) (Z.land value 0xFF)).

(** [increment(index)]. *)
Definition increment (tp : t) (index : Z) : t :=
  let i := _wrap tp index in
  mkTape (size tp) (U8.set (data tp) i (Z.land (U8.get (data tp) i + 1) 0xFF)).

(** [decrement(index)]. *)
Definition decrement (tp : t) (index : Z) : t :=
  let i := _wrap tp index in
  mkTape (size tp) (U8.set (data tp) i (Z.land (U8.get (data tp) i - 1) 0xFF)).

(** [toArray()]. *)
Definition toArray (tp : t) : list Z := data tp.

(** [clear()]. *)
Definition clear (tp : t) : t :=
  mkTape (size tp) (replicate (length (data tp)) 0).

(** [Tape.fromArray(arr)]. *)
Definition fromArray (arr : list Z) : t :=
  let n := Z.of_nat (length arr) in
  JS.for_range n
    (λ i tp, mkTape (size tp)
               (U8.set (data tp) i (Z.land (U8.get arr i) 0xFF)))
    (new n).

End TapeJs.

(** ** bff.js: the interpreter *)

Module BFF.

Inductive Instruction :=
| HEAD0_DEC   (* '<' *)
| HEAD0_INC   (* '>' *)
| HEAD1_DEC   (* '{' *)
| HEAD1_INC   (* '}' *)
| DEC         (* '-' *)
| INC         (* '+' *)
| COPY_TO_1   (* '.' *)
| COPY_TO_0   (* ',' *)
| LOOP_OPEN   (* '[' *)
| LOOP_CLOSE. (* ']' *)

Definition all_instructions : list Instruction :=
  [HEAD0_DEC; HEAD0_INC; HEAD1_DEC; HEAD1_INC; DEC; INC;
   COPY_TO_1; COPY_TO_0; LOOP_OPEN; LOOP_CLOSE].

Definition BFF_INSTRUCTIONS (c : Instruction) : Z :=
  match c with
  | HEAD0_DEC => 0x3C
  | HEAD0_INC => 0x3E
  | HEAD1_DEC => 0x7B
  | HEAD1_INC => 0x7D
  | DEC => 0x2D
  | INC => 0x2B
  | COPY_TO_1 => 0x2E
  | COPY_TO_0 => 0x2C
  | LOOP_OPEN => 0x5B
  | LOOP_CLOSE => 0x5D
  end.

(** Reverse lookup, built from the entries of [BFF_INSTRUCTIONS]. *)
Definition BYTE_TO_INSTRUCTION : gmap Z Instruction :=
  foldl (λ m c, <[BFF_INSTRUCTIONS c := c]> m) ∅ all_instructions.

Definition byteToInstruction (byte : Z) : option Instruction :=
  BYTE_TO_INSTRUCTION !! byte.

(** The strings stored in [haltReason].  The interpreter sets the first
    three; ['no_instructions'] is only produced by [Population.runPair]. *)
Inductive HaltReason :=
  max_steps | end_of_tape | unmatched_bracket | no_instructions.

Definition MAX_STEPS : Z := 8192.

Record Interpreter := mkInterpreter {
  tape : Tape.t;
  ip : Z;
  head0 : Z;
  head1 : Z;
  stepCount : Z;
  writeCount : Z;
  loopJumps : Z;
  halted : bool;
  haltReason : option HaltReason;
}.

Definition with_tape (s : Interpreter) (v : Tape.t) : Interpreter :=
  mkInterpreter v (ip s) (head0 s) (head1 s) (stepCount s) (writeCount s)
    (loopJumps s) (halted s) (haltReason s).
Definition with_ip (s : Interpreter) (v : Z) : Interpreter :=
  mkInterpreter (tape s) v (head0 s) (head1 s) (stepCount s) (writeCount s)
    (loopJumps s) (halted s) (haltReason s).
Definition with_head0 (s : Interpreter) (v : Z) : Interpreter :=
  mkInterpreter (tape s) (ip s) v (head1 s) (stepCount s) (writeCount s)
    (loopJumps s) (halted s) (haltReason s).
Definition with_head1 (s : Interpreter) (v : Z) : Interpreter :=
  mkInterpreter (tape s) (ip s) (head0 s) v (stepCount s) (writeCount s)
    (loopJumps s) (halted s) (haltReason s).
Definition with_stepCount (s : Interpreter) (v : Z) : Interpreter :=
  mkInterpreter (tape s) (ip s) (head0 s) (head1 s) v (writeCount s)
    (loopJumps s) (halted s) (haltReason s).
Definition with_writeCount (s : Interpreter) (v : Z) : Interpreter :=
  mkInterpreter (tape s) (ip s) (head0 s) (head1 s) (stepCount s) v
    (loopJumps s) (halted s) (haltReason s).
Definition with_loopJumps (s : Interpreter) (v : Z) : Interpreter :=
  mkInterpreter (tape s) (ip s) (head0 s) (head1 s) (stepCount s)
    (writeCount s) v (halted s) (haltReason s).

(** [this.halted = true; this.haltReason = r]. *)
Definition halt (s : Interpreter) (r : HaltReason) : Interpreter :=
  mkInterpreter (tape s) (ip s) (head0 s) (head1 s) (stepCount s)
    (writeCount s) (loopJumps s) true (Some r).

(** [reset()], called by the constructor. *)
Definition reset (tp : Tape.t) : Interpreter :=
  mkInterpreter tp 0 0 0 0 0 0 false None.

(** [new BFFInterpreter(tape)]. *)
Definition new (tp : Tape.t) : Interpreter := reset tp.


(** [_wrapHead(index)]. *)
Definition _wrapHead (s : Interpreter) (index : Z) : Z :=
  JS.rem (JS.rem index (Tape.size (tape s)) + Tape.size (tape s))
         (Tape.size (tape s)).

(** The body of the [while (true)] loop of [_findMatchingBracket].  Every
    iteration moves [pos] by [direction]; [fuel] bounds the number of
    iterations and [None] means the bound was reached. *)
Fixpoint findLoop (tp : Tape.t) (direction : Z) (fuel : nat)
    (depth pos : Z) : option Z :=
  match fuel with
  | O => None
  | S fuel' =>
    let pos := pos + direction in
    if bool_decide (pos < 0 ∨ Tape.size tp ≤ pos) then Some (-1)
    else
      let byte := Tape.get tp pos in
      let depth :=
        if bool_decide (direction = 1) then
          if bool_decide (byte = BFF_INSTRUCTIONS LOOP_OPEN) then depth + 1
          else if bool_decide (byte = BFF_INSTRUCTIONS LOOP_CLOSE)
               then depth - 1 else depth
        else
          if bool_decide (byte = BFF_INSTRUCTIONS LOOP_CLOSE) then depth + 1
          else if bool_decide (byte = BFF_INSTRUCTIONS LOOP_OPEN)
               then depth - 1 else depth in
      if bool_decide (depth = 0) then Some pos
      else findLoop tp direction fuel' depth pos
  end.

(** [_findMatchingBracket(start, direction)]: the position of the matching
    bracket, or -1.  One more iteration than the tape has cells is always
    enough for the two directions the interpreter uses ([findLoop_total]). *)
Definition _findMatchingBracket (s : Interpreter) (start direction : Z) : Z :=
  default (-1)
    (findLoop (tape s) direction (S (Z.to_nat (Tape.size (tape s)))) 1 start).

(** [this.ip++; if (this.ip >= this.tape.size) halt end_of_tape]. *)
Definition advanceIP (s : Interpreter) : Interpreter :=
  let s := with_ip s (ip s + 1) in
  if bool_decide (Tape.size (tape s) ≤ ip s) then halt s end_of_tape else s.

(** The switch of [step] on a decoded instruction, up to but excluding the
    final IP advance.  A halt inside the switch returns at once. *)
Definition dispatch (s : Interpreter) (c : Instruction) : Interpreter :=
  match c with
  | HEAD0_DEC => with_head0 s (_wrapHead s (head0 s - 1))
  | HEAD0_INC => with_head0 s (_wrapHead s (head0 s + 1))
  | HEAD1_DEC => with_head1 s (_wrapHead s (head1 s - 1))
  | HEAD1_INC => with_head1 s (_wrapHead s (head1 s + 1))
  | DEC =>
    with_writeCount (with_tape s (Tape.decrement (tape s) (head0 s)))
      (writeCount s + 1)
  | INC =>
    with_writeCount (with_tape s (Tape.increment (tape s) (head0 s)))
      (writeCount s + 1)
  | COPY_TO_1 =>
    with_writeCount
      (with_tape s (Tape.set (tape s) (head1 s) (Tape.get (tape s) (head0 s))))
      (writeCount s + 1)
  | COPY_TO_0 =>
    with_writeCount
      (with_tape s (Tape.set (tape s) (head0 s) (Tape.get (tape s) (head1 s))))
      (writeCount s + 1)
  | LOOP_OPEN =>
    if bool_decide (Tape.get (tape s) (head0 s) = 0) then
      let target := _findMatchingBracket s (ip s) 1 in
      if bool_decide (target = -1) then halt s unmatched_bracket
      else with_ip s target
    else s
  | LOOP_CLOSE =>
    if bool_decide (Tape.get (tape s) (head0 s) ≠ 0) then
      let target := _findMatchingBracket s (ip s) (-1) in
      if bool_decide (target = -1) then halt s unmatched_bracket
      else with_loopJumps (with_ip s target) (loopJumps s + 1)
    else s
  end.

(** [step()].  The snapshot object it returns ([getState()] and [changed])
    is not part of the interpreter state and is left out. *)
Definition step (s : Interpreter) : Interpreter :=
  if halted s then s
  else if bool_decide (MAX_STEPS ≤ stepCount s) then halt s max_steps
  else
    let byte := Tape.get (tape s) (ip s) in
    let instruction := byteToInstruction byte in
    let s := with_stepCount s (stepCount s + 1) in
    match instruction with
    | None => advanceIP s
    | Some c =>
      let s := dispatch s c in
      if halted s then s else advanceIP s
    end.

(** [while (!this.halted) this.step()] with a bound on the iterations. *)
Fixpoint run_fuel (fuel : nat) (s : Interpreter) : option Interpreter :=
  if halted s then Some s
  else match fuel with
       | O => None
       | S fuel' => run_fuel fuel' (step s)
       end.

(** [run()].  [MAX_STEPS + 1] calls of [step] always reach a halted state
    from a fresh interpreter ([run_fuel_enough]). *)
Definition run (s : Interpreter) : Interpreter :=
  default s (run_fuel (S (Z.to_nat MAX_STEPS)) s).

End BFF.

(** ** Math.random *)

Module Random.

(** [Math.random()] yields a double [k / 2^53] with [0 <= k < 2^53].  The
    oracle lists the integers [k] of the successive calls; a computation
    that asks for more draws than the oracle holds has no result. *)
Definition Oracle := list Z.

Definition M (A : Type) : Type := Oracle → option (A * Oracle).

Definition ret {A} (x : A) : M A := λ o, Some (x, o).

Definition bind {A B} (m : M A) (f : A → M B) : M B :=
  λ o, match m o with
       | Some (x, o') => f x o'
       | None => None
       end.

(** The value of one call, as a rational of [0,1). *)
Definition unit (k : Z) : Q := Qmake (k `mod` 2 ^ 53) (2 ^ 53).

(** [Math.random()]. *)
Definition random : M Q :=
  λ o, match o with
       | k :: o' => Some (unit k, o')
       | [] => None
       end.

(** [m / 2^s] rounded to the nearest integer, ties to the even one. *)
Definition roundHalfEven (m s : Z) : Z :=
  let q := m `div` 2 ^ s in
  let r := m `mod` 2 ^ s in
  if bool_decide (2 * r < 2 ^ s) then q
  else if bool_decide (2 ^ s < 2 * r) then q + 1
  else if Z.even q then q else q + 1.

(** The integer [m] rounded to the 53 significant bits of a double. *)
Definition toDouble (m : Z) : Z :=
  let s := Z.log2 (Z.abs m) - 52 in
  if bool_decide (s ≤ 0) then m
  else Z.sgn m * (roundHalfEven (Z.abs m) s * 2 ^ s).

(** [u * n] as JavaScript computes it, for a draw [u = k / 2^53] and an
    integer [n] that a double holds exactly (a length or a count, below
    [2^53]): the exact product [k * n / 2^53] rounded to a double.  The
    numerator is rounded; the exponent stays in range. *)
Definition times (u : Q) (n : Z) : Q :=
  Qmake (toDouble (Qnum u * n)) (Qden u).

(** [Math.floor(u * n)] for a draw [u]. *)
Definition floorTimes (u : Q) (n : Z) : Z := Qfloor (times u n).

(** [u < rate]. *)
Definition below (u rate : Q) : bool := negb (Qle_bool rate u).

(** A [for] loop from 0 whose body draws from the oracle. *)
Definition for_rangeM {S : Type} (n : Z) (body : Z → S → M S) (s : S) : M S :=
  foldl (λ acc i, bind acc (body i)) (ret s) (seqZ 0 n).

(** A [for ... of] loop whose body draws from the oracle. *)
Definition for_ofM {A S : Type} (l : list A) (body : A → S → M S) (s : S)
    : M S :=
  foldl (λ acc x, bind acc (body x)) (ret s) l.

End Random.

#[global] Instance oracle_ret : MRet Random.M := @Random.ret.
#[global] Instance oracle_bind : MBind Random.M :=
  λ A B f m, Random.bind m f.

(** A pair of region starts, [{a, b}]. *)
Record Pair := mkPair { a : Z; b : Z }.

(** The opcode bytes, as the set literal of [hasInstructions]. *)
Definition instructionSet : gset Z :=
  list_to_set [0x3C; 0x3E; 0x7B; 0x7D; 0x2B; 0x2D; 0x2E; 0x2C; 0x5B; 0x5D].

(** ** population.js: the synchronous population *)

Module Population.

Record t := mkPopulation {
  width : Z;
  height : Z;
  regionSize : Z;
  soup : list Z;
  pairsPerStep : Z;
  currentPairs : list Pair;
  mutationRate : Q;
  pairCount : Z;
  numTapes : Z;
  neighborsPerSide : Z;
}.

Definition with_soup (p : t) (v : list Z) : t :=
  mkPopulation (width p) (height p) (regionSize p) v (pairsPerStep p)
    (currentPairs p) (mutationRate p) (pairCount p) (numTapes p)
    (neighborsPerSide p).
Definition with_currentPairs (p : t) (v : list Pair) : t :=
  mkPopulation (width p) (height p) (regionSize p) (soup p) (pairsPerStep p)
    v (mutationRate p) (pairCount p) (numTapes p) (neighborsPerSide p).
Definition with_pairCount (p : t) (v : Z) : t :=
  mkPopulation (width p) (height p) (regionSize p) (soup p) (pairsPerStep p)
    (currentPairs p) (mutationRate p) v (numTapes p) (neighborsPerSide p).

(** The result object of [runPair]; the early abort leaves [writes] and
    [loopJumps] out. *)
Record RunResult := mkRunResult {
  steps : Z;
  haltReason : option BFF.HaltReason;
  writes : option Z;
  loopJumps : option Z;
}.

(** [r.field || 0], the way [updateExecMetrics] reads a result. *)
Definition orZero (v : option Z) : Z := default 0 v.

(** [initialize()]: fill the soup with random bytes and reset the counters. *)
Definition initialize (p : t) : Random.M t :=
  sp ← Random.for_rangeM (U8.length (soup p))
         (λ i sp, u ← Random.random;
                  mret (U8.set sp i (Random.floorTimes u 256)))
         (soup p);
  mret (with_pairCount (with_soup p sp) 0).

(** The constructor, with the soup allocated and then initialized. *)
Definition new (width height regionSize : Z) : Random.M t :=
  initialize
    (mkPopulation width height regionSize (U8.make (width * height)) 10 []
       0.00024%Q 0 ((width * height) `div` regionSize) 2).

(** [getNeighborRows(slot)]: the rows above and below, nearest first. *)
Definition getNeighborRows (p : t) (slot : Z)
    : list (list Z) * list (list Z) :=
  let row := slot `div` width p in
  JS.for_range1 (neighborsPerSide p)
    (λ i '(above, below),
       let rowAbove := JS.rem ((row - i) + height p) (height p) in
       let rowBelow := JS.rem (row + i) (height p) in
       (above ++ [U8.slice (soup p) (rowAbove * width p)
                    ((rowAbove + 1) * width p)],
        below ++ [U8.slice (soup p) (rowBelow * width p)
                    ((rowBelow + 1) * width p)]))
    ([], []).

(** [(x << 8) | y].  Both operators work on 32-bit integers: the operands
    are reduced with [ToInt32], and so is the shifted value. *)
Definition bigram (x y : Z) : Z :=
  Z.lor (JS.toInt32 (Z.shiftl (JS.toInt32 x) 8)) (JS.toInt32 y).

(** [compressionCost(arrays)]: the number of distinct bigrams. *)
Definition compressionCost (arrays : list (list Z)) : Z :=
  let n := Z.of_nat (length arrays) in
  let bigrams : gset Z :=
    JS.for_range n
      (λ k (bigrams : gset Z),
         let data := default [] (arrays !! Z.to_nat k) in
         let bigrams :=
           JS.for_range (U8.length data - 1)
             (λ i (bg : gset Z),
                {[ bigram (U8.get data i) (U8.get data (i + 1)) ]} ∪ bg)
             bigrams in
         if bool_decide (k < n - 1) then
           let nextData := default [] (arrays !! Z.to_nat (k + 1)) in
           {[ bigram (U8.get data (U8.length data - 1)) (U8.get nextData 0) ]}
             ∪ bigrams
         else bigrams)
      ∅ in
  Z.of_nat (size bigrams).

(** [getSlice(start)]. *)
Definition getSlice (p : t) (start : Z) : Tape.t :=
  JS.for_range (regionSize p)
    (λ i tp,
       let idx := JS.rem (start + i) (U8.length (soup p)) in
       Tape.set tp i (U8.get (soup p) idx))
    (Tape.make (regionSize p)).

(** [setSlice(start, tape)]. *)
Definition setSlice (p : t) (start : Z) (tp : Tape.t) : t :=
  let data := Tape.toArray tp in
  with_soup p
    (JS.for_range (regionSize p)
       (λ i sp,
          let idx := JS.rem (start + i) (U8.length (soup p)) in
          U8.set sp idx (U8.get data i))
       (soup p)).

(** The slot start [selectRandomSlice] computes from its draw [u]. *)
Definition sliceStart (p : t) (u : Q) : Z :=
  let numSlots := U8.length (soup p) `div` regionSize p in
  let slot := Random.floorTimes u numSlots in
  slot * regionSize p.

(** [selectRandomSlice()]. *)
Definition selectRandomSlice (p : t) : Random.M Z :=
  u ← Random.random;
  mret (sliceStart p u).

(** The [do ... while (a === b)] loop of [selectRandomPair]; every
    iteration takes one draw. *)
Fixpoint selectOther (p : t) (a : Z) (o : Random.Oracle)
    : option (Z * Random.Oracle) :=
  match o with
  | [] => None
  | k :: o' =>
    let b := sliceStart p (Random.unit k) in
    if bool_decide (a = b) then selectOther p a o' else Some (b, o')
  end.

(** [selectRandomPair()]. *)
Definition selectRandomPair (p : t) : Random.M Pair :=
  a ← selectRandomSlice p;
  b ← selectOther p a;
  mret (mkPair a b).

(** [hasInstructions(tape)]. *)
Definition hasInstructions (tp : Tape.t) : bool :=
  existsb (λ byte, bool_decide (byte ∈ instructionSet)) (Tape.toArray tp).

(** The mutation loop of [mutateSelected] over one slice. *)
Definition mutateSlice (p : t) (start : Z) (sp : list Z)
    : Random.M (list Z) :=
  Random.for_rangeM (regionSize p)
    (λ i sp,
       u ← Random.random;
       if Random.below u (mutationRate p) then
         let idx := JS.rem (start + i) (U8.length (soup p)) in
         v ← Random.random;
         mret (U8.set sp idx (Random.floorTimes v 256))
       else mret sp)
    sp.

(** [mutateSelected()]. *)
Definition mutateSelected (p : t) : Random.M t :=
  if Qle_bool (mutationRate p) 0 then mret p
  else
    sp ← Random.for_ofM (currentPairs p)
           (λ pair sp,
              sp ← mutateSlice p (a pair) sp;
              mutateSlice p (b pair) sp)
           (soup p);
    mret (with_soup p sp).

(** [combineTapes(tapeA, tapeB, 'concat')].  [runPair] is the only caller
    and always passes ['concat']; the row-interleaved branch is left out. *)
Definition combineTapes (p : t) (tapeA tapeB : Tape.t) : Tape.t :=
  let dataA := Tape.toArray tapeA in
  let dataB := Tape.toArray tapeB in
  JS.for_range (regionSize p)
    (λ i combined,
       let combined := Tape.set combined i (U8.get dataA i) in
       Tape.set combined (i + regionSize p) (U8.get dataB i))
    (Tape.make (regionSize p * 2)).

(** [splitTape(combined, 'concat')]. *)
Definition splitTape (p : t) (combined : Tape.t) : Tape.t * Tape.t :=
  let data := Tape.toArray combined in
  JS.for_range (regionSize p)
    (λ i '(tLeft, tRight),
       (Tape.set tLeft i (U8.get data i),
        Tape.set tRight i (U8.get data (i + regionSize p))))
    (Tape.make (regionSize p), Tape.make (regionSize p)).

(** [costNoSwap] of [runPair]: left to A and right to B, each between the
    neighbour rows of its slot. *)
Definition costNoSwap (p : t) (a b : Z) (leftData rightData : list Z) : Z :=
  let neighborsA := getNeighborRows p a in
  let neighborsB := getNeighborRows p b in
  compressionCost (neighborsA.1 ++ [leftData] ++ neighborsA.2) +
  compressionCost (neighborsB.1 ++ [rightData] ++ neighborsB.2).

(** [costSwap] of [runPair]: right to A and left to B. *)
Definition costSwap (p : t) (a b : Z) (leftData rightData : list Z) : Z :=
  let neighborsA := getNeighborRows p a in
  let neighborsB := getNeighborRows p b in
  compressionCost (neighborsA.1 ++ [rightData] ++ neighborsA.2) +
  compressionCost (neighborsB.1 ++ [leftData] ++ neighborsB.2).

(** The write-back of [runPair] for the tape the interpreter leaves. *)
Definition writeBack (p : t) (a b : Z) (combined : Tape.t) : t :=
  let '(tLeft, tRight) := splitTape p combined in
  let leftData := Tape.toArray tLeft in
  let rightData := Tape.toArray tRight in
  if bool_decide (costSwap p a b leftData rightData
                  < costNoSwap p a b leftData rightData) then
    setSlice (setSlice p a tRight) b tLeft
  else
    setSlice (setSlice p a tLeft) b tRight.

(** [runPair(pair)]: the population after the call and the result object. *)
Definition runPair (p : t) (pair : Pair) : t * RunResult :=
  let a := a pair in
  let b := b pair in
  let tapeA := getSlice p a in
  let tapeB := getSlice p b in
  let combined := combineTapes p tapeA tapeB in
  if negb (hasInstructions combined) then
    (p, mkRunResult 0 (Some BFF.no_instructions) None None)
  else
    let interpreter := BFF.run (BFF.new combined) in
    let p' :=
      if bool_decide (BFF.writeCount interpreter > 0)
      then writeBack p a b (BFF.tape interpreter)
      else p in
    (p', mkRunResult (BFF.stepCount interpreter) (BFF.haltReason interpreter)
           (Some (BFF.writeCount interpreter))
           (Some (BFF.loopJumps interpreter))).

(** The loop of [soupStep]: select a pair, record it, run it. *)
Definition runPairs (p : t) : Random.M (t * list RunResult) :=
  Random.for_rangeM (pairsPerStep p)
    (λ i '(p, results),
       pair ← selectRandomPair p;
       let p := with_currentPairs p (currentPairs p ++ [pair]) in
       let '(p, r) := runPair p pair in
       mret (p, results ++ [r]))
    (with_currentPairs p [], []).

(** [soupStep()].  The epoch bookkeeping that follows the mutation only
    feeds the complexity and EMA displays and is reduced to [pairCount]. *)
Definition soupStep (p : t) : Random.M (t * list RunResult) :=
  '(p, results) ← runPairs p;
  p ← mutateSelected p;
  let p := with_pairCount p (pairCount p + pairsPerStep p) in
  mret (p, results).

(** [((v % n) + n) % n], the wrap of a coordinate in [get] and [set]. *)
Definition wrap (v n : Z) : Z := JS.rem (JS.rem v n + n) n.

(** [get(x, y)]: the byte at (x, y) with toroidal wrapping. *)
Definition get (p : t) (x y : Z) : Z :=
  let wx := wrap x (width p) in
  let wy := wrap y (height p) in
  U8.get (soup p) (wy * width p + wx).

(** [set(x, y, value)]: store [value & 0xFF] at (x, y) with toroidal
    wrapping. *)
Definition set (p : t) (x y value : Z) : t :=
  let wx := wrap x (width p) in
  let wy := wrap y (height p) in
  with_soup p (U8.set (soup p) (wy * width p + wx) (Z.land value 0xFF)).

End Population.

(** ** worker-pool.js *)

Module WorkerPool.

(** The data of an ['execute'] message. *)
Record ExecuteMessage := mkExecuteMessage {
  pairs : list Pair;
  head1Offset : Z;
  maxSteps : Z;
}.

(** The pool: the number of workers, the ready flag, and the messages
    posted to the workers so far as (worker index, message). *)
Record t := mkWorkerPool {
  numWorkers : Z;
  ready : bool;
  posted : list (Z * ExecuteMessage);
}.

(** The default of the [head1Offset] parameter of [executeBatch]. *)
Definition default_head1Offset : Z := 64.

(** The default of the [maxSteps] parameter of [executeBatch]. *)
Definition default_maxSteps : Z := 8192.

(** [Math.ceil(n / d)] for integers. *)
Definition ceilDiv (n d : Z) : Z := - ((- n) `div` d).

(** The batches [executeBatch] cuts the pairs into, one per worker. *)
Definition batches (pool : t) (pairs : list Pair) : list (list Pair) :=
  let len := Z.of_nat (length pairs) in
  let pairsPerWorker := ceilDiv len (numWorkers pool) in
  JS.for_range (numWorkers pool)
    (λ i acc,
       let start := i * pairsPerWorker in
       let stop := Z.min (start + pairsPerWorker) len in
       if bool_decide (start < len) then acc ++ [JS.slice pairs start stop]
       else acc)
    [].

(** The synchronous part of [executeBatch]: batch [i] is posted to worker
    [i].  A pool that is not ready throws, which rejects the promise without
    posting anything.  The promise settles in a later turn of the event
    loop, when every worker has answered. *)
Definition executeBatch (pool : t) (pairs : list Pair)
    (head1Offset maxSteps : Z) : t :=
  if negb (ready pool) then pool
  else
    mkWorkerPool (numWorkers pool) (ready pool)
      (posted pool ++
       imap (λ i batch,
               (Z.of_nat i, mkExecuteMessage batch head1Offset maxSteps))
            (batches pool pairs)).

End WorkerPool.

(** ** population-wasm.js: the parallel population *)

Module PopulationWasm.

Record t := mkPopulationWasm {
  width : Z;
  height : Z;
  regionSize : Z;
  soup : list Z;
  pairsPerStep : Z;
  currentPairs : list Pair;
  mutationRate : Q;
  pairCount : Z;
  numTapes : Z;
  alignment : Z;
  localityLimit : option Z;
  head1Offset : Z;
  maxSteps : Z;
  pendingExecutions : Z;
  maxPendingExecutions : Z;
}.

Definition with_soup (p : t) (v : list Z) : t :=
  mkPopulationWasm (width p) (height p) (regionSize p) v (pairsPerStep p)
    (currentPairs p) (mutationRate p) (pairCount p) (numTapes p)
    (alignment p) (localityLimit p) (head1Offset p) (maxSteps p)
    (pendingExecutions p) (maxPendingExecutions p).
Definition with_currentPairs (p : t) (v : list Pair) : t :=
  mkPopulationWasm (width p) (height p) (regionSize p) (soup p)
    (pairsPerStep p) v (mutationRate p) (pairCount p) (numTapes p)
    (alignment p) (localityLimit p) (head1Offset p) (maxSteps p)
    (pendingExecutions p) (maxPendingExecutions p).
Definition with_pairCount (p : t) (v : Z) : t :=
  mkPopulationWasm (width p) (height p) (regionSize p) (soup p)
    (pairsPerStep p) (currentPairs p) (mutationRate p) v (numTapes p)
    (alignment p) (localityLimit p) (head1Offset p) (maxSteps p)
    (pendingExecutions p) (maxPendingExecutions p).
Definition with_pendingExecutions (p : t) (v : Z) : t :=
  mkPopulationWasm (width p) (height p) (regionSize p) (soup p)
    (pairsPerStep p) (currentPairs p) (mutationRate p) (pairCount p)
    (numTapes p) (alignment p) (localityLimit p) (head1Offset p) (maxSteps p)
    v (maxPendingExecutions p).

(** The constructor; the soup is allocated by [initialize]. *)
Definition new (width height regionSize : Z) : t :=
  mkPopulationWasm width height regionSize [] 100 [] 0.00024%Q 0
    ((width * height) `div` regionSize) 64 None 32 8192 0 50.

(** The default arguments of the constructor. *)
Definition default : t := new 64 8192 64.

(** [initialize()], without the worker and WASM start-up. *)
Definition initialize (p : t) : Random.M t :=
  sp ← Random.for_rangeM (width p * height p)
         (λ i sp, u ← Random.random;
                  mret (U8.set sp i (Random.floorTimes u 256)))
         (U8.make (width p * height p));
  mret (with_pairCount (with_soup p sp) 0).

(** [numPositions], as both selection functions compute it. *)
Definition numPositions (p : t) : Z :=
  let maxStart := U8.length (soup p) - regionSize p in
  maxStart `div` alignment p + 1.

(** [selectRandomSlice()]. *)
Definition selectRandomSlice (p : t) : Random.M Z :=
  u ← Random.random;
  let pos := Random.floorTimes u (numPositions p) in
  mret (pos * alignment p).

(** The [do ... while] loop of the locality branch. *)
Fixpoint selectLocal (p : t) (a minPos maxPos : Z) (o : Random.Oracle)
    : option (Z * Random.Oracle) :=
  match o with
  | [] => None
  | k :: o' =>
    let posB :=
      minPos + Random.floorTimes (Random.unit k) (maxPos - minPos + 1) in
    if bool_decide (Z.abs (posB * alignment p - a) < regionSize p)
    then selectLocal p a minPos maxPos o'
    else Some (posB, o')
  end.

(** The [do ... while] loop of the unconstrained branch. *)
Fixpoint selectAny (p : t) (a : Z) (o : Random.Oracle)
    : option (Z * Random.Oracle) :=
  match o with
  | [] => None
  | k :: o' =>
    let pos := Random.floorTimes (Random.unit k) (numPositions p) in
    let b := pos * alignment p in
    if bool_decide (Z.abs (b - a) < regionSize p)
    then selectAny p a o'
    else Some (b, o')
  end.

(** [selectRandomPair()].  The operands of the locality formula are
    integers, so the floor of the quotient is a floor division. *)
Definition selectRandomPair (p : t) : Random.M Pair :=
  a ← selectRandomSlice p;
  match localityLimit p with
  | Some limit =>
    if bool_decide (limit > 0) then
      let posA := a `div` alignment p in
      let localityInPositions :=
        ((limit * numTapes p * regionSize p) `div` alignment p) `div` 100 in
      let minPos := Z.max 0 (posA - localityInPositions) in
      let maxPos := Z.min (numPositions p - 1) (posA + localityInPositions) in
      posB ← selectLocal p a minPos maxPos;
      mret (mkPair a (posB * alignment p))
    else
      b ← selectAny p a;
      mret (mkPair a b)
  | None =>
    b ← selectAny p a;
    mret (mkPair a b)
  end.

(** The mutation loop of [mutateSelected] over one slice. *)
Definition mutateSlice (p : t) (start : Z) (sp : list Z)
    : Random.M (list Z) :=
  Random.for_rangeM (regionSize p)
    (λ i sp,
       u ← Random.random;
       if Random.below u (mutationRate p) then
         let idx := JS.rem (start + i) (U8.length (soup p)) in
         v ← Random.random;
         mret (U8.set sp idx (Random.floorTimes v 256))
       else mret sp)
    sp.

(** [mutateSelected()]. *)
Definition mutateSelected (p : t) : Random.M t :=
  if Qle_bool (mutationRate p) 0 then mret p
  else
    sp ← Random.for_ofM (currentPairs p)
           (λ pair sp,
              sp ← mutateSlice p (a pair) sp;
              mutateSlice p (b pair) sp)
           (soup p);
    mret (with_soup p sp).

(** The pair generation loop of [soupStep]. *)
Definition generatePairs (p : t) : Random.M t :=
  Random.for_rangeM (pairsPerStep p)
    (λ i p,
       pair ← selectRandomPair p;
       mret (with_currentPairs p (currentPairs p ++ [pair])))
    (with_currentPairs p []).

(** [soupStep()]: the synchronous call, on the population and the pool.
    The [then] and [catch] callbacks of the dispatch run in a later turn of
    the event loop ([batchSettled]). *)
Definition soupStep (p : t) (pool : WorkerPool.t)
    : Random.M (t * WorkerPool.t) :=
  if bool_decide (pendingExecutions p >= maxPendingExecutions p)
  then mret (p, pool)
  else
    p ← generatePairs p;
    let p := with_pairCount p (pairCount p + pairsPerStep p) in
    let p := with_pendingExecutions p (pendingExecutions p + 1) in
    let pool :=
      WorkerPool.executeBatch pool (currentPairs p) (head1Offset p)
        (maxSteps p) in
    p ← mutateSelected p;
    mret (p, pool).

(** The [then] / [catch] callback of a dispatch, without the EMA update. *)
Definition batchSettled (p : t) : t :=
  with_pendingExecutions p (pendingExecutions p - 1).

End PopulationWasm.

(** ** worker.js: the ['execute'] handler *)

Module Worker.

(** [view.setUint32(off, v, true)]: four bytes, least significant first. *)
Definition setUint32 (buf : list Z) (off v : Z) : list Z :=
  let buf := U8.set buf off v in
  let buf := U8.set buf (off + 1) (Z.shiftr v 8) in
  let buf := U8.set buf (off + 2) (Z.shiftr v 16) in
  U8.set buf (off + 3) (Z.shiftr v 24).

(** [view.getUint32(off, true)] on the bytes of [buf]. *)
Definition getUint32 (buf : list Z) (off : Z) : Z :=
  Z.lor (U8.get buf off)
    (Z.lor (Z.shiftl (U8.get buf (off + 1)) 8)
       (Z.lor (Z.shiftl (U8.get buf (off + 2)) 16)
          (Z.shiftl (U8.get buf (off + 3)) 24))).

(** The packing of the pairs, 8 bytes each. *)
Definition packPairs (pairs : list Pair) : list Z :=
  let n := Z.of_nat (length pairs) in
  JS.for_range n
    (λ i buf,
       let pair := default (mkPair 0 0) (pairs !! Z.to_nat i) in
       let buf := setUint32 buf (i * 8) (a pair) in
       setUint32 buf (i * 8 + 4) (b pair))
    (U8.make (n * 8)).

(** The sums posted back to the pool. *)
Record Totals := mkTotals {
  totalHead0 : Z;
  totalHead1 : Z;
  totalMath : Z;
  totalCopy : Z;
  totalLoop : Z;
  count : Z;
}.

(** The write-back loop for one pair: the first [regionSize] bytes of the
    returned tape go to [a], the next [regionSize] to [b], byte by byte. *)
Definition writeBack (regionSize : Z) (result : list Z) (tapeOffset : Z)
    (pair : Pair) (soup : list Z) : list Z :=
  JS.for_range regionSize
    (λ j soup,
       let soup := U8.set soup (a pair + j) (U8.get result (tapeOffset + j)) in
       U8.set soup (b pair + j) (U8.get result (tapeOffset + regionSize + j)))
    soup.

(** [new DataView(result.buffer, result.byteOffset + offset, 28)] returns a
    view: the 28 bytes of the record header lie inside the result.  The
    result is the copy the glue of [execute_batch] makes, a buffer of its
    own; on any other offset the constructor throws a RangeError. *)
Definition headerInside (result : list Z) (offset : Z) : bool :=
  bool_decide (0 ≤ offset ∧ offset + 28 ≤ U8.length result).

(** The body of the loop over the results for pair [i]: the soup after it,
    and the totals, or [None] when the body has thrown. *)
Definition processResult (regionSize : Z) (pairs : list Pair)
    (result : list Z) (i : Z) (st : list Z * Totals)
    : list Z * option Totals :=
  let '(soup, tot) := st in
  let resultSize := 28 + regionSize * 2 in
  let offset := i * resultSize in
  if negb (headerInside result offset) then (soup, None)
  else
    let head0Count := getUint32 result (offset + 4) in
    let head1Count := getUint32 result (offset + 8) in
    let mathCount := getUint32 result (offset + 12) in
    let copyCount := getUint32 result (offset + 16) in
    let loopCount := getUint32 result (offset + 20) in
    let soup :=
      if bool_decide (mathCount > 0 ∨ copyCount > 0) then
        let tapeOffset := offset + 28 in
        let pair := default (mkPair 0 0) (pairs !! Z.to_nat i) in
        writeBack regionSize result tapeOffset pair soup
      else soup in
    (soup,
     Some (mkTotals (totalHead0 tot + head0Count) (totalHead1 tot + head1Count)
             (totalMath tot + mathCount) (totalCopy tot + copyCount)
             (totalLoop tot + loopCount) (count tot))).

Section Execute.

(** The WASM export [execute_batch(soup, pairs, region_size, head1_offset,
    max_steps)].  The sources hold its declaration and its glue, which
    copies the soup in and the result out; its body is compiled Rust. *)
Variable execute_batch : list Z → list Z → Z → Z → Z → list Z.


End Execute.

End Worker.

(** * Notions used to state the properties *)

(** The reasons the interpreter itself halts with. *)
Definition interpreterReason (r : option BFF.HaltReason) : Prop :=
  r = Some BFF.max_steps ∨ r = Some BFF.end_of_tape ∨
  r = Some BFF.unmatched_bracket.

(** The change of nesting depth at [byte] for a scan in [direction]: opens
    increment and closes decrement going forward, the reverse going back. *)
Definition bracketDelta (direction byte : Z) : Z :=
  if bool_decide (direction = 1) then
    if bool_decide (byte = 0x5B) then 1
    else if bool_decide (byte = 0x5D) then -1 else 0
  else
    if bool_decide (byte = 0x5D) then 1
    else if bool_decide (byte = 0x5B) then -1 else 0.

(** The nesting depth after [n] moves of a scan that starts on the bracket
    at [start] with depth 1. *)
Fixpoint scanDepth (tp : Tape.t) (direction start : Z) (n : nat) : Z :=
  match n with
  | O => 1
  | S n' =>
    scanDepth tp direction start n' +
    bracketDelta direction (Tape.get tp (start + direction * Z.of_nat n))
  end.

(** The scan from [start] is on the tape and open during its first [n - 1]
    moves. *)
Definition scanOpen (tp : Tape.t) (direction start : Z) (n : nat) : Prop :=
  ∀ m : nat, (1 ≤ m < n)%nat →
    0 ≤ start + direction * Z.of_nat m < Tape.size tp ∧
    scanDepth tp direction start m ≠ 0.

(** The bracket at [start] is matched [n] moves away: the depth first
    returns to 0 there. *)
Definition matchedAt (tp : Tape.t) (direction start : Z) (n : nat) : Prop :=
  (1 ≤ n)%nat ∧
  0 ≤ start + direction * Z.of_nat n < Tape.size tp ∧
  scanDepth tp direction start n = 0 ∧
  scanOpen tp direction start n.

(** The scan from [start] leaves the tape at its move [n] with the bracket
    still open. *)
Definition leavesAt (tp : Tape.t) (direction start : Z) (n : nat) : Prop :=
  (1 ≤ n)%nat ∧
  ¬ (0 ≤ start + direction * Z.of_nat n < Tape.size tp) ∧
  scanOpen tp direction start n.

(** The instruction at [ip] is a bracket whose jump is taken: a [[] with a
    zero under head0 (forward), or a []] with a non-zero one (backward). *)
Definition takenBracket (s : BFF.Interpreter) (direction : Z) : Prop :=
  (direction = 1 ∧
   Tape.get (BFF.tape s) (BFF.ip s) = BFF.BFF_INSTRUCTIONS BFF.LOOP_OPEN ∧
   Tape.get (BFF.tape s) (BFF.head0 s) = 0) ∨
  (direction = -1 ∧
   Tape.get (BFF.tape s) (BFF.ip s) = BFF.BFF_INSTRUCTIONS BFF.LOOP_CLOSE ∧
   Tape.get (BFF.tape s) (BFF.head0 s) ≠ 0).

(** The bracket that closes a scan in [direction]. *)
Definition closingBracket (direction : Z) : Z :=
  if bool_decide (direction = 1) then BFF.BFF_INSTRUCTIONS BFF.LOOP_CLOSE
  else BFF.BFF_INSTRUCTIONS BFF.LOOP_OPEN.

(** Every cell is a byte, as in a Uint8Array. *)
Definition bytes (l : list Z) : Prop := Forall (λ v, 0 ≤ v < 256) l.

(** A small soup for concrete runs: four rows of two bytes, regions of two
    bytes; region 0 holds [+] and a filler byte. *)
Definition smallPopulation : Population.t :=
  Population.mkPopulation 2 4 2 [0x2B; 7; 9; 9; 9; 9; 9; 9] 10 [] 0.00024%Q
    0 4 2.

(** The same soup with no opcode in its first two regions. *)
Definition inertPopulation : Population.t :=
  Population.mkPopulation 2 4 2 [1; 7; 9; 9; 9; 9; 9; 9] 10 [] 0.00024%Q
    0 4 2.


(** The tape [runPair] builds from the two regions of a pair. *)
Definition jointTape (p : Population.t) (pair : Pair) : Tape.t :=
  Population.combineTapes p (Population.getSlice p (a pair))
    (Population.getSlice p (b pair)).

(** The same soup with only head moves ([<], [>]) in region 0. *)
Definition moverPopulation : Population.t :=
  Population.mkPopulation 2 4 2 [0x3C; 0x3E; 9; 9; 9; 9; 9; 9] 10 []
    0.00024%Q 0 4 2.

(** A result record whose math and copy counts are 0 ([head0_count = 2]). *)
Definition quietResult : list Z :=
  [4; 0; 0; 0;  2; 0; 0; 0;  0; 0; 0; 0;  0; 0; 0; 0;
   0; 0; 0; 0;  0; 0; 0; 0;  0; 0; 0; 0;  60; 62; 9; 9].

(** A small parallel population on the same soup: alignment 1, locality
    limit 50, one pair per step, and a mutation rate of one half. *)
Definition smallWasm : PopulationWasm.t :=
  PopulationWasm.mkPopulationWasm 2 4 2 [0x2B; 7; 9; 9; 9; 9; 9; 9] 1 []
    0.5%Q 0 4 1 (Some 50) 2 8192 0 50.

(** The mutation loop over one slice, as both populations write it: for
    each offset one draw decides, and a second draw supplies the byte. *)
Definition mutateLoop (R len : Z) (rate : Q) (start : Z) (sp : list Z)
    : Random.M (list Z) :=
  Random.for_rangeM R
    (λ i sp,
       u ← Random.random;
       if Random.below u rate then
         let idx := JS.rem (start + i) len in
         v ← Random.random;
         mret (U8.set sp idx (Random.floorTimes v 256))
       else mret sp)
    sp.

(** The cell [idx] lies in the slice of [R] cells that starts at [start],
    with the wrap-around of the mutation loop. *)
Definition inSlice (R len start idx : Z) : Prop :=
  ∃ i, 0 ≤ i < R ∧ idx = JS.rem (start + i) len.

(** The cell [idx] lies in a region of one of the selected pairs. *)
Definition selected (R len : Z) (pairs : list Pair) (idx : Z) : Prop :=
  ∃ pair, pair ∈ pairs ∧
    (inSlice R len (a pair) idx ∨ inSlice R len (b pair) idx).

(** A ready pool of one worker that has posted nothing. *)
Definition idlePool : WorkerPool.t := WorkerPool.mkWorkerPool 1 true [].

(** [sp'] comes from [sp] by byte stores into cells of [inside] only. *)
Definition mutatedWithin (inside : Z → Prop) (sp sp' : list Z) : Prop :=
  U8.length sp' = U8.length sp ∧
  (bytes sp → bytes sp') ∧
  ∀ idx, ¬ inside idx → U8.get sp' idx = U8.get sp idx.

(** Draws for one step of [smallWasm]: the pair (0, 2), then a mutation of
    the first byte of region 0 to 255 and no other mutation. *)
Definition smallDraws : Random.Oracle :=
  [0; 2 ^ 52; 0; 2 ^ 53 - 1; 2 ^ 52; 2 ^ 52; 2 ^ 52].

(** [smallPopulation] with one pair per step and a mutation rate of one
    half, and draws for one step of it: the pair (0, 2), then a mutation of
    the first byte of region 0 to 255 and no other mutation. *)
Definition syncPopulation : Population.t :=
  Population.mkPopulation 2 4 2 [0x2B; 7; 9; 9; 9; 9; 9; 9] 1 [] 0.5%Q 0 4 2.

Definition syncDraws : Random.Oracle :=
  [0; 2 ^ 51; 0; 2 ^ 53 - 1; 2 ^ 52; 2 ^ 52; 2 ^ 52].

(** The population and the results after that step of [syncPopulation]:
    the pair ran [+] and was written back exchanged, then byte 0 mutated. *)
Definition syncAfter : Population.t :=
  Population.mkPopulation 2 4 2 [255; 9; 44; 7; 9; 9; 9; 9] 1 [mkPair 0 2]
    0.5%Q 1 4 2.

Definition syncResults : list Population.RunResult :=
  [Population.mkRunResult 4 (Some BFF.end_of_tape) (Some 1) (Some 0)].

(** The population and the pool after that step of [smallWasm]. *)
Definition wasmAfter : PopulationWasm.t :=
  PopulationWasm.mkPopulationWasm 2 4 2 [255; 7; 9; 9; 9; 9; 9; 9] 1
    [mkPair 0 2] 0.5%Q 1 4 1 (Some 50) 2 8192 1 50.

Definition poolAfter : WorkerPool.t :=
  WorkerPool.mkWorkerPool 1 true
    [(0, WorkerPool.mkExecuteMessage [mkPair 0 2] 2 8192)].

(** What a state of the interpreter says about how it got there. *)
Definition stateConsistent (s : BFF.Interpreter) : Prop :=
  0 ≤ BFF.stepCount s ≤ BFF.MAX_STEPS ∧
  match BFF.halted s, BFF.haltReason s with
  | false, None => 0 ≤ BFF.ip s < Tape.size (BFF.tape s)
  | true, Some BFF.end_of_tape => BFF.ip s = Tape.size (BFF.tape s)
  | true, Some BFF.max_steps =>
    BFF.stepCount s = BFF.MAX_STEPS ∧
    0 ≤ BFF.ip s < Tape.size (BFF.tape s)
  | true, Some BFF.unmatched_bracket =>
    0 ≤ BFF.ip s < Tape.size (BFF.tape s) ∧
    (Tape.get (BFF.tape s) (BFF.ip s) = BFF.BFF_INSTRUCTIONS BFF.LOOP_OPEN ∨
     Tape.get (BFF.tape s) (BFF.ip s) = BFF.BFF_INSTRUCTIONS BFF.LOOP_CLOSE)
  | _, _ => False
  end.


(** A result object of [runPair] is either the early abort (no step, no
    counters) or the report of a run: a halt reason of the interpreter and
    counters that fit the steps taken. *)
Definition resultConsistent (r : Population.RunResult) : Prop :=
  0 ≤ Population.steps r ≤ BFF.MAX_STEPS ∧
  ((Population.steps r = 0 ∧
    Population.haltReason r = Some BFF.no_instructions ∧
    Population.writes r = None ∧ Population.loopJumps r = None) ∨
   (∃ w l, Population.writes r = Some w ∧ Population.loopJumps r = Some l ∧
           interpreterReason (Population.haltReason r) ∧
           0 ≤ w ∧ 0 ≤ l ∧ w + l ≤ Population.steps r)).


(** The byte [Math.floor(Math.random() * 256)] for the draw [k]. *)
Definition randomByte (k : Z) : Z := Random.floorTimes (Random.unit k) 256.

(** What the mutation loop does at one offset: the draw [k] was not below
    the rate and the cell is kept, or it was below and the draw [v]
    supplies the byte. *)
Inductive Decision := Keep (k : Z) | Replace (k v : Z).

(** The draws a decision takes from [Math.random]. *)
Definition drawsOf (d : Decision) : list Z :=
  match d with
  | Keep k => [k]
  | Replace k v => [k; v]
  end.

(** The decision agrees with the comparison [Math.random() < rate]. *)
Definition decidedBy (rate : Q) (d : Decision) : Prop :=
  match d with
  | Keep k => Random.below (Random.unit k) rate = false
  | Replace k _ => Random.below (Random.unit k) rate = true
  end.

(** The content of a cell after the decision made for it, if any. *)
Definition cellAfter (d : option Decision) (old : Z) : Z :=
  match d with
  | Some (Replace _ v) => randomByte v
  | _ => old
  end.

(** The soup [sp'] and the oracle [o'] are what the mutation of the [R]
    cells from [start] leaves of [sp] and [o]: one decision per cell, in
    order, each taking its draws from the front of the oracle. *)
Definition sliceMutated (R : Z) (rate : Q) (start : Z) (sp : list Z)
    (o : Random.Oracle) (sp' : list Z) (o' : Random.Oracle) : Prop :=
  ∃ ds : list Decision,
    Z.of_nat (length ds) = Z.max 0 R ∧
    Forall (decidedBy rate) ds ∧
    o = concat (drawsOf <$> ds) ++ o' ∧
    U8.length sp' = U8.length sp ∧
    (∀ i : nat, U8.get sp' (start + Z.of_nat i)
                = cellAfter (ds !! i) (U8.get sp (start + Z.of_nat i))) ∧
    (∀ j, j < start → U8.get sp' j = U8.get sp j).

(** The row [y] of the torus, read off a copy [row] of it. *)
Definition isRow (p : Population.t) (y : Z) (row : list Z) : Prop :=
  U8.length row = Population.width p ∧
  ∀ c, 0 ≤ c < Population.width p → U8.get row c = Population.get p c y.

(** The bigrams of the adjacent cells of one array. *)
Fixpoint bigramsOf (l : list Z) : gset Z :=
  match l with
  | x :: l' =>
    match l' with
    | y :: _ => {[ Population.bigram x y ]} ∪ bigramsOf l'
    | [] => ∅
    end
  | [] => ∅
  end.

(** A tape object as the constructor and the methods leave it: [data] has
    [size] cells. *)
Definition tapeShape (tp : TapeJs.t) : Prop :=
  U8.length (TapeJs.data tp) = TapeJs.size tp.


(** * Properties *)

(** ** Loops and typed arrays *)

Lemma for_range_nat_ind {St : Type} (P : Z → St → Prop) (body : Z → St → St)
    (s : St) (m : nat) :
  P 0 s →
  (∀ i s, 0 ≤ i < Z.of_nat m → P i s → P (i + 1) (body i s)) →
  P (Z.of_nat m) (JS.for_range (Z.of_nat m) body s).
Proof.
  intros H0 Hstep. induction m as [|m IH].
  - unfold JS.for_range. by rewrite seqZ_nil.
  - unfold JS.for_range. rewrite seqZ_S, foldl_snoc. simpl.
    replace (Z.of_nat (S m)) with (Z.of_nat m + 1) by lia.
    apply Hstep; [lia|]. apply IH. intros i s' Hi. apply Hstep. lia.
Qed.

(** Loop invariant rule for [for (let i = 0; i < n; i++)]. *)
Lemma for_range_ind {St : Type} (P : Z → St → Prop) (n : Z)
    (body : Z → St → St) (s : St) :
  P 0 s →
  (∀ i s, 0 ≤ i < n → P i s → P (i + 1) (body i s)) →
  P (Z.max 0 n) (JS.for_range n body s).
Proof.
  intros H0 Hstep. destruct (decide (n ≤ 0)) as [Hn|Hn].
  - unfold JS.for_range. rewrite seqZ_nil by done.
    by replace (Z.max 0 n) with 0 by lia.
  - replace (Z.max 0 n) with n by lia.
    rewrite <- (Z2Nat.id n) by lia. apply for_range_nat_ind; [done|].
    intros i s' Hi. apply Hstep. lia.
Qed.

(** An invariant that does not mention the index. *)
Lemma for_range_inv {St : Type} (P : St → Prop) (n : Z)
    (body : Z → St → St) (s : St) :
  P s → (∀ i s, 0 ≤ i < n → P s → P (body i s)) →
  P (JS.for_range n body s).
Proof.
  intros H0 Hstep. apply (for_range_ind (λ _, P)); auto.
Qed.

Lemma u8_range v : 0 ≤ U8.u8 v < 256.
Proof. unfold U8.u8. apply Z.mod_pos_bound. lia. Qed.

Lemma u8_idem v : U8.u8 (U8.u8 v) = U8.u8 v.
Proof. unfold U8.u8. apply Zmod_mod. Qed.

Lemma u8_small v : 0 ≤ v < 256 → U8.u8 v = v.
Proof. unfold U8.u8. apply Z.mod_small. Qed.

Lemma U8_length_set a i v : U8.length (U8.set a i v) = U8.length a.
Proof.
  unfold U8.set, U8.length. case_bool_decide; [|done].
  by rewrite length_insert.
Qed.

Lemma U8_length_nonneg a : 0 ≤ U8.length a.
Proof. unfold U8.length. lia. Qed.

Lemma U8_length_make n : U8.length (U8.make n) = Z.max 0 n.
Proof. unfold U8.length, U8.make. rewrite length_replicate. lia. Qed.

Lemma U8_get_set_eq a i v :
  0 ≤ i < U8.length a → U8.get (U8.set a i v) i = U8.u8 v.
Proof.
  unfold U8.get, U8.set, U8.length. intros Hi.
  rewrite !bool_decide_eq_true_2 by lia.
  rewrite list_lookup_insert_eq by lia. done.
Qed.

Lemma U8_get_set_ne a i j v : i ≠ j → U8.get (U8.set a i v) j = U8.get a j.
Proof.
  unfold U8.get, U8.set. intros Hne.
  case_bool_decide; [|done]. case_bool_decide; [|done].
  rewrite list_lookup_insert_ne by lia. done.
Qed.

Lemma U8_get_oob a i : ¬ (0 ≤ i < U8.length a) → U8.get a i = 0.
Proof.
  unfold U8.get, U8.length. intros Hi. case_bool_decide; [|done].
  rewrite lookup_ge_None_2 by lia. done.
Qed.

Lemma U8_set_oob a i v : ¬ (0 ≤ i < U8.length a) → U8.set a i v = a.
Proof.
  unfold U8.set, U8.length. intros Hi. case_bool_decide; [|done].
  apply list_insert_ge. lia.
Qed.

(** Two arrays of one length with the same cells are equal. *)
Lemma U8_ext (a1 a2 : list Z) :
  U8.length a1 = U8.length a2 →
  (∀ i, 0 ≤ i < U8.length a1 → U8.get a1 i = U8.get a2 i) →
  a1 = a2.
Proof.
  unfold U8.length, U8.get. intros Hlen Hget.
  apply list_eq_same_length with (length a1); [lia|lia|].
  intros i x y Hi Hx Hy. specialize (Hget (Z.of_nat i)).
  rewrite bool_decide_eq_true_2, Nat2Z.id, Hx, Hy in Hget by lia.
  simpl in Hget. apply Hget. lia.
Qed.

(** ** The opcode table *)

Lemma byteToInstruction_Some byte c :
  BFF.byteToInstruction byte = Some c ↔ byte = BFF.BFF_INSTRUCTIONS c.
Proof.
  unfold BFF.byteToInstruction, BFF.BYTE_TO_INSTRUCTION. simpl.
  rewrite !lookup_insert, lookup_empty.
  repeat case_decide; subst;
    destruct c; simpl in *; split; intros; try congruence; try lia.
Qed.

Lemma byteToInstruction_None byte :
  BFF.byteToInstruction byte = None ↔
  ∀ c, byte ≠ BFF.BFF_INSTRUCTIONS c.
Proof.
  split.
  - intros HN c Hc. apply byteToInstruction_Some in Hc. congruence.
  - intros Hall. destruct (BFF.byteToInstruction byte) as [c|] eqn:E; [|done].
    apply byteToInstruction_Some in E. by destruct (Hall c).
Qed.

Lemma instructionSet_spec byte :
  byte ∈ instructionSet ↔ ∃ c, byte = BFF.BFF_INSTRUCTIONS c.
Proof.
  unfold instructionSet. rewrite elem_of_list_to_set. split.
  - rewrite !elem_of_cons, elem_of_nil. intros H.
    destruct_or!; try done; subst.
    + by exists BFF.HEAD0_DEC. + by exists BFF.HEAD0_INC.
    + by exists BFF.HEAD1_DEC. + by exists BFF.HEAD1_INC.
    + by exists BFF.INC. + by exists BFF.DEC.
    + by exists BFF.COPY_TO_1. + by exists BFF.COPY_TO_0.
    + by exists BFF.LOOP_OPEN. + by exists BFF.LOOP_CLOSE.
  - intros [c ->]. destruct c; simpl; set_solver.
Qed.

(** ** The interpreter *)

Lemma step_halted_id s : BFF.halted s = true → BFF.step s = s.
Proof. intros H. unfold BFF.step. by rewrite H. Qed.

(** [_wrapHead] lands on the tape. *)
Lemma rem_range index L : 0 < L → - L < Z.rem index L < L.
Proof.
  intros HL. destruct (decide (0 ≤ index)).
  - assert (0 ≤ Z.rem index L < L) by (apply Z.rem_bound_pos; lia). lia.
  - assert (- L < Z.rem index L ≤ 0) by (apply Z.rem_bound_pos_neg; lia). lia.
Qed.

Lemma wrapHead_range s index :
  0 < Tape.size (BFF.tape s) →
  0 ≤ BFF._wrapHead s index < Tape.size (BFF.tape s).
Proof.
  intros HL. unfold BFF._wrapHead, JS.rem.
  pose proof (rem_range index _ HL). apply Z.rem_bound_pos; lia.
Qed.

(** Case analysis of one call of [step]. *)
Ltac step_cases s :=
  let Hh := fresh "Hhalted" in
  unfold BFF.step;
  destruct (BFF.halted s) eqn:Hh; simpl; [|
    case_bool_decide; simpl; [|
      destruct (BFF.byteToInstruction (Tape.get (BFF.tape s) (BFF.ip s)))
        as [[]|] eqn:?;
      unfold BFF.dispatch, BFF.advanceIP; simpl;
      repeat (case_bool_decide; simpl); rewrite ?Hh; simpl;
      repeat (case_bool_decide; simpl) ] ].

Lemma U8_get_lookup (l : list Z) (i : nat) x :
  l !! i = Some x → U8.get l (Z.of_nat i) = x.
Proof.
  intros H. unfold U8.get.
  by rewrite bool_decide_eq_true_2, Nat2Z.id, H by lia.
Qed.

Lemma land_255 v : Z.land v 0xFF = v `mod` 256.
Proof. change 255 with (Z.ones 8). by rewrite Z.land_ones by lia. Qed.

Lemma U8_set_land a i v : U8.set a i (Z.land v 0xFF) = U8.set a i v.
Proof.
  unfold U8.set, U8.u8. rewrite land_255.
  by rewrite Z.mod_mod by lia.
Qed.

(** On the tape the wrap of an index is the index. *)
Lemma Tape_wrap_on_tape tp i :
  0 ≤ i < Tape.size tp → Tape._wrap tp i = i.
Proof.
  intros Hi. unfold Tape._wrap, JS.rem.
  rewrite (Z.rem_small i) by lia.
  rewrite Z.rem_mod_nonneg by lia.
  replace (i + Tape.size tp) with (i + 1 * Tape.size tp) by lia.
  rewrite Z_mod_plus_full. apply Z.mod_small. lia.
Qed.

Lemma Tape_get_on_tape tp i :
  0 ≤ i < Tape.size tp → Tape.get tp i = U8.get tp i.
Proof. intros Hi. unfold Tape.get. by rewrite Tape_wrap_on_tape. Qed.

Lemma Tape_set_on_tape tp i v :
  0 ≤ i < Tape.size tp → Tape.set tp i v = U8.set tp i v.
Proof.
  intros Hi. unfold Tape.set. by rewrite Tape_wrap_on_tape, U8_set_land.
Qed.

Lemma Tape_size_set tp i v : Tape.size (Tape.set tp i v) = Tape.size tp.
Proof. apply U8_length_set. Qed.

Lemma Tape_size_increment tp i : Tape.size (Tape.increment tp i) = Tape.size tp.
Proof. apply U8_length_set. Qed.

Lemma Tape_size_decrement tp i : Tape.size (Tape.decrement tp i) = Tape.size tp.
Proof. apply U8_length_set. Qed.

(** [step] never changes the length of the tape. *)
Lemma step_tape_size s :
  Tape.size (BFF.tape (BFF.step s)) = Tape.size (BFF.tape s).
Proof.
  step_cases s;
    rewrite ?Tape_size_set, ?Tape_size_increment, ?Tape_size_decrement; done.
Qed.

(** The heads stay on the tape across one call of [step]. *)
Lemma step_heads s :
  0 < Tape.size (BFF.tape s) →
  0 ≤ BFF.head0 s < Tape.size (BFF.tape s) →
  0 ≤ BFF.head1 s < Tape.size (BFF.tape s) →
  0 ≤ BFF.head0 (BFF.step s) < Tape.size (BFF.tape (BFF.step s)) ∧
  0 ≤ BFF.head1 (BFF.step s) < Tape.size (BFF.tape (BFF.step s)).
Proof.
  intros HL H0 H1. rewrite step_tape_size.
  step_cases s; try (split; assumption);
    (split; [try assumption|try assumption]);
    match goal with
    | |- context [BFF._wrapHead ?s' ?i] =>
      apply (wrapHead_range s' i); simpl; assumption
    end.
Qed.

(** An invariant of [step] holds after any number of calls. *)
Lemma iter_step_inv (P : BFF.Interpreter → Prop) :
  (∀ s, P s → P (BFF.step s)) →
  ∀ n s, P s → P (Nat.iter n BFF.step s).
Proof.
  intros Hstep n. induction n as [|n IH]; intros s Hs; simpl; auto.
Qed.

Lemma run_fuel_iter fuel s s' :
  BFF.run_fuel fuel s = Some s' →
  BFF.halted s' = true ∧ ∃ n, (n ≤ fuel)%nat ∧ s' = Nat.iter n BFF.step s.
Proof.
  revert s. induction fuel as [|fuel IH]; intros s; simpl.
  - destruct (BFF.halted s) eqn:E; [|done]. intros [= <-]. split; [done|].
    by exists 0%nat.
  - destruct (BFF.halted s) eqn:E.
    + intros [= <-]. split; [done|]. exists 0%nat. split; [lia|done].
    + intros H. destruct (IH _ H) as [Hh [n [Hn ->]]]. split; [done|].
      exists (S n). split; [lia|]. by rewrite Nat.iter_succ_r.
Qed.

(** An invariant of [step] holds for the state [run] returns. *)
Lemma run_inv (P : BFF.Interpreter → Prop) s :
  (∀ s, P s → P (BFF.step s)) → P s → P (BFF.run s).
Proof.
  intros Hstep Hs. unfold BFF.run.
  destruct (BFF.run_fuel _ s) as [s'|] eqn:E; simpl; [|done].
  apply run_fuel_iter in E as [_ [n [_ ->]]]. by apply iter_step_inv.
Qed.

(** A call of [step] on a running interpreter halts it or counts a step. *)
Lemma step_progress s :
  BFF.halted s = false →
  BFF.halted (BFF.step s) = true ∨
  (BFF.stepCount s < BFF.MAX_STEPS ∧
   BFF.stepCount (BFF.step s) = BFF.stepCount s + 1).
Proof.
  intros Hrun. step_cases s; try congruence; (by left) || (right; lia).
Qed.

Lemma step_stepCount s :
  0 ≤ BFF.stepCount s ≤ BFF.MAX_STEPS →
  0 ≤ BFF.stepCount (BFF.step s) ≤ BFF.MAX_STEPS.
Proof. intros H. step_cases s; lia. Qed.

Lemma step_haltReason s :
  (BFF.halted s = true → interpreterReason (BFF.haltReason s)) →
  BFF.halted (BFF.step s) = true →
  interpreterReason (BFF.haltReason (BFF.step s)).
Proof.
  unfold interpreterReason. intros H.
  step_cases s; intros; try congruence; auto.
Qed.

(** Enough fuel: a running interpreter halts within
    [MAX_STEPS - stepCount + 1] calls. *)
Lemma run_fuel_enough fuel s :
  BFF.MAX_STEPS - BFF.stepCount s ≤ Z.of_nat fuel →
  is_Some (BFF.run_fuel (S fuel) s).
Proof.
  revert s. induction fuel as [|fuel IH]; intros s Hfuel;
    cbn [BFF.run_fuel]; (destruct (BFF.halted s) eqn:E; [by eexists|]);
    destruct (step_progress s E) as [Hh|[Hlt Hcnt]].
  - rewrite Hh. by eexists.
  - lia.
  - rewrite Hh. by eexists.
  - apply IH. lia.
Qed.

Lemma run_fuel_new tp :
  is_Some (BFF.run_fuel (S (Z.to_nat BFF.MAX_STEPS)) (BFF.new tp)).
Proof. apply run_fuel_enough. simpl. unfold BFF.MAX_STEPS. lia. Qed.

(** [run] on a fresh interpreter returns a halted state reached by
    iterating [step]. *)
Lemma run_new_iter tp :
  ∃ n, (n ≤ S (Z.to_nat BFF.MAX_STEPS))%nat ∧
       BFF.run_fuel (S (Z.to_nat BFF.MAX_STEPS)) (BFF.new tp) =
         Some (Nat.iter n BFF.step (BFF.new tp)) ∧
       BFF.run (BFF.new tp) = Nat.iter n BFF.step (BFF.new tp) ∧
       BFF.halted (Nat.iter n BFF.step (BFF.new tp)) = true.
Proof.
  destruct (run_fuel_new tp) as [s' Hs'].
  destruct (run_fuel_iter _ _ _ Hs') as [Hh [n [Hn ->]]].
  exists n. unfold BFF.run. rewrite Hs'. done.
Qed.

(** ** Claims about the interpreter alone *)

(** C10: calling [step] on an interpreter whose [halted] flag is set is the
    identity on the interpreter state: tape, ip, head0, head1, stepCount and
    every other counter are unchanged. *)
Theorem C10_step_after_halt (s : BFF.Interpreter) :
  BFF.halted s = true → BFF.step s = s.
Proof. apply step_halted_id. Qed.

(** C10 at the state reached by running the tape [+; 0; 0; 0]. *)
Lemma C10_step_after_halt_witness :
  BFF.halted (BFF.run (BFF.new [0x2B; 0; 0; 0])) = true ∧
  BFF.step (BFF.run (BFF.new [0x2B; 0; 0; 0])) =
    BFF.run (BFF.new [0x2B; 0; 0; 0]).
Proof.
  split; [vm_compute; reflexivity|].
  apply (C10_step_after_halt (BFF.run (BFF.new [0x2B; 0; 0; 0]))).
  vm_compute; reflexivity.
Defined.

(** C7: on a tape of length [2R] with [R > 0], after any number of calls of
    [step] from the initial state both heads satisfy [0 <= head < 2R]. *)
Theorem C7_heads_in_range (tp : Tape.t) (R : Z) (n : nat) :
  0 < R → Tape.size tp = 2 * R →
  0 ≤ BFF.head0 (Nat.iter n BFF.step (BFF.new tp)) < 2 * R ∧
  0 ≤ BFF.head1 (Nat.iter n BFF.step (BFF.new tp)) < 2 * R.
Proof.
  intros HR HL.
  cut (Tape.size (BFF.tape (Nat.iter n BFF.step (BFF.new tp))) = 2 * R ∧
       0 ≤ BFF.head0 (Nat.iter n BFF.step (BFF.new tp)) < 2 * R ∧
       0 ≤ BFF.head1 (Nat.iter n BFF.step (BFF.new tp)) < 2 * R);
    [tauto|].
  apply (iter_step_inv
    (λ s, Tape.size (BFF.tape s) = 2 * R ∧
          0 ≤ BFF.head0 s < 2 * R ∧ 0 ≤ BFF.head1 s < 2 * R)).
  - intros s (Hsz & H0 & H1).
    destruct (step_heads s) as [H0' H1']; try lia.
    rewrite step_tape_size in *. rewrite Hsz in *. done.
  - simpl. lia.
Qed.

(** C7 on the tape [<; {; 0; 0] after two steps, where both heads have
    wrapped from 0 to 3. *)
Lemma C7_heads_in_range_witness :
  0 ≤ BFF.head0 (Nat.iter 2 BFF.step (BFF.new [0x3C; 0x7B; 0; 0])) < 2 * 2 ∧
  0 ≤ BFF.head1 (Nat.iter 2 BFF.step (BFF.new [0x3C; 0x7B; 0; 0])) < 2 * 2.
Proof.
  apply (C7_heads_in_range [0x3C; 0x7B; 0; 0] 2 2); [lia|reflexivity].
Defined.

(** C6: for every tape, [run] on a fresh interpreter terminates: at most
    [MAX_STEPS + 1] calls of [step] reach a halted state, which [run]
    returns; the instructions dispatched ([stepCount]) are at most
    [MAX_STEPS], hence at most [MAX_STEPS + 2R] for a tape of length [2R];
    the halt reason is the step cap, the end of the tape or an unmatched
    bracket. *)
Theorem C6_run_terminates (tp : Tape.t) :
  ∃ n : nat,
    (n ≤ S (Z.to_nat BFF.MAX_STEPS))%nat ∧
    BFF.run_fuel (S (Z.to_nat BFF.MAX_STEPS)) (BFF.new tp) =
      Some (Nat.iter n BFF.step (BFF.new tp)) ∧
    BFF.run (BFF.new tp) = Nat.iter n BFF.step (BFF.new tp) ∧
    BFF.halted (BFF.run (BFF.new tp)) = true ∧
    0 ≤ BFF.stepCount (BFF.run (BFF.new tp)) ≤ BFF.MAX_STEPS ∧
    BFF.stepCount (BFF.run (BFF.new tp)) ≤ BFF.MAX_STEPS + Tape.size tp ∧
    interpreterReason (BFF.haltReason (BFF.run (BFF.new tp))).
Proof.
  destruct (run_new_iter tp) as (n & Hn & Hfuel & Hrun & Hh).
  exists n. rewrite Hrun. repeat split; try done.
  - apply (iter_step_inv (λ s, 0 ≤ BFF.stepCount s ≤ BFF.MAX_STEPS));
      [apply step_stepCount|]. simpl. unfold BFF.MAX_STEPS. lia.
  - apply (iter_step_inv (λ s, 0 ≤ BFF.stepCount s ≤ BFF.MAX_STEPS));
      [apply step_stepCount|]. simpl. unfold BFF.MAX_STEPS. lia.
  - assert (0 ≤ BFF.stepCount (Nat.iter n BFF.step (BFF.new tp))
              ≤ BFF.MAX_STEPS) as H.
    { apply (iter_step_inv (λ s, 0 ≤ BFF.stepCount s ≤ BFF.MAX_STEPS));
        [apply step_stepCount|]. simpl. unfold BFF.MAX_STEPS. lia. }
    pose proof (U8_length_nonneg tp). unfold Tape.size. lia.
  - revert Hh.
    apply (iter_step_inv
      (λ s, BFF.halted s = true → interpreterReason (BFF.haltReason s)));
      [apply step_haltReason|]. simpl. congruence.
Qed.

(** ** Bracket matching *)

(** One iteration of the scan updates the depth by [bracketDelta]. *)
Lemma findLoop_unfold tp direction fuel depth pos :
  BFF.findLoop tp direction (S fuel) depth pos =
  if bool_decide (pos + direction < 0 ∨ Tape.size tp ≤ pos + direction)
  then Some (-1)
  else
    let depth' :=
      depth + bracketDelta direction (Tape.get tp (pos + direction)) in
    if bool_decide (depth' = 0) then Some (pos + direction)
    else BFF.findLoop tp direction fuel depth' (pos + direction).
Proof.
  cbn [BFF.findLoop]. case_bool_decide; [done|].
  unfold bracketDelta. cbn [BFF.BFF_INSTRUCTIONS].
  repeat case_bool_decide; rewrite ?Z.add_0_r; try done; try lia.
Qed.

(** What the scan returns: -1 exactly when it leaves the tape with the
    bracket open, and otherwise the first position where the depth is 0. *)
Lemma findLoop_spec tp direction start fuel k r :
  BFF.findLoop tp direction fuel (scanDepth tp direction start k)
    (start + direction * Z.of_nat k) = Some r →
  scanOpen tp direction start (S k) →
  (r = -1 ∧ ∃ n, leavesAt tp direction start n) ∨
  (∃ n, r = start + direction * Z.of_nat n ∧ matchedAt tp direction start n).
Proof.
  revert k. induction fuel as [|fuel IH]; intros k; [done|].
  rewrite findLoop_unfold.
  replace (start + direction * Z.of_nat k + direction)
    with (start + direction * Z.of_nat (S k)) by lia.
  change (scanDepth tp direction start k +
          bracketDelta direction
            (Tape.get tp (start + direction * Z.of_nat (S k))))
    with (scanDepth tp direction start (S k)).
  cbv zeta. intros Hr Hopen. case_bool_decide as Hrange.
  - injection Hr as <-. left. split; [done|]. exists (S k).
    split; [lia|]. split; [lia|done].
  - case_bool_decide as Hd.
    + injection Hr as <-. right. exists (S k). split; [done|].
      split; [lia|]. split; [lia|]. split; done.
    + apply (IH (S k) Hr). intros m Hm.
      destruct (decide (m = S k)) as [->|]; [split; [lia|done]|].
      apply Hopen. lia.
Qed.

(** The scan never runs out of iterations in the two directions used. *)
Lemma findLoop_total tp direction fuel depth pos :
  (direction = 1 ∧ Tape.size tp - pos ≤ Z.of_nat fuel ∨
   direction = -1 ∧ pos + 1 ≤ Z.of_nat fuel) →
  (1 ≤ fuel)%nat →
  is_Some (BFF.findLoop tp direction fuel depth pos).
Proof.
  revert depth pos. induction fuel as [|fuel IH]; intros depth pos Hf H1;
    [lia|].
  rewrite findLoop_unfold. cbv zeta.
  case_bool_decide as Hrange; [by eexists|].
  case_bool_decide; [by eexists|].
  apply IH; lia.
Qed.

(** A match found from a positive depth is a closing bracket of the scan. *)
Lemma findLoop_closing tp direction fuel depth pos r :
  1 ≤ depth →
  BFF.findLoop tp direction fuel depth pos = Some r → r ≠ -1 →
  Tape.get tp r = closingBracket direction.
Proof.
  revert depth pos. induction fuel as [|fuel IH]; intros depth pos Hd; [done|].
  rewrite findLoop_unfold. cbv zeta.
  case_bool_decide as Hrange; [congruence|].
  case_bool_decide as Hz.
  - intros [= <-] _. revert Hz. unfold bracketDelta, closingBracket.
    cbn [BFF.BFF_INSTRUCTIONS]. repeat case_bool_decide; lia.
  - apply IH. revert Hz. unfold bracketDelta.
    repeat case_bool_decide; lia.
Qed.

(** [_findMatchingBracket] from a position on the tape, in a direction the
    interpreter uses. *)
Lemma findMatchingBracket_spec s start direction :
  direction = 1 ∨ direction = -1 →
  0 ≤ start < Tape.size (BFF.tape s) →
  (BFF._findMatchingBracket s start direction = -1 ∧
   ∃ n, leavesAt (BFF.tape s) direction start n) ∨
  (∃ n, BFF._findMatchingBracket s start direction =
          start + direction * Z.of_nat n ∧
        matchedAt (BFF.tape s) direction start n ∧
        Tape.get (BFF.tape s) (start + direction * Z.of_nat n) =
          closingBracket direction).
Proof.
  intros Hdir Hstart. unfold BFF._findMatchingBracket.
  destruct (findLoop_total (BFF.tape s) direction
              (S (Z.to_nat (Tape.size (BFF.tape s)))) 1 start)
    as [r Hr]; [lia|lia|].
  rewrite Hr. simpl.
  pose proof (findLoop_closing _ _ _ 1 _ _ (Z.le_refl 1) Hr) as Hclose.
  destruct (findLoop_spec (BFF.tape s) direction start
              (S (Z.to_nat (Tape.size (BFF.tape s)))) 0%nat r)
    as [[-> Hl]|[n [-> Hm]]].
  - replace (start + direction * Z.of_nat 0) with start by lia. exact Hr.
  - intros m Hm. lia.
  - left. done.
  - right. exists n. split; [done|]. split; [done|].
    apply Hclose. destruct Hm as (_ & Hn & _). lia.
Qed.

(** A scan cannot both leave the tape and find a match. *)
Lemma leaves_not_matched tp direction start n n' :
  leavesAt tp direction start n → ¬ matchedAt tp direction start n'.
Proof.
  intros (Hn & Hout & Hopen) (Hn' & Hin & Hzero & Hopen').
  destruct (decide (n' < n)%nat) as [Hlt|Hge].
  - destruct (Hopen n') as [_ Hnz]; [lia|]. done.
  - destruct (decide (n' = n)) as [->|Hne]; [done|].
    destruct (Hopen' n) as [Hin' _]; [lia|]. done.
Qed.

(** C5: bracket matching does not cross the tape boundaries.  On a running
    interpreter below the step cap whose instruction is a taken [[] (forward
    scan) or a taken []] (backward scan), either the scan leaves [0, L) with
    the bracket open, and [step] halts with [unmatched_bracket] leaving the
    IP on the bracket; or the scan finds the matching bracket on the tape,
    and [step] leaves the IP one past it (halting with [end_of_tape] only if
    that is the end of the tape). *)
Theorem C5_bracket_matching (s : BFF.Interpreter) (direction : Z) :
  BFF.halted s = false →
  BFF.stepCount s < BFF.MAX_STEPS →
  0 ≤ BFF.ip s < Tape.size (BFF.tape s) →
  takenBracket s direction →
  ((∃ n, leavesAt (BFF.tape s) direction (BFF.ip s) n) ∧
   (∀ n, ¬ matchedAt (BFF.tape s) direction (BFF.ip s) n) ∧
   BFF.halted (BFF.step s) = true ∧
   BFF.haltReason (BFF.step s) = Some BFF.unmatched_bracket ∧
   BFF.ip (BFF.step s) = BFF.ip s) ∨
  (∃ n, matchedAt (BFF.tape s) direction (BFF.ip s) n ∧
        Tape.get (BFF.tape s) (BFF.ip s + direction * Z.of_nat n) =
          closingBracket direction ∧
        BFF.ip (BFF.step s) = BFF.ip s + direction * Z.of_nat n + 1 ∧
        (BFF.halted (BFF.step s) = true ↔
         Tape.size (BFF.tape s) ≤ BFF.ip s + direction * Z.of_nat n + 1) ∧
        (BFF.halted (BFF.step s) = true →
         BFF.haltReason (BFF.step s) = Some BFF.end_of_tape)).
Proof.
  intros Hrun Hcap Hip Htaken.
  set (s1 := BFF.with_stepCount s (BFF.stepCount s + 1)).
  assert (direction = 1 ∨ direction = -1) as Hdir
    by (destruct Htaken as [[? _]|[? _]]; auto).
  destruct (findMatchingBracket_spec s1 (BFF.ip s) direction Hdir Hip)
    as [[Hres [n Hleave]]|[n (Hres & Hmatch & Hclose)]].
  - left. split; [by exists n|].
    split; [intros n'; by apply (leaves_not_matched _ _ _ n)|].
    unfold BFF.step. rewrite Hrun, bool_decide_eq_false_2 by lia.
    destruct Htaken as [(-> & Hbyte & Hcell)|(-> & Hbyte & Hcell)];
      apply byteToInstruction_Some in Hbyte; rewrite Hbyte;
      cbn [BFF.dispatch]; fold s1; change (BFF.tape s1) with (BFF.tape s);
      change (BFF.head0 s1) with (BFF.head0 s);
      change (BFF.ip s1) with (BFF.ip s);
      rewrite bool_decide_eq_true_2 by done;
      rewrite Hres; simpl; done.
  - right. exists n. split; [done|]. split; [done|].
    assert (BFF._findMatchingBracket s1 (BFF.ip s) direction ≠ -1) as Hne.
    { rewrite Hres. destruct Hmatch as (_ & Hin & _). lia. }
    unfold BFF.step. rewrite Hrun, bool_decide_eq_false_2 by lia.
    destruct Htaken as [(-> & Hbyte & Hcell)|(-> & Hbyte & Hcell)];
      apply byteToInstruction_Some in Hbyte; rewrite Hbyte;
      cbn [BFF.dispatch]; fold s1; change (BFF.tape s1) with (BFF.tape s);
      change (BFF.head0 s1) with (BFF.head0 s);
      change (BFF.ip s1) with (BFF.ip s);
      rewrite bool_decide_eq_true_2 by done;
      rewrite (bool_decide_eq_false_2 _ Hne); rewrite Hres;
      unfold BFF.advanceIP; simpl; rewrite Hrun; simpl;
      case_bool_decide; simpl; (split; [done|]);
      (split; [split; intros; (done || lia || congruence)|]);
      intros; (done || congruence).
Qed.

(** ** Byte cells *)

Lemma bytes_make n : bytes (U8.make n).
Proof. unfold bytes, U8.make. apply Forall_replicate. lia. Qed.

Lemma bytes_set a i v : bytes a → bytes (U8.set a i v).
Proof.
  unfold bytes, U8.set. intros H. case_bool_decide; [|done].
  apply Forall_insert; [done|]. apply u8_range.
Qed.

Lemma bytes_get a i : bytes a → 0 ≤ U8.get a i < 256.
Proof.
  unfold bytes, U8.get. intros H. case_bool_decide; [|lia].
  destruct (a !! Z.to_nat i) as [v|] eqn:E; simpl; [|lia].
  by apply (Forall_lookup_1 _ _ _ _ H E).
Qed.

Lemma bytes_get_u8 a i : bytes a → U8.u8 (U8.get a i) = U8.get a i.
Proof. intros H. apply u8_small. by apply bytes_get. Qed.

(** [step] keeps every cell of the tape a byte. *)
Lemma step_bytes s : bytes (BFF.tape s) → bytes (BFF.tape (BFF.step s)).
Proof.
  intros H. step_cases s; try done;
    unfold Tape.decrement, Tape.increment, Tape.set; by apply bytes_set.
Qed.

(** ** Slices and the joint tape *)

Section Slices.

Variable p : Population.t.
Let R := Population.regionSize p.
Let len := U8.length (Population.soup p).

Lemma getSlice_spec start :
  Tape.size (Population.getSlice p start) = Z.max 0 R ∧
  bytes (Population.getSlice p start) ∧
  ∀ i, 0 ≤ i < R →
    Tape.get (Population.getSlice p start) i =
    U8.u8 (U8.get (Population.soup p) (JS.rem (start + i) len)).
Proof.
  unfold Population.getSlice. fold R len.
  cut (Tape.size (JS.for_range R
         (λ i tp, Tape.set tp i
            (U8.get (Population.soup p) (JS.rem (start + i) len)))
         (Tape.make R)) = Z.max 0 R ∧
       bytes (JS.for_range R
         (λ i tp, Tape.set tp i
            (U8.get (Population.soup p) (JS.rem (start + i) len)))
         (Tape.make R)) ∧
       ∀ i, 0 ≤ i < Z.max 0 R →
         Tape.get (JS.for_range R
           (λ i tp, Tape.set tp i
              (U8.get (Population.soup p) (JS.rem (start + i) len)))
           (Tape.make R)) i =
         U8.u8 (U8.get (Population.soup p) (JS.rem (start + i) len))).
  { intros (H1 & H2 & H3). repeat split; try done. intros; apply H3; lia. }
  apply (for_range_ind (λ k tp,
    Tape.size tp = Z.max 0 R ∧ bytes tp ∧
    ∀ i, 0 ≤ i < k →
      Tape.get tp i =
      U8.u8 (U8.get (Population.soup p) (JS.rem (start + i) len)))).
  - split; [apply U8_length_make|]. split; [apply bytes_make|]. lia.
  - intros k tp Hk (Hsz & Hb & Hget). split; [|split].
    + by rewrite Tape_size_set.
    + by apply bytes_set.
    + intros i Hi.
      rewrite Tape_get_on_tape by (rewrite Tape_size_set; lia).
      rewrite Tape_set_on_tape by lia.
      destruct (decide (i = k)) as [->|Hne].
      * apply U8_get_set_eq. unfold Tape.size in Hsz. lia.
      * rewrite U8_get_set_ne by done.
        rewrite <- Tape_get_on_tape by lia. apply Hget. lia.
Qed.

Lemma combineTapes_spec tapeA tapeB :
  Tape.size (Population.combineTapes p tapeA tapeB) = Z.max 0 (R * 2) ∧
  bytes (Population.combineTapes p tapeA tapeB) ∧
  ∀ i, 0 ≤ i < R →
    Tape.get (Population.combineTapes p tapeA tapeB) i =
      U8.u8 (U8.get tapeA i) ∧
    Tape.get (Population.combineTapes p tapeA tapeB) (i + R) =
      U8.u8 (U8.get tapeB i).
Proof.
  unfold Population.combineTapes, Tape.toArray. fold R.
  set (body := λ (i : Z) (combined : Tape.t),
         Tape.set (Tape.set combined i (U8.get tapeA i)) (i + R)
           (U8.get tapeB i)).
  cut (Tape.size (JS.for_range R body (Tape.make (R * 2))) = Z.max 0 (R * 2) ∧
       bytes (JS.for_range R body (Tape.make (R * 2))) ∧
       ∀ i, 0 ≤ i < Z.max 0 R →
         Tape.get (JS.for_range R body (Tape.make (R * 2))) i =
           U8.u8 (U8.get tapeA i) ∧
         Tape.get (JS.for_range R body (Tape.make (R * 2))) (i + R) =
           U8.u8 (U8.get tapeB i)).
  { intros (H1 & H2 & H3). repeat split; try done; apply H3; lia. }
  apply (for_range_ind (λ k tp,
    Tape.size tp = Z.max 0 (R * 2) ∧ bytes tp ∧
    ∀ i, 0 ≤ i < k →
      Tape.get tp i = U8.u8 (U8.get tapeA i) ∧
      Tape.get tp (i + R) = U8.u8 (U8.get tapeB i))).
  - split; [apply U8_length_make|]. split; [apply bytes_make|]. lia.
  - intros k tp Hk (Hsz & Hb & Hget). unfold body. split; [|split].
    + by rewrite !Tape_size_set.
    + by do 2 apply bytes_set.
    + intros i Hi.
      rewrite !Tape_get_on_tape by (rewrite !Tape_size_set; lia).
      rewrite (Tape_set_on_tape (Tape.set tp k _))
        by (rewrite Tape_size_set; lia).
      rewrite (Tape_set_on_tape tp) by lia.
      unfold Tape.size in *.
      destruct (decide (i = k)) as [->|Hne].
      * split.
        -- rewrite U8_get_set_ne by lia. apply U8_get_set_eq. lia.
        -- apply U8_get_set_eq. rewrite U8_length_set. lia.
      * rewrite !U8_get_set_ne by lia.
        destruct (Hget i ltac:(lia)) as [G1 G2].
        rewrite Tape_get_on_tape in G1, G2 by (unfold Tape.size; lia).
        done.
Qed.

Lemma splitTape_spec combined :
  Tape.size (Population.splitTape p combined).1 = Z.max 0 R ∧
  Tape.size (Population.splitTape p combined).2 = Z.max 0 R ∧
  ∀ i, 0 ≤ i < R →
    Tape.get (Population.splitTape p combined).1 i =
      U8.u8 (U8.get combined i) ∧
    Tape.get (Population.splitTape p combined).2 i =
      U8.u8 (U8.get combined (i + R)).
Proof.
  unfold Population.splitTape, Tape.toArray. fold R.
  set (body := λ (i : Z) '((tLeft, tRight) : Tape.t * Tape.t),
         (Tape.set tLeft i (U8.get combined i),
          Tape.set tRight i (U8.get combined (i + R)))).
  cut (Tape.size (JS.for_range R body (Tape.make R, Tape.make R)).1
         = Z.max 0 R ∧
       Tape.size (JS.for_range R body (Tape.make R, Tape.make R)).2
         = Z.max 0 R ∧
       ∀ i, 0 ≤ i < Z.max 0 R →
         Tape.get (JS.for_range R body (Tape.make R, Tape.make R)).1 i =
           U8.u8 (U8.get combined i) ∧
         Tape.get (JS.for_range R body (Tape.make R, Tape.make R)).2 i =
           U8.u8 (U8.get combined (i + R))).
  { intros (H1 & H2 & H3). repeat split; try done; apply H3; lia. }
  apply (for_range_ind (λ k (st : Tape.t * Tape.t),
    Tape.size st.1 = Z.max 0 R ∧ Tape.size st.2 = Z.max 0 R ∧
    ∀ i, 0 ≤ i < k →
      Tape.get st.1 i = U8.u8 (U8.get combined i) ∧
      Tape.get st.2 i = U8.u8 (U8.get combined (i + R)))).
  - simpl. split; [apply U8_length_make|]. split; [apply U8_length_make|].
    lia.
  - intros k [tl tr] Hk (Hl & Hr & Hget). simpl in *. split; [|split].
    + by rewrite Tape_size_set.
    + by rewrite Tape_size_set.
    + intros i Hi.
      rewrite !Tape_get_on_tape by (rewrite !Tape_size_set; lia).
      rewrite !Tape_set_on_tape by lia.
      unfold Tape.size in *.
      destruct (decide (i = k)) as [->|Hne].
      * split; apply U8_get_set_eq; lia.
      * rewrite !U8_get_set_ne by lia.
        destruct (Hget i ltac:(lia)) as [G1 G2].
        rewrite Tape_get_on_tape in G1, G2 by (unfold Tape.size; lia).
        done.
Qed.

(** [setSlice] on a region that lies inside the soup: the region receives
    the tape, every other cell keeps its value. *)
Lemma setSlice_spec start tp :
  0 ≤ start → start + R ≤ len →
  U8.length (Population.soup (Population.setSlice p start tp)) = len ∧
  (∀ i, 0 ≤ i < R →
     U8.get (Population.soup (Population.setSlice p start tp)) (start + i) =
     U8.u8 (U8.get tp i)) ∧
  (∀ j, ¬ (start ≤ j < start + R) →
     U8.get (Population.soup (Population.setSlice p start tp)) j =
     U8.get (Population.soup p) j).
Proof.
  intros Hs He. unfold Population.setSlice, Tape.toArray. simpl. fold R len.
  set (body := λ (i : Z) (sp : list Z),
         U8.set sp (JS.rem (start + i) len) (U8.get tp i)).
  cut (U8.length (JS.for_range R body (Population.soup p)) = len ∧
       (∀ i, 0 ≤ i < Z.max 0 R →
          U8.get (JS.for_range R body (Population.soup p)) (start + i) =
          U8.u8 (U8.get tp i)) ∧
       (∀ j, ¬ (start ≤ j < start + Z.max 0 R) →
          U8.get (JS.for_range R body (Population.soup p)) j =
          U8.get (Population.soup p) j)).
  { intros (H1 & H2 & H3). repeat split; try done; intros.
    - apply H2. lia.
    - apply H3. lia. }
  apply (for_range_ind (λ k sp,
    U8.length sp = len ∧
    (∀ i, 0 ≤ i < k → U8.get sp (start + i) = U8.u8 (U8.get tp i)) ∧
    (∀ j, ¬ (start ≤ j < start + k) →
       U8.get sp j = U8.get (Population.soup p) j))).
  - split; [done|]. split; [lia|done].
  - intros k sp Hk (Hlen & Hin & Hout). unfold body.
    assert (JS.rem (start + k) len = start + k) as ->
      by (apply Z.rem_small; lia).
    split; [by rewrite U8_length_set|]. split.
    + intros i Hi. destruct (decide (i = k)) as [->|Hne].
      * apply U8_get_set_eq. lia.
      * rewrite U8_get_set_ne by lia. apply Hin. lia.
    + intros j Hj. rewrite U8_get_set_ne by lia. apply Hout. lia.
Qed.

End Slices.

(** ** Write-back *)



(** The tape [runPair] runs, and the tape the interpreter leaves. *)
Lemma run_bytes tp : bytes tp → bytes (BFF.tape (BFF.run (BFF.new tp))).
Proof.
  intros H. apply (run_inv (λ s, bytes (BFF.tape s))); [|done].
  apply step_bytes.
Qed.


(** ** Claims about pair execution *)





(** A tape without opcode bytes has no instructions. *)
Lemma hasInstructions_false tp :
  (∀ i c, 0 ≤ i < Tape.size tp → Tape.get tp i ≠ BFF.BFF_INSTRUCTIONS c) →
  Population.hasInstructions tp = false.
Proof.
  intros Hno. unfold Population.hasInstructions, Tape.toArray.
  apply not_true_is_false. intros H.
  apply existsb_exists in H as (x & Hin & Hx).
  apply bool_decide_eq_true in Hx. apply instructionSet_spec in Hx as [c ->].
  apply list_elem_of_In, list_elem_of_lookup in Hin as [n Hn].
  assert (0 ≤ Z.of_nat n < Tape.size tp) as Hon
    by (apply lookup_lt_Some in Hn; unfold Tape.size, U8.length; lia).
  apply (Hno (Z.of_nat n) c Hon).
  rewrite Tape_get_on_tape by done. by apply U8_get_lookup.
Qed.

(** C3: when the joint tape of a pair holds no byte equal to one of the ten
    opcodes, [runPair] returns [steps = 0] and the halt reason
    [no_instructions], its result carries no opcode count (each reads as 0),
    and the population, hence the soup and the tape read from it, is
    unchanged. *)
Theorem C3_no_instructions (p : Population.t) (pair : Pair) :
  (∀ i c, 0 ≤ i < Tape.size (jointTape p pair) →
     Tape.get (jointTape p pair) i ≠ BFF.BFF_INSTRUCTIONS c) →
  Population.runPair p pair =
    (p, Population.mkRunResult 0 (Some BFF.no_instructions) None None) ∧
  Population.steps (Population.runPair p pair).2 = 0 ∧
  Population.haltReason (Population.runPair p pair).2
    = Some BFF.no_instructions ∧
  Population.orZero (Population.writes (Population.runPair p pair).2) = 0 ∧
  Population.orZero (Population.loopJumps (Population.runPair p pair).2) = 0 ∧
  Population.soup (Population.runPair p pair).1 = Population.soup p ∧
  jointTape (Population.runPair p pair).1 pair = jointTape p pair.
Proof.
  intros Hno. apply hasInstructions_false in Hno.
  assert (Population.runPair p pair =
    (p, Population.mkRunResult 0 (Some BFF.no_instructions) None None)) as E.
  { unfold Population.runPair. fold (jointTape p pair). by rewrite Hno. }
  rewrite E. done.
Qed.

(** C3 on [inertPopulation], whose regions 0 and 2 hold [1; 7; 9; 9]. *)
Lemma C3_no_instructions_witness :
  Population.runPair inertPopulation (mkPair 0 2) =
    (inertPopulation,
     Population.mkRunResult 0 (Some BFF.no_instructions) None None) ∧
  Population.steps (Population.runPair inertPopulation (mkPair 0 2)).2 = 0 ∧
  Population.haltReason (Population.runPair inertPopulation (mkPair 0 2)).2
    = Some BFF.no_instructions ∧
  Population.orZero
    (Population.writes (Population.runPair inertPopulation (mkPair 0 2)).2)
    = 0 ∧
  Population.orZero
    (Population.loopJumps (Population.runPair inertPopulation (mkPair 0 2)).2)
    = 0 ∧
  Population.soup (Population.runPair inertPopulation (mkPair 0 2)).1
    = Population.soup inertPopulation ∧
  jointTape (Population.runPair inertPopulation (mkPair 0 2)).1 (mkPair 0 2)
    = jointTape inertPopulation (mkPair 0 2).
Proof.
  apply (C3_no_instructions inertPopulation (mkPair 0 2)).
  intros i c Hi.
  change (Tape.size (jointTape inertPopulation (mkPair 0 2))) with 4 in Hi.
  change (jointTape inertPopulation (mkPair 0 2)) with [1; 7; 9; 9].
  assert (i = 0 ∨ i = 1 ∨ i = 2 ∨ i = 3) as Hcases by lia.
  destruct Hcases as [ -> | [ -> | [ -> | -> ] ] ]; destruct c; vm_compute; congruence.
Defined.

(** The tape changes only together with [writeCount]. *)
Lemma step_writes tp0 s :
  0 ≤ BFF.writeCount s ∧ (BFF.writeCount s = 0 → BFF.tape s = tp0) →
  0 ≤ BFF.writeCount (BFF.step s) ∧
  (BFF.writeCount (BFF.step s) = 0 → BFF.tape (BFF.step s) = tp0).
Proof.
  intros [H0 Htape]. step_cases s; (split; [lia|]); try done; intros; lia.
Qed.

(** C4: an execution that performed no math and no copy operation leaves
    the tape identical to its input ([writeCount = 0] after [run]), and no
    write-back occurs: [runPair] returns the population unchanged when its
    result reports no writes, and the worker leaves the soup unchanged when
    the math and copy counts of a result are both 0. *)
Theorem C4_no_write_no_change (tp : Tape.t) (p : Population.t) (pair : Pair)
    (regionSize : Z) (pairs : list Pair) (result : list Z) (i : Z)
    (soup : list Z) (tot : Worker.Totals) :
  (BFF.writeCount (BFF.run (BFF.new tp)) = 0 →
   BFF.tape (BFF.run (BFF.new tp)) = tp) ∧
  (Population.orZero (Population.writes (Population.runPair p pair).2) = 0 →
   (Population.runPair p pair).1 = p) ∧
  (Worker.getUint32 result (i * (28 + regionSize * 2) + 12) = 0 →
   Worker.getUint32 result (i * (28 + regionSize * 2) + 16) = 0 →
   (Worker.processResult regionSize pairs result i (soup, tot)).1 = soup).
Proof.
  split; [|split].
  - apply (run_inv (λ s, 0 ≤ BFF.writeCount s ∧
                         (BFF.writeCount s = 0 → BFF.tape s = tp))).
    + apply step_writes.
    + simpl. split; [lia|done].
  - unfold Population.runPair.
    destruct (Population.hasInstructions _); cbn [negb fst snd]; [|done].
    cbn [Population.writes Population.orZero default]. unfold id.
    intros Hw. rewrite bool_decide_eq_false_2 by lia. done.
  - intros Hm Hc. unfold Worker.processResult. cbv zeta.
    destruct (negb _); [done|]. cbn [fst].
    rewrite Hm, Hc. rewrite bool_decide_eq_false_2 by lia. done.
Qed.

(** C4 on the tape [<; >; 9; 9], on [moverPopulation] with the pair (0, 2),
    and on the worker with [quietResult]. *)
Lemma C4_no_write_no_change_witness :
  BFF.tape (BFF.run (BFF.new [0x3C; 0x3E; 9; 9])) = [0x3C; 0x3E; 9; 9] ∧
  (Population.runPair moverPopulation (mkPair 0 2)).1 = moverPopulation ∧
  (Worker.processResult 2 [mkPair 0 2] quietResult 0
     (Population.soup moverPopulation, Worker.mkTotals 0 0 0 0 0 1)).1
  = Population.soup moverPopulation.
Proof.
  destruct (C4_no_write_no_change [0x3C; 0x3E; 9; 9] moverPopulation
              (mkPair 0 2) 2 [mkPair 0 2] quietResult 0
              (Population.soup moverPopulation)
              (Worker.mkTotals 0 0 0 0 0 1)) as (Htape & Hpair & Hworker).
  split; [|split].
  - apply Htape. vm_compute. reflexivity.
  - apply Hpair. vm_compute. reflexivity.
  - apply Hworker; vm_compute; reflexivity.
Defined.

(** C5 on the tape [<; [; 0; ]; 0; 0] after its first step: head0 has
    wrapped to the zero cell 5, the [[] at 1 is taken and matched by the []]
    two moves away, and the IP ends at 4. *)
Lemma C5_bracket_matching_witness :
  let s := Nat.iter 1 BFF.step (BFF.new [0x3C; 0x5B; 0; 0x5D; 0; 0]) in
  ((∃ n, leavesAt (BFF.tape s) 1 (BFF.ip s) n) ∧
   (∀ n, ¬ matchedAt (BFF.tape s) 1 (BFF.ip s) n) ∧
   BFF.halted (BFF.step s) = true ∧
   BFF.haltReason (BFF.step s) = Some BFF.unmatched_bracket ∧
   BFF.ip (BFF.step s) = BFF.ip s) ∨
  (∃ n, matchedAt (BFF.tape s) 1 (BFF.ip s) n ∧
        Tape.get (BFF.tape s) (BFF.ip s + 1 * Z.of_nat n) =
          closingBracket 1 ∧
        BFF.ip (BFF.step s) = BFF.ip s + 1 * Z.of_nat n + 1 ∧
        (BFF.halted (BFF.step s) = true ↔
         Tape.size (BFF.tape s) ≤ BFF.ip s + 1 * Z.of_nat n + 1) ∧
        (BFF.halted (BFF.step s) = true →
         BFF.haltReason (BFF.step s) = Some BFF.end_of_tape)).
Proof.
  cbv zeta.
  apply (C5_bracket_matching
           (Nat.iter 1 BFF.step (BFF.new [0x3C; 0x5B; 0; 0x5D; 0; 0])) 1).
  - vm_compute. reflexivity.
  - vm_compute. reflexivity.
  - vm_compute. split; [discriminate|reflexivity].
  - left. vm_compute. repeat split; reflexivity.
Defined.

(** ** The initial state *)

(** C2 (as stated) fails: the default [head1Offset] of [PopulationWasm] is
    not the region size, and the interpreter [runPair] starts has
    [head1 = 0], not [R mod 2R]. *)
Lemma C2_default_head1_counterexample :
  PopulationWasm.head1Offset PopulationWasm.default
    ≠ PopulationWasm.regionSize PopulationWasm.default ∧
  BFF.head1 (BFF.new (jointTape smallPopulation (mkPair 0 2)))
    ≠ JS.rem (Population.regionSize smallPopulation)
        (Tape.size (jointTape smallPopulation (mkPair 0 2))).
Proof. vm_compute. split; congruence. Qed.

(** C2 (amended): the interpreter of bff.js starts every execution with
    [ip = 0], [head0 = 0], [head1 = 0], all counters 0, [halted = false] and
    no halt reason.  The [head1Offset] of the parallel path is a field of
    [PopulationWasm], 32 by default with a default region size of 64;
    [executeBatch], whose own parameter default is 64, posts to the workers
    the offset it is given. *)
Theorem C2_initial_state_amended (tp : Tape.t) (pool : WorkerPool.t)
    (pairs : list Pair) (head1Offset maxSteps : Z) :
  (BFF.ip (BFF.new tp) = 0 ∧ BFF.head0 (BFF.new tp) = 0 ∧
   BFF.head1 (BFF.new tp) = 0 ∧ BFF.stepCount (BFF.new tp) = 0 ∧
   BFF.writeCount (BFF.new tp) = 0 ∧ BFF.loopJumps (BFF.new tp) = 0 ∧
   BFF.halted (BFF.new tp) = false ∧ BFF.haltReason (BFF.new tp) = None ∧
   BFF.tape (BFF.new tp) = tp) ∧
  (PopulationWasm.head1Offset PopulationWasm.default = 32 ∧
   PopulationWasm.regionSize PopulationWasm.default = 64 ∧
   WorkerPool.default_head1Offset = 64) ∧
  Forall (λ im : Z * WorkerPool.ExecuteMessage,
            WorkerPool.head1Offset im.2 = head1Offset)
    (drop (length (WorkerPool.posted pool))
       (WorkerPool.posted
          (WorkerPool.executeBatch pool pairs head1Offset maxSteps))).
Proof.
  split; [done|]. split; [done|].
  unfold WorkerPool.executeBatch. destruct (WorkerPool.ready pool); simpl.
  - rewrite drop_app_length. apply Forall_forall. intros [i msg] Hin.
    apply list_elem_of_lookup in Hin as [k Hk].
    rewrite list_lookup_imap in Hk.
    destruct (WorkerPool.batches pool pairs !! k); simpl in Hk; [|done].
    by injection Hk as _ <-.
  - rewrite drop_all. constructor.
Qed.

(** ** Pair selection *)

(** [Math.floor(Math.random() * n)] lies in [0, n) for a positive [n]. *)
(** Rounding to nearest moves a value by at most half a unit. *)
Lemma roundHalfEven_bounds m s :
  0 ≤ m → 0 ≤ s →
  0 ≤ Random.roundHalfEven m s ∧
  2 * m - 2 ^ s ≤ 2 * (Random.roundHalfEven m s * 2 ^ s) ≤ 2 * m + 2 ^ s.
Proof.
  intros Hm Hs. unfold Random.roundHalfEven. cbv zeta.
  assert (0 < 2 ^ s) as Hp by (apply Z.pow_pos_nonneg; lia).
  pose proof (Z.div_mod m (2 ^ s) ltac:(lia)) as Hdm.
  pose proof (Z.mod_pos_bound m (2 ^ s) Hp) as Hr.
  assert (0 ≤ m `div` 2 ^ s) as Hq by (apply Z.div_pos; lia).
  generalize dependent (m `div` 2 ^ s). generalize dependent (m `mod` 2 ^ s).
  intros r Hr q Hdm Hq.
  repeat case_bool_decide; try destruct (Z.even q); split; nia.
Qed.

(** The rounded product of a draw below 1 and [n] stays below [n]: the
    exact product is at least [n / 2^53] short of [n], more than half a
    unit of the rounding. *)
Lemma toDouble_range m n :
  0 < n → 0 ≤ m → m + n ≤ n * 2 ^ 53 → 0 ≤ Random.toDouble m < n * 2 ^ 53.
Proof.
  intros Hn Hm Hlt. unfold Random.toDouble. cbv zeta.
  rewrite Z.abs_eq by lia. case_bool_decide as Hs; [lia|].
  assert (0 < m) as Hpos.
  { destruct (decide (m = 0)) as [->|]; [|lia]. simpl in Hs. lia. }
  rewrite Z.sgn_pos, Z.mul_1_l by done.
  set (s := Z.log2 m - 52) in *.
  destruct (roundHalfEven_bounds m s) as [H0 [_ Hup]]; [lia|lia|].
  assert (0 < 2 ^ s) as Hp by (apply Z.pow_pos_nonneg; lia).
  destruct (Z.log2_spec m Hpos) as [Hlow _].
  replace (Z.log2 m) with (s + 52) in Hlow by (unfold s; lia).
  rewrite Z.pow_add_r in Hlow by lia.
  assert (2 ^ s < 2 * n) as Hsmall.
  { apply (Z.mul_lt_mono_pos_r (2 ^ 52)); lia. }
  split; [apply Z.mul_nonneg_nonneg; lia|lia].
Qed.

Lemma floorTimes_range k n :
  0 < n → 0 ≤ Random.floorTimes (Random.unit k) n < n.
Proof.
  intros Hn.
  unfold Random.floorTimes, Random.times, Random.unit, Qfloor.
  cbn [Qnum Qden]. change (Z.pos (2 ^ 53)) with (2 ^ 53).
  pose proof (Z.mod_pos_bound k (2 ^ 53) ltac:(lia)) as Hk.
  destruct (toDouble_range (k `mod` 2 ^ 53 * n) n) as [H0 H1];
    [lia|nia|nia|].
  split.
  - apply Z.div_pos; lia.
  - apply Z.div_lt_upper_bound; lia.
Qed.

(** The product is rounded before the floor is taken: 7 times the draw
    5146971002709138 / 2^53 is 4 - 2^-52 exactly, and 4 as a double. *)
Lemma floorTimes_rounds :
  Random.floorTimes (Random.unit 5146971002709138) 7 = 4 ∧
  (5146971002709138 * 7) `div` 2 ^ 53 = 3.
Proof. vm_compute. split; reflexivity. Qed.

Ltac unfold_oracle :=
  unfold mbind, oracle_bind, mret, oracle_ret, Random.bind, Random.random,
    Random.ret in *.

Section SelectWasm.

Variable p : PopulationWasm.t.
Hypothesis Halign : 0 < PopulationWasm.alignment p.
Hypothesis Hregion : 0 < PopulationWasm.regionSize p.
Hypothesis Hfits :
  PopulationWasm.regionSize p ≤ U8.length (PopulationWasm.soup p).

Lemma numPositions_pos : 0 < PopulationWasm.numPositions p.
Proof.
  unfold PopulationWasm.numPositions.
  assert (0 ≤ (U8.length (PopulationWasm.soup p)
               - PopulationWasm.regionSize p)
              `div` PopulationWasm.alignment p)
    by (apply Z.div_pos; lia).
  lia.
Qed.

(** An aligned position below [numPositions] starts a region inside the
    soup. *)
Lemma position_fits pos :
  0 ≤ pos < PopulationWasm.numPositions p →
  0 ≤ pos * PopulationWasm.alignment p ∧
  pos * PopulationWasm.alignment p + PopulationWasm.regionSize p
    ≤ U8.length (PopulationWasm.soup p).
Proof.
  unfold PopulationWasm.numPositions. intros Hpos.
  pose proof (Z.mul_div_le
    (U8.length (PopulationWasm.soup p) - PopulationWasm.regionSize p)
    (PopulationWasm.alignment p) Halign).
  split; nia.
Qed.

Lemma selectAny_spec a o b o' :
  PopulationWasm.selectAny p a o = Some (b, o') →
  PopulationWasm.regionSize p ≤ Z.abs (b - a) ∧
  ∃ pos, 0 ≤ pos < PopulationWasm.numPositions p ∧
         b = pos * PopulationWasm.alignment p.
Proof.
  induction o as [|k o IH]; [done|]. cbn [PopulationWasm.selectAny].
  cbv zeta. case_bool_decide; [done|]. intros [= <- <-].
  split; [lia|]. eexists. split; [|done].
  apply floorTimes_range, numPositions_pos.
Qed.

Lemma selectLocal_spec a minPos maxPos o posB o' :
  minPos ≤ maxPos →
  PopulationWasm.selectLocal p a minPos maxPos o = Some (posB, o') →
  PopulationWasm.regionSize p
    ≤ Z.abs (posB * PopulationWasm.alignment p - a) ∧
  minPos ≤ posB ≤ maxPos.
Proof.
  intros Hle. induction o as [|k o IH]; [done|].
  cbn [PopulationWasm.selectLocal]. cbv zeta.
  case_bool_decide; [done|]. intros [= <- <-].
  split; [lia|].
  pose proof (floorTimes_range k (maxPos - minPos + 1) ltac:(lia)). lia.
Qed.

Lemma selectRandomPair_spec o pair o' :
  0 ≤ PopulationWasm.numTapes p →
  PopulationWasm.selectRandomPair p o = Some (pair, o') →
  PopulationWasm.regionSize p ≤ Z.abs (a pair - b pair) ∧
  (PopulationWasm.alignment p | a pair) ∧
  (PopulationWasm.alignment p | b pair) ∧
  0 ≤ a pair ∧
  a pair + PopulationWasm.regionSize p
    ≤ U8.length (PopulationWasm.soup p) ∧
  0 ≤ b pair ∧
  b pair + PopulationWasm.regionSize p
    ≤ U8.length (PopulationWasm.soup p).
Proof.
  intros Htapes. unfold PopulationWasm.selectRandomPair,
    PopulationWasm.selectRandomSlice. unfold_oracle.
  destruct o as [|k o]; [done|]. cbv zeta.
  set (posA := Random.floorTimes (Random.unit k)
                 (PopulationWasm.numPositions p)).
  pose proof (floorTimes_range k _ numPositions_pos) as HposA. fold posA in HposA.
  pose proof (position_fits posA HposA) as [HA0 HA1].
  assert (∀ o1 bv o1',
    PopulationWasm.selectAny p (posA * PopulationWasm.alignment p) o1
      = Some (bv, o1') →
    Some (mkPair (posA * PopulationWasm.alignment p) bv, o1')
      = Some (pair, o') →
    PopulationWasm.regionSize p ≤ Z.abs (a pair - b pair) ∧
    (PopulationWasm.alignment p | a pair) ∧
    (PopulationWasm.alignment p | b pair) ∧
    0 ≤ a pair ∧
    a pair + PopulationWasm.regionSize p
      ≤ U8.length (PopulationWasm.soup p) ∧
    0 ≤ b pair ∧
    b pair + PopulationWasm.regionSize p
      ≤ U8.length (PopulationWasm.soup p)) as Hany.
  { intros o1 b1 o1' Hsel [= <-]. simpl.
    destruct (selectAny_spec _ _ _ _ Hsel) as (Habs & pos & Hpos & ->).
    pose proof (position_fits pos Hpos) as [HB0 HB1].
    repeat split; try lia; by eexists. }
  destruct (PopulationWasm.localityLimit p) as [limit|].
  - case_bool_decide as Hlimit.
    + destruct (PopulationWasm.selectLocal p _ _ _ o)
        as [[posB o1]|] eqn:Hsel; [|done].
      intros [= <- <-]. simpl.
      rewrite Z.div_mul in Hsel by lia.
      assert (0 ≤ ((limit * PopulationWasm.numTapes p
                    * PopulationWasm.regionSize p)
                   `div` PopulationWasm.alignment p) `div` 100) as Hloc.
      { apply Z.div_pos; [|lia]. apply Z.div_pos; [nia|lia]. }
      apply selectLocal_spec in Hsel as [Habs Hrange]; [|lia].
      assert (0 ≤ posB < PopulationWasm.numPositions p) as HposB by lia.
      pose proof (position_fits posB HposB) as [HB0 HB1].
      repeat split; try lia; by eexists.
    + destruct (PopulationWasm.selectAny p _ o) as [[b1 o1]|] eqn:Hsel;
        [|done].
      intros Heq. injection Heq as <- <-. eapply Hany; eauto.
  - destruct (PopulationWasm.selectAny p _ o) as [[b1 o1]|] eqn:Hsel;
      [|done].
    intros Heq. injection Heq as <- <-. eapply Hany; eauto.
Qed.

End SelectWasm.

Section SelectJS.

Variable p : Population.t.
Hypothesis Hregion : 0 < Population.regionSize p.
Hypothesis Hfits : Population.regionSize p ≤ U8.length (Population.soup p).

(** A slot start of [selectRandomSlice] is a multiple of the region size
    and starts a region inside the soup. *)
Lemma sliceStart_spec k :
  ∃ slot, Population.sliceStart p (Random.unit k)
            = slot * Population.regionSize p ∧
          0 ≤ slot ∧
          slot * Population.regionSize p + Population.regionSize p
            ≤ U8.length (Population.soup p).
Proof.
  unfold Population.sliceStart. cbv zeta. eexists. split; [done|].
  assert (0 < U8.length (Population.soup p) `div` Population.regionSize p)
    as Hslots by (apply Z.div_str_pos; lia).
  pose proof (floorTimes_range k _ Hslots) as Hslot.
  pose proof (Z.mul_div_le (U8.length (Population.soup p))
                (Population.regionSize p) Hregion).
  split; [lia|nia].
Qed.

Lemma selectOther_spec a o b o' :
  Population.selectOther p a o = Some (b, o') →
  a ≠ b ∧ ∃ k, b = Population.sliceStart p (Random.unit k).
Proof.
  induction o as [|k o IH]; [done|]. cbn [Population.selectOther].
  cbv zeta. case_bool_decide; [done|]. intros [= <- <-]. split; [done|].
  by eexists.
Qed.

Lemma Population_selectRandomPair_spec o pair o' :
  Population.selectRandomPair p o = Some (pair, o') →
  Population.regionSize p ≤ Z.abs (a pair - b pair) ∧
  (Population.regionSize p | a pair) ∧
  (Population.regionSize p | b pair) ∧
  0 ≤ a pair ∧
  a pair + Population.regionSize p ≤ U8.length (Population.soup p) ∧
  0 ≤ b pair ∧
  b pair + Population.regionSize p ≤ U8.length (Population.soup p).
Proof.
  unfold Population.selectRandomPair, Population.selectRandomSlice.
  unfold_oracle. destruct o as [|k o]; [done|].
  destruct (Population.selectOther p _ o) as [[b1 o1]|] eqn:Hsel; [|done].
  intros [= <- <-]. simpl.
  apply selectOther_spec in Hsel as [Hne [k' ->]].
  destruct (sliceStart_spec k) as (sa & Ea & Ha0 & Ha1).
  destruct (sliceStart_spec k') as (sb & Eb & Hb0 & Hb1).
  rewrite Ea, Eb in *.
  assert (sa ≠ sb) by congruence.
  repeat split; try nia; by eexists.
Qed.

End SelectJS.

(** C8: every pair returned by pair selection has [|a - b| >= R], both
    starts are multiples of the alignment (the region size in
    population.js), and both regions end inside the soup; for every positive
    alignment and every locality setting of [PopulationWasm]. *)
Theorem C8_pairs_do_not_overlap (p : PopulationWasm.t) (q : Population.t)
    (o o' : Random.Oracle) (pair : Pair) :
  (0 < PopulationWasm.alignment p → 0 < PopulationWasm.regionSize p →
   PopulationWasm.regionSize p ≤ U8.length (PopulationWasm.soup p) →
   0 ≤ PopulationWasm.numTapes p →
   PopulationWasm.selectRandomPair p o = Some (pair, o') →
   PopulationWasm.regionSize p ≤ Z.abs (a pair - b pair) ∧
   (PopulationWasm.alignment p | a pair) ∧
   (PopulationWasm.alignment p | b pair) ∧
   0 ≤ a pair ∧
   a pair + PopulationWasm.regionSize p
     ≤ U8.length (PopulationWasm.soup p) ∧
   0 ≤ b pair ∧
   b pair + PopulationWasm.regionSize p
     ≤ U8.length (PopulationWasm.soup p)) ∧
  (0 < Population.regionSize q →
   Population.regionSize q ≤ U8.length (Population.soup q) →
   Population.selectRandomPair q o = Some (pair, o') →
   Population.regionSize q ≤ Z.abs (a pair - b pair) ∧
   (Population.regionSize q | a pair) ∧
   (Population.regionSize q | b pair) ∧
   0 ≤ a pair ∧
   a pair + Population.regionSize q ≤ U8.length (Population.soup q) ∧
   0 ≤ b pair ∧
   b pair + Population.regionSize q ≤ U8.length (Population.soup q)).
Proof.
  split.
  - intros. by eapply selectRandomPair_spec.
  - intros. by eapply Population_selectRandomPair_spec.
Qed.

(** C8 on [smallWasm] (alignment 1, locality 50) and on [smallPopulation],
    with draws (0 then one half, 0 then one quarter) that select the pair
    (0, 2) in both. *)
Lemma C8_pairs_do_not_overlap_witness :
  (2 ≤ Z.abs (0 - 2) ∧ (1 | 0) ∧ (1 | 2) ∧
   0 ≤ 0 ∧ 0 + 2 ≤ 8 ∧ 0 ≤ 2 ∧ 2 + 2 ≤ 8) ∧
  (2 ≤ Z.abs (0 - 2) ∧ (2 | 0) ∧ (2 | 2) ∧
   0 ≤ 0 ∧ 0 + 2 ≤ 8 ∧ 0 ≤ 2 ∧ 2 + 2 ≤ 8).
Proof.
  split.
  - apply (proj1 (C8_pairs_do_not_overlap smallWasm smallPopulation
                    [0; 2 ^ 52] [] (mkPair 0 2)));
      (vm_compute; reflexivity) || (unfold U8.length; simpl; lia).
  - apply (proj2 (C8_pairs_do_not_overlap smallWasm smallPopulation
                    [0; 2 ^ 51] [] (mkPair 0 2)));
      (vm_compute; reflexivity) || (unfold U8.length; simpl; lia).
Defined.

(** ** Mutation *)

(** Invariant rule for a loop in the oracle monad. *)
Lemma foldl_bind_inv {A St : Type} (P : St → Prop) (body : A → St → Random.M St)
    (l : list A) (m : Random.M St) o s' o' :
  (∀ x s o s1 o1, x ∈ l → P s → body x s o = Some (s1, o1) → P s1) →
  foldl (λ acc x, Random.bind acc (body x)) m l o = Some (s', o') →
  (∀ s1 o1, m o = Some (s1, o1) → P s1) →
  P s'.
Proof.
  revert m. induction l as [|x l IH]; intros m Hbody Hrun Hm; simpl in Hrun.
  - by eapply Hm.
  - apply (IH (Random.bind m (body x))); [|done|].
    + intros y s o2 s1 o1 Hy. apply Hbody. by right.
    + intros s1 o1. unfold Random.bind.
      destruct (m o) as [[s0 o0]|] eqn:E; [|done].
      apply Hbody; [by left|]. by eapply Hm.
Qed.

Lemma for_rangeM_inv {St : Type} (P : St → Prop) n
    (body : Z → St → Random.M St) s o s' o' :
  P s →
  (∀ i s o s1 o1, 0 ≤ i < n → P s → body i s o = Some (s1, o1) → P s1) →
  Random.for_rangeM n body s o = Some (s', o') → P s'.
Proof.
  intros Hs Hbody Hrun. unfold Random.for_rangeM in Hrun.
  eapply (foldl_bind_inv P body); [|exact Hrun|].
  - intros i s0 o0 s1 o1 Hi. apply Hbody. apply elem_of_seqZ in Hi. lia.
  - by intros s1 o1 [= <- _].
Qed.

Lemma for_ofM_inv {A St : Type} (P : St → Prop) (l : list A)
    (body : A → St → Random.M St) s o s' o' :
  P s →
  (∀ x s o s1 o1, x ∈ l → P s → body x s o = Some (s1, o1) → P s1) →
  Random.for_ofM l body s o = Some (s', o') → P s'.
Proof.
  intros Hs Hbody Hrun. unfold Random.for_ofM in Hrun.
  eapply (foldl_bind_inv P body); [exact Hbody|exact Hrun|].
  by intros s1 o1 [= <- _].
Qed.

(** The mutation loop leaves every cell outside its slice alone, keeps the
    length of the soup, and stores bytes. *)
Lemma mutateLoop_frame R len rate start sp o sp' o' :
  mutateLoop R len rate start sp o = Some (sp', o') →
  mutatedWithin (inSlice R len start) sp sp'.
Proof.
  unfold mutateLoop.
  apply (for_rangeM_inv (λ s, mutatedWithin (inSlice R len start) sp s)).
  - split; [done|]. split; done.
  - intros i s o1 s1 o2 Hi (Hlen & Hb & Hout). unfold_oracle.
    destruct o1 as [|k o1]; [done|].
    destruct (Random.below _ rate).
    + cbv zeta. destruct o1 as [|k' o1]; [done|]. intros [= <- _].
      split; [by rewrite U8_length_set|]. split.
      * intros. apply bytes_set. auto.
      * intros idx Hidx. rewrite U8_get_set_ne; [by apply Hout|].
        intros <-. apply Hidx. by exists i.
    + intros [= <- _]. done.
Qed.

Lemma mutatedWithin_trans (in1 in2 inside : Z → Prop) sp1 sp2 sp3 :
  (∀ idx, in1 idx → inside idx) → (∀ idx, in2 idx → inside idx) →
  mutatedWithin in1 sp1 sp2 → mutatedWithin in2 sp2 sp3 →
  mutatedWithin inside sp1 sp3.
Proof.
  intros H1 H2 (L1 & B1 & F1) (L2 & B2 & F2). split; [congruence|].
  split; [auto|]. intros idx Hidx. rewrite F2, F1; auto.
Qed.

(** The loop of [mutateSelected] over the selected pairs. *)
Lemma mutatePairs_frame R len rate (pairs : list Pair) sp o sp' o' :
  Random.for_ofM pairs
    (λ pair sp,
       sp ← mutateLoop R len rate (a pair) sp;
       mutateLoop R len rate (b pair) sp)
    sp o = Some (sp', o') →
  mutatedWithin (selected R len pairs) sp sp'.
Proof.
  apply (for_ofM_inv (λ s, mutatedWithin (selected R len pairs) sp s)).
  - split; [done|]. split; done.
  - intros pair s o1 s1 o2 Hpair Hs. unfold_oracle.
    destruct (mutateLoop R len rate (a pair) s o1) as [[s0 o0]|] eqn:Ea;
      [|done].
    intros Eb. apply mutateLoop_frame in Ea, Eb.
    assert (mutatedWithin (selected R len pairs) sp s0) as Hs0.
    { apply (mutatedWithin_trans (selected R len pairs)
               (inSlice R len (a pair)) _ sp s s0); auto.
      intros idx H. exists pair. auto. }
    apply (mutatedWithin_trans (selected R len pairs)
             (inSlice R len (b pair)) _ sp s0 s1); auto.
    intros idx H. exists pair. auto.
Qed.

(** [mutateSelected] of population.js changes the soup only, and only in
    the selected regions. *)
Lemma Population_mutateSelected_frame p o p' o' :
  Population.mutateSelected p o = Some (p', o') →
  p' = Population.with_soup p (Population.soup p') ∧
  mutatedWithin
    (selected (Population.regionSize p) (U8.length (Population.soup p))
       (Population.currentPairs p))
    (Population.soup p) (Population.soup p').
Proof.
  unfold Population.mutateSelected.
  destruct (Qle_bool _ 0).
  - intros [= <- _]. split; [by destruct p|]. split; [done|]. split; done.
  - unfold mbind at 1, oracle_bind, Random.bind.
    destruct (Random.for_ofM _ _ _ o) as [[sp o1]|] eqn:E; [|done].
    intros [= <- _]. split; [done|].
    by apply (mutatePairs_frame _ _ _ _ _ _ _ _ E).
Qed.

(** [mutateSelected] of population-wasm.js changes the soup only, and only
    in the selected regions. *)
Lemma PopulationWasm_mutateSelected_frame p o p' o' :
  PopulationWasm.mutateSelected p o = Some (p', o') →
  p' = PopulationWasm.with_soup p (PopulationWasm.soup p') ∧
  mutatedWithin
    (selected (PopulationWasm.regionSize p)
       (U8.length (PopulationWasm.soup p)) (PopulationWasm.currentPairs p))
    (PopulationWasm.soup p) (PopulationWasm.soup p').
Proof.
  unfold PopulationWasm.mutateSelected.
  destruct (Qle_bool _ 0).
  - intros [= <- _]. split; [by destruct p|]. split; [done|]. split; done.
  - unfold mbind at 1, oracle_bind, Random.bind.
    destruct (Random.for_ofM _ _ _ o) as [[sp o1]|] eqn:E; [|done].
    intros [= <- _]. split; [done|].
    by apply (mutatePairs_frame _ _ _ _ _ _ _ _ E).
Qed.

(** [generatePairs] only rewrites [currentPairs]. *)
Lemma generatePairs_fields p o p1 o1 :
  PopulationWasm.generatePairs p o = Some (p1, o1) →
  p1 = PopulationWasm.with_currentPairs p (PopulationWasm.currentPairs p1).
Proof.
  unfold PopulationWasm.generatePairs.
  apply (for_rangeM_inv
    (λ s, s = PopulationWasm.with_currentPairs p
                (PopulationWasm.currentPairs s))); [done|].
  intros i s o2 s1 o3 _ Hs. unfold_oracle.
  destruct (PopulationWasm.selectRandomPair s o2) as [[pair o4]|]; [|done].
  intros [= <- _]. rewrite Hs at 1. done.
Qed.

(** C9 fails on the parallel path: one call of [soupStep] on [smallWasm]
    returns with the soup already mutated (its first byte is 255) while the
    batch it dispatched is still with the worker: the message is posted, and
    [pendingExecutions] is 1 because the completion callback has not run.
    population.js mutates after the pairs have run, and the tooltip of the
    mutation slider says "after each execution". *)
Lemma C9_mutation_before_completion :
  ∃ p' pool',
    PopulationWasm.soupStep smallWasm idlePool smallDraws
      = Some ((p', pool'), []) ∧
    PopulationWasm.soup smallWasm = [0x2B; 7; 9; 9; 9; 9; 9; 9] ∧
    PopulationWasm.soup p' = [255; 7; 9; 9; 9; 9; 9; 9] ∧
    PopulationWasm.pendingExecutions p' = 1 ∧
    WorkerPool.posted pool'
      = [(0, WorkerPool.mkExecuteMessage [mkPair 0 2] 2 8192)].
Proof. eexists _, _. vm_compute. repeat split; reflexivity. Qed.

(** ** The instruction pointer *)

(** A match reported by [_findMatchingBracket] is a position on the tape. *)
Lemma findLoop_on_tape tp direction fuel depth pos r :
  BFF.findLoop tp direction fuel depth pos = Some r →
  r = -1 ∨ 0 ≤ r < Tape.size tp.
Proof.
  revert depth pos. induction fuel as [|fuel IH]; intros depth pos; [done|].
  rewrite findLoop_unfold. cbv zeta.
  case_bool_decide; [intros [= <-]; by left|].
  case_bool_decide; [intros [= <-]; right; lia|]. apply IH.
Qed.

Lemma findMatchingBracket_on_tape s start direction :
  BFF._findMatchingBracket s start direction = -1 ∨
  0 ≤ BFF._findMatchingBracket s start direction < Tape.size (BFF.tape s).
Proof.
  unfold BFF._findMatchingBracket.
  destruct (BFF.findLoop _ _ _ _ _) as [r|] eqn:E; simpl; [|by left].
  by apply findLoop_on_tape in E.
Qed.



(** * Further properties of the code *)

(** ** The interpreter beyond the claims *)

(** X1: [hasInstructions] and the interpreter's opcode table agree:
    [hasInstructions(tape)] is true exactly when some cell of the tape
    decodes to an instruction with [byteToInstruction]. *)
Theorem X1_hasInstructions_decodes (tp : Tape.t) :
  Population.hasInstructions tp = true ↔
  ∃ i, 0 ≤ i < Tape.size tp ∧
       BFF.byteToInstruction (Tape.get tp i) ≠ None.
Proof.
  unfold Population.hasInstructions, Tape.toArray. split.
  - intros H. apply existsb_exists in H as (x & Hin & Hx).
    apply bool_decide_eq_true in Hx. apply instructionSet_spec in Hx as [c ->].
    apply list_elem_of_In, list_elem_of_lookup in Hin as [n Hn].
    assert (0 ≤ Z.of_nat n < Tape.size tp) as Hon
      by (apply lookup_lt_Some in Hn; unfold Tape.size, U8.length; lia).
    exists (Z.of_nat n). split; [done|].
    rewrite Tape_get_on_tape, (U8_get_lookup _ _ _ Hn) by done.
    by rewrite (proj2 (byteToInstruction_Some _ c) eq_refl).
  - intros (i & Hi & Hdec).
    destruct (BFF.byteToInstruction (Tape.get tp i)) as [c|] eqn:E; [|done].
    apply byteToInstruction_Some in E.
    apply existsb_exists. exists (Tape.get tp i). split.
    + destruct (lookup_lt_is_Some_2 tp (Z.to_nat i)) as [x Hx].
      { unfold Tape.size, U8.length in Hi. lia. }
      assert (Tape.get tp i = x) as ->.
      { rewrite Tape_get_on_tape by done. rewrite <- (Z2Nat.id i) by lia.
        by apply U8_get_lookup. }
      apply list_elem_of_In, list_elem_of_lookup. eauto.
    + apply bool_decide_eq_true. apply instructionSet_spec. eauto.
Qed.

(** Once halted, further calls of [step] change nothing. *)
Lemma iter_halted_stable s n :
  BFF.halted s = true → Nat.iter n BFF.step s = s.
Proof.
  intros H. induction n as [|n IH]; [done|]. simpl. rewrite IH.
  by apply step_halted_id.
Qed.

(** [run] returns the first halted state of the iteration of [step]. *)
Lemma run_new_first_halted tp k :
  BFF.halted (Nat.iter k BFF.step (BFF.new tp)) = true →
  BFF.run (BFF.new tp) = Nat.iter k BFF.step (BFF.new tp) ∨
  ∃ n, (n < k)%nat ∧ BFF.halted (Nat.iter n BFF.step (BFF.new tp)) = true.
Proof.
  intros Hk. destruct (run_new_iter tp) as (n & _ & _ & Hrun & Hn).
  destruct (decide (n < k)%nat) as [Hlt|Hge]; [right; eauto|].
  left. rewrite Hrun. replace n with ((n - k) + k)%nat by lia.
  rewrite Nat.iter_add. by apply iter_halted_stable.
Qed.

(** On a tape without opcodes the interpreter walks one cell per step. *)
Lemma noop_iter tp k :
  (∀ i, 0 ≤ i < Tape.size tp →
        BFF.byteToInstruction (Tape.get tp i) = None) →
  Z.of_nat k < Tape.size tp → Z.of_nat k ≤ BFF.MAX_STEPS →
  Nat.iter k BFF.step (BFF.new tp) =
  BFF.mkInterpreter tp (Z.of_nat k) 0 0 (Z.of_nat k) 0 0 false None.
Proof.
  intros Hno. induction k as [|k IH]; intros Hk Hmax; [done|].
  rewrite Nat.iter_succ, IH by lia. unfold BFF.step. cbn [BFF.halted].
  cbn [BFF.stepCount BFF.tape BFF.ip].
  rewrite bool_decide_eq_false_2 by lia. rewrite Hno by lia.
  unfold BFF.advanceIP, BFF.with_stepCount, BFF.with_ip. cbn.
  rewrite bool_decide_eq_false_2 by lia.
  f_equal; lia.
Qed.

(** X2: on a non-empty tape without opcodes that is no longer than the step
    cap, [run] walks to the end of the tape: it halts with [end_of_tape]
    after exactly one step per cell, with the IP at the length of the tape,
    both heads at 0, no write, no loop jump, and the tape unchanged.  So the
    early abort of [runPair] skips an execution that changes nothing. *)
Theorem X2_noop_walk (tp : Tape.t) :
  (∀ i, 0 ≤ i < Tape.size tp →
        BFF.byteToInstruction (Tape.get tp i) = None) →
  0 < Tape.size tp ≤ BFF.MAX_STEPS →
  BFF.run (BFF.new tp) =
  BFF.mkInterpreter tp (Tape.size tp) 0 0 (Tape.size tp) 0 0 true
    (Some BFF.end_of_tape).
Proof.
  intros Hno Hsz.
  set (L := Z.to_nat (Tape.size tp)).
  assert (Nat.iter L BFF.step (BFF.new tp) =
          BFF.mkInterpreter tp (Tape.size tp) 0 0 (Tape.size tp) 0 0 true
            (Some BFF.end_of_tape)) as HL.
  { replace L with (S (L - 1)) by lia. rewrite Nat.iter_succ.
    rewrite (noop_iter tp (L - 1) Hno) by lia.
    unfold BFF.step. cbn [BFF.halted BFF.stepCount BFF.tape BFF.ip].
    rewrite bool_decide_eq_false_2 by lia. rewrite Hno by lia.
    unfold BFF.advanceIP, BFF.with_stepCount, BFF.with_ip, BFF.halt. cbn.
    rewrite bool_decide_eq_true_2 by lia.
    f_equal; lia. }
  destruct (run_new_first_halted tp L) as [->|(n & Hn & Hh)].
  - by rewrite HL.
  - done.
  - rewrite (noop_iter tp n Hno) in Hh by lia. done.
Qed.

(** X2 on the tape [1; 7; 9; 9]. *)
Lemma X2_noop_walk_witness :
  BFF.run (BFF.new [1; 7; 9; 9]) =
  BFF.mkInterpreter [1; 7; 9; 9] 4 0 0 4 0 0 true (Some BFF.end_of_tape).
Proof.
  apply (X2_noop_walk [1; 7; 9; 9]).
  - intros i Hi. change (Tape.size [1; 7; 9; 9]) with 4 in Hi.
    assert (i = 0 ∨ i = 1 ∨ i = 2 ∨ i = 3) as Hc by lia.
    destruct Hc as [ -> | [ -> | [ -> | -> ] ] ]; vm_compute; reflexivity.
  - vm_compute. split; [reflexivity|discriminate].
Defined.

(** X3: the counters of the interpreter are consistent in every state
    reached from a fresh interpreter: they are non-negative, every write and
    every backward loop jump is a counted step, and the step count never
    exceeds [MAX_STEPS]. *)
Theorem X3_counters_consistent (tp : Tape.t) (n : nat) :
  0 ≤ BFF.writeCount (Nat.iter n BFF.step (BFF.new tp)) ∧
  0 ≤ BFF.loopJumps (Nat.iter n BFF.step (BFF.new tp)) ∧
  BFF.writeCount (Nat.iter n BFF.step (BFF.new tp))
  + BFF.loopJumps (Nat.iter n BFF.step (BFF.new tp))
    ≤ BFF.stepCount (Nat.iter n BFF.step (BFF.new tp)) ∧
  BFF.stepCount (Nat.iter n BFF.step (BFF.new tp)) ≤ BFF.MAX_STEPS.
Proof.
  apply (iter_step_inv
    (λ s, 0 ≤ BFF.writeCount s ∧ 0 ≤ BFF.loopJumps s ∧
          BFF.writeCount s + BFF.loopJumps s ≤ BFF.stepCount s ∧
          BFF.stepCount s ≤ BFF.MAX_STEPS)).
  - intros s (Hw & Hl & Hsum & Hmax). step_cases s; lia.
  - simpl. unfold BFF.MAX_STEPS. lia.
Qed.

(** X4: the interpreter never changes the length of its tape and keeps
    every cell a byte, after any number of steps and at the end of [run]. *)
Theorem X4_tape_shape (tp : Tape.t) (n : nat) :
  Tape.size (BFF.tape (Nat.iter n BFF.step (BFF.new tp))) = Tape.size tp ∧
  Tape.size (BFF.tape (BFF.run (BFF.new tp))) = Tape.size tp ∧
  (bytes tp →
   bytes (BFF.tape (Nat.iter n BFF.step (BFF.new tp))) ∧
   bytes (BFF.tape (BFF.run (BFF.new tp)))).
Proof.
  split; [|split].
  - apply (iter_step_inv (λ s, Tape.size (BFF.tape s) = Tape.size tp));
      [|done]. intros s Hs. by rewrite step_tape_size.
  - apply (run_inv (λ s, Tape.size (BFF.tape s) = Tape.size tp)); [|done].
    intros s Hs. by rewrite step_tape_size.
  - intros Hb. split.
    + apply (iter_step_inv (λ s, bytes (BFF.tape s))); [|done].
      apply step_bytes.
    + by apply run_bytes.
Qed.

(** X4 on the tape [+; -; 0; 0]. *)
Lemma X4_tape_shape_witness :
  Tape.size (BFF.tape (Nat.iter 2 BFF.step (BFF.new [0x2B; 0x2D; 0; 0])))
    = Tape.size [0x2B; 0x2D; 0; 0] ∧
  Tape.size (BFF.tape (BFF.run (BFF.new [0x2B; 0x2D; 0; 0])))
    = Tape.size [0x2B; 0x2D; 0; 0] ∧
  bytes (BFF.tape (Nat.iter 2 BFF.step (BFF.new [0x2B; 0x2D; 0; 0]))) ∧
  bytes (BFF.tape (BFF.run (BFF.new [0x2B; 0x2D; 0; 0]))).
Proof.
  destruct (X4_tape_shape [0x2B; 0x2D; 0; 0] 2) as (H1 & H2 & H3).
  split; [exact H1|]. split; [exact H2|]. apply H3.
  unfold bytes. repeat (constructor; [lia|]). constructor.
Defined.

Lemma step_stateConsistent s : stateConsistent s → stateConsistent (BFF.step s).
Proof.
  unfold stateConsistent. intros [Hcnt Hst].
  unfold BFF.step, BFF.MAX_STEPS in *.
  destruct (BFF.halted s) eqn:Hh; [rewrite Hh; by split|].
  destruct (BFF.haltReason s) eqn:Hr; [done|].
  case_bool_decide as Hcap; [simpl; split; [lia|lia]|].
  destruct (BFF.byteToInstruction _) as [c|] eqn:Hbyte.
  - set (s1 := BFF.with_stepCount s (BFF.stepCount s + 1)).
    pose proof (findMatchingBracket_on_tape s1 (BFF.ip s1) 1) as Hf.
    pose proof (findMatchingBracket_on_tape s1 (BFF.ip s1) (-1)) as Hb.
    change (BFF.tape s1) with (BFF.tape s) in Hf, Hb.
    change (BFF.ip s1) with (BFF.ip s) in Hf, Hb.
    apply byteToInstruction_Some in Hbyte.
    destruct c; cbn [BFF.dispatch];
      change (BFF.tape s1) with (BFF.tape s);
      change (BFF.ip s1) with (BFF.ip s);
      change (BFF.head0 s1) with (BFF.head0 s);
      revert Hf Hb;
      generalize (BFF._findMatchingBracket s1 (BFF.ip s) 1);
      generalize (BFF._findMatchingBracket s1 (BFF.ip s) (-1));
      intros tb tf Hf Hb; subst s1;
      unfold BFF.advanceIP;
      repeat (case_bool_decide; cbn); rewrite ?Hh, ?Hr; cbn;
      repeat (case_bool_decide; cbn); rewrite ?Hh, ?Hr; cbn;
      rewrite ?Tape_size_set, ?Tape_size_increment, ?Tape_size_decrement in *;
      try (split; [lia|]); try lia; try (split; [lia|auto]);
      try (cbn in *;
           rewrite ?Tape_size_set, ?Tape_size_increment,
             ?Tape_size_decrement in *; lia).
  - unfold BFF.advanceIP. cbn. case_bool_decide; cbn; rewrite ?Hh, ?Hr;
      split; lia.
Qed.

(** X5: what the final state of [run] on a non-empty tape tells: it is
    halted; [end_of_tape] means the IP is exactly the length of the tape;
    [max_steps] means exactly [MAX_STEPS] steps were counted and the IP is
    still on the tape; [unmatched_bracket] means the IP is on the tape and
    rests on the bracket whose match was not found.  Before the halt the
    halt reason is unset and the IP is on the tape. *)
Theorem X5_halt_state (tp : Tape.t) (n : nat) :
  0 < Tape.size tp →
  BFF.halted (BFF.run (BFF.new tp)) = true ∧
  (BFF.haltReason (BFF.run (BFF.new tp)) = Some BFF.end_of_tape →
   BFF.ip (BFF.run (BFF.new tp)) = Tape.size tp) ∧
  (BFF.haltReason (BFF.run (BFF.new tp)) = Some BFF.max_steps →
   BFF.stepCount (BFF.run (BFF.new tp)) = BFF.MAX_STEPS ∧
   0 ≤ BFF.ip (BFF.run (BFF.new tp)) < Tape.size tp) ∧
  (BFF.haltReason (BFF.run (BFF.new tp)) = Some BFF.unmatched_bracket →
   0 ≤ BFF.ip (BFF.run (BFF.new tp)) < Tape.size tp ∧
   (Tape.get (BFF.tape (BFF.run (BFF.new tp))) (BFF.ip (BFF.run (BFF.new tp)))
      = BFF.BFF_INSTRUCTIONS BFF.LOOP_OPEN ∨
    Tape.get (BFF.tape (BFF.run (BFF.new tp))) (BFF.ip (BFF.run (BFF.new tp)))
      = BFF.BFF_INSTRUCTIONS BFF.LOOP_CLOSE)) ∧
  (BFF.halted (Nat.iter n BFF.step (BFF.new tp)) = false →
   BFF.haltReason (Nat.iter n BFF.step (BFF.new tp)) = None ∧
   0 ≤ BFF.ip (Nat.iter n BFF.step (BFF.new tp)) < Tape.size tp).
Proof.
  intros Hsz.
  assert (stateConsistent (BFF.new tp)) as H0.
  { split; simpl; [unfold BFF.MAX_STEPS|]; lia. }
  assert (∀ s, stateConsistent s ∧ Tape.size (BFF.tape s) = Tape.size tp →
               stateConsistent (BFF.step s) ∧
               Tape.size (BFF.tape (BFF.step s)) = Tape.size tp) as Hstep.
  { intros s [Hs Ht]. split; [by apply step_stateConsistent|].
    by rewrite step_tape_size. }
  destruct (run_new_iter tp) as (k & _ & _ & Hrun & Hh).
  assert (stateConsistent (BFF.run (BFF.new tp)) ∧
          Tape.size (BFF.tape (BFF.run (BFF.new tp))) = Tape.size tp)
    as [[_ Hfin] Hlen].
  { apply (run_inv (λ s, stateConsistent s ∧
                         Tape.size (BFF.tape s) = Tape.size tp)); auto. }
  assert (stateConsistent (Nat.iter n BFF.step (BFF.new tp)) ∧
          Tape.size (BFF.tape (Nat.iter n BFF.step (BFF.new tp)))
            = Tape.size tp) as [[_ Hit] Hlen'].
  { apply (iter_step_inv (λ s, stateConsistent s ∧
                               Tape.size (BFF.tape s) = Tape.size tp)); auto. }
  rewrite <- Hrun in Hh. rewrite Hh in Hfin. rewrite Hlen in Hfin.
  rewrite Hlen' in Hit.
  split; [done|].
  split; [intros Hr; by rewrite Hr in Hfin|].
  split; [intros Hr; rewrite Hr in Hfin; exact Hfin|].
  split; [intros Hr; rewrite Hr in Hfin; exact Hfin|].
  intros Hr. rewrite Hr in Hit.
  revert Hit.
  destruct (BFF.haltReason (Nat.iter n BFF.step (BFF.new tp))); [tauto|].
  intros Hit. split; [reflexivity|exact Hit].
Qed.

(** X5 on the tape []; 0; 0; 0], which halts at once on its unmatched
    bracket. *)
Lemma X5_halt_state_witness :
  BFF.haltReason (BFF.run (BFF.new [0x5D; 0; 0; 0]))
    = Some BFF.unmatched_bracket ∧
  0 ≤ BFF.ip (BFF.run (BFF.new [0x5D; 0; 0; 0])) < Tape.size [0x5D; 0; 0; 0] ∧
  (Tape.get (BFF.tape (BFF.run (BFF.new [0x5D; 0; 0; 0])))
     (BFF.ip (BFF.run (BFF.new [0x5D; 0; 0; 0])))
     = BFF.BFF_INSTRUCTIONS BFF.LOOP_OPEN ∨
   Tape.get (BFF.tape (BFF.run (BFF.new [0x5D; 0; 0; 0])))
     (BFF.ip (BFF.run (BFF.new [0x5D; 0; 0; 0])))
     = BFF.BFF_INSTRUCTIONS BFF.LOOP_CLOSE).
Proof.
  assert (BFF.haltReason (BFF.run (BFF.new [0x5D; 0; 0; 0]))
          = Some BFF.unmatched_bracket) as Hr by (vm_compute; reflexivity).
  split; [exact Hr|].
  destruct (X5_halt_state [0x5D; 0; 0; 0] 0) as (_ & _ & _ & Hu & _).
  - vm_compute. reflexivity.
  - exact (Hu Hr).
Defined.

(** ** Symmetry of bracket matching *)

Lemma bracketDelta_bounds direction byte :
  -1 ≤ bracketDelta direction byte ≤ 1.
Proof. unfold bracketDelta. repeat case_bool_decide; lia. Qed.

Lemma bracketDelta_opp direction byte :
  direction = 1 ∨ direction = -1 →
  bracketDelta (- direction) byte = - bracketDelta direction byte.
Proof.
  intros [->| ->]; unfold bracketDelta; repeat case_bool_decide; lia.
Qed.

Lemma bracketDelta_opener direction :
  direction = 1 ∨ direction = -1 →
  bracketDelta direction (closingBracket (- direction)) = 1.
Proof. intros [->| ->]; vm_compute; reflexivity. Qed.

(** While the scan is open its depth is positive. *)
Lemma scanDepth_pos tp direction start n k :
  scanOpen tp direction start n → (k < n)%nat →
  1 ≤ scanDepth tp direction start k.
Proof.
  intros Hopen. induction k as [|k IH]; intros Hk; [simpl; lia|].
  specialize (IH ltac:(lia)). destruct (Hopen (S k)) as [_ Hnz]; [lia|].
  revert Hnz. cbn [scanDepth].
  pose proof (bracketDelta_bounds direction
    (Tape.get tp (start + direction * Z.of_nat (S k)))). lia.
Qed.

Lemma matchedAt_unique tp direction start n n' :
  matchedAt tp direction start n → matchedAt tp direction start n' → n = n'.
Proof.
  intros (Hn & Hin & Hz & Hopen) (Hn' & Hin' & Hz' & Hopen').
  destruct (decide (n < n')%nat) as [Hlt|Hge].
  - destruct (Hopen' n) as [_ H]; [lia|]. done.
  - destruct (decide (n' < n)%nat) as [Hlt'|Hge']; [|lia].
    destruct (Hopen n') as [_ H]; [lia|]. done.
Qed.

(** The scan back from a match retraces the depths of the scan that found
    it. *)
Lemma scanDepth_mirror tp direction p n m :
  direction = 1 ∨ direction = -1 →
  matchedAt tp direction p n → (m < n)%nat →
  scanDepth tp (- direction) (p + direction * Z.of_nat n) m =
  scanDepth tp direction p (n - 1 - m).
Proof.
  intros Hdir Hmatch. pose proof Hmatch as (Hn & Hin & Hz & Hopen).
  induction m as [|m IH]; intros Hm.
  - cbn [scanDepth]. rewrite Nat.sub_0_r.
    pose proof (scanDepth_pos tp direction p n (n - 1) Hopen ltac:(lia)).
    revert Hz. replace n with (S (n - 1)) at 1 by lia. cbn [scanDepth].
    pose proof (bracketDelta_bounds direction
      (Tape.get tp (p + direction * Z.of_nat (S (n - 1))))). lia.
  - cbn [scanDepth]. rewrite IH by lia.
    replace (n - 1 - m)%nat with (S (n - 1 - S m)) by lia.
    cbn [scanDepth]. rewrite bracketDelta_opp by done.
    replace (p + direction * Z.of_nat n + - direction * Z.of_nat (S m))
      with (p + direction * Z.of_nat (S (n - 1 - S m)))
      by (destruct Hdir as [->| ->]; lia).
    lia.
Qed.

(** A bracket and its match see each other: the match found from an opening
    position is itself matched, scanning back, at that position. *)
Lemma matchedAt_mirror tp direction p n :
  direction = 1 ∨ direction = -1 →
  0 ≤ p < Tape.size tp →
  Tape.get tp p = closingBracket (- direction) →
  matchedAt tp direction p n →
  matchedAt tp (- direction) (p + direction * Z.of_nat n) n.
Proof.
  intros Hdir Hp Hopener Hmatch.
  pose proof Hmatch as (Hn & Hin & Hz & Hopen).
  split; [done|]. split; [|split].
  - destruct Hdir as [->| ->]; lia.
  - replace n with (S (n - 1)) at 2 by lia. cbn [scanDepth].
    rewrite (scanDepth_mirror tp direction p n (n - 1)) by (done || lia).
    replace (n - 1 - (n - 1))%nat with 0%nat by lia. cbn [scanDepth].
    replace (p + direction * Z.of_nat n + - direction * Z.of_nat (S (n - 1)))
      with p by (destruct Hdir as [->| ->]; lia).
    rewrite Hopener, bracketDelta_opp by done.
    rewrite bracketDelta_opener by done. lia.
  - intros m Hm. split.
    + destruct (Hopen (n - m)%nat) as [Hr _]; [lia|].
      destruct Hdir as [->| ->]; lia.
    + rewrite scanDepth_mirror by (done || lia).
      pose proof (scanDepth_pos tp direction p n (n - 1 - m) Hopen
                    ltac:(lia)). lia.
Qed.

(** X6: bracket matching is symmetric.  If the scan from a [[] at [p] finds
    its match at [q], the backward scan from [q] finds [p]; and if the
    backward scan from a []] at [p] finds its match at [q], the forward scan
    from [q] finds [p].  So a taken []] returns to the [[] whose taken jump
    leads to it. *)
Theorem X6_bracket_symmetry (s : BFF.Interpreter) (p q : Z) :
  0 ≤ p < Tape.size (BFF.tape s) → q ≠ -1 →
  (Tape.get (BFF.tape s) p = BFF.BFF_INSTRUCTIONS BFF.LOOP_OPEN →
   BFF._findMatchingBracket s p 1 = q →
   BFF._findMatchingBracket s q (-1) = p) ∧
  (Tape.get (BFF.tape s) p = BFF.BFF_INSTRUCTIONS BFF.LOOP_CLOSE →
   BFF._findMatchingBracket s p (-1) = q →
   BFF._findMatchingBracket s q 1 = p).
Proof.
  intros Hp Hq.
  assert (∀ direction,
    direction = 1 ∨ direction = -1 →
    Tape.get (BFF.tape s) p = closingBracket (- direction) →
    BFF._findMatchingBracket s p direction = q →
    BFF._findMatchingBracket s q (- direction) = p) as Hgen.
  { intros direction Hdir Hopener Hfind.
    destruct (findMatchingBracket_spec s p direction Hdir Hp)
      as [[Hres _]|(n & Hres & Hmatch & _)]; [congruence|].
    pose proof (matchedAt_mirror _ _ _ _ Hdir Hp Hopener Hmatch) as Hback.
    assert (q = p + direction * Z.of_nat n) as -> by congruence.
    destruct (findMatchingBracket_spec s (p + direction * Z.of_nat n)
                (- direction))
      as [[_ [n' Hleave]]|(n' & Hres' & Hmatch' & _)].
    - destruct Hdir as [->| ->]; auto.
    - destruct Hmatch as (_ & Hin & _). lia.
    - by destruct (leaves_not_matched _ _ _ _ n Hleave).
    - rewrite Hres'.
      rewrite (matchedAt_unique _ _ _ _ _ Hmatch' Hback).
      destruct Hdir as [->| ->]; lia. }
  split.
  - intros Hopen Hfind. apply (Hgen 1); auto.
  - intros Hclose Hfind. apply (Hgen (-1)); auto.
Qed.

(** X6 on the tape [[; [; ]; ]; 0; 0]: the outer [[] at 0 and the []] at 3
    match each other. *)
Lemma X6_bracket_symmetry_witness :
  BFF._findMatchingBracket (BFF.new [0x5B; 0x5B; 0x5D; 0x5D; 0; 0]) 3 (-1) = 0 ∧
  BFF._findMatchingBracket (BFF.new [0x5B; 0x5B; 0x5D; 0x5D; 0; 0]) 0 1 = 3.
Proof.
  assert (BFF._findMatchingBracket
            (BFF.new [0x5B; 0x5B; 0x5D; 0x5D; 0; 0]) 0 1 = 3) as Hf
    by (vm_compute; reflexivity).
  split; [|exact Hf].
  apply (proj1 (X6_bracket_symmetry
                  (BFF.new [0x5B; 0x5B; 0x5D; 0x5D; 0; 0]) 0 3
                  ltac:(vm_compute; split; [discriminate|reflexivity])
                  ltac:(discriminate))).
  - vm_compute. reflexivity.
  - exact Hf.
Defined.

(** ** worker.js beyond the claims *)

Lemma testbit_u8 v n :
  0 ≤ n → Z.testbit (U8.u8 v) n = if bool_decide (n < 8) then Z.testbit v n else false.
Proof.
  intros Hn. unfold U8.u8. change 256 with (2 ^ 8). case_bool_decide.
  - apply Z.mod_pow2_bits_low. lia.
  - apply Z.mod_pow2_bits_high. lia.
Qed.

(** Four bytes, least significant first, make the low 32 bits. *)
Lemma le_bytes_value v :
  Z.lor (U8.u8 v)
    (Z.lor (Z.shiftl (U8.u8 (Z.shiftr v 8)) 8)
       (Z.lor (Z.shiftl (U8.u8 (Z.shiftr v 16)) 16)
          (Z.shiftl (U8.u8 (Z.shiftr v 24)) 24)))
  = v `mod` 2 ^ 32.
Proof.
  apply Z.bits_inj'. intros n Hn.
  rewrite !Z.lor_spec, !Z.shiftl_spec by lia.
  destruct (decide (n < 32)) as [Hlt|Hge].
  - rewrite Z.mod_pow2_bits_low by lia.
    destruct (decide (n < 8)); [|destruct (decide (n < 16));
      [|destruct (decide (n < 24))]].
    + rewrite testbit_u8 by lia. rewrite bool_decide_eq_true_2 by lia.
      rewrite !(Z.testbit_neg_r _ (n - _)) by lia. by rewrite !orb_false_r.
    + rewrite (testbit_u8 v) by lia. rewrite bool_decide_eq_false_2 by lia.
      rewrite (testbit_u8 (Z.shiftr v 8)) by lia.
      rewrite bool_decide_eq_true_2 by lia.
      rewrite !(Z.testbit_neg_r _ (n - 16)), !(Z.testbit_neg_r _ (n - 24))
        by lia.
      rewrite Z.shiftr_spec by lia. simpl. rewrite !orb_false_r.
      f_equal. lia.
    + rewrite (testbit_u8 v) by lia. rewrite bool_decide_eq_false_2 by lia.
      rewrite (testbit_u8 (Z.shiftr v 8)) by lia.
      rewrite bool_decide_eq_false_2 by lia.
      rewrite (testbit_u8 (Z.shiftr v 16)) by lia.
      rewrite bool_decide_eq_true_2 by lia.
      rewrite !(Z.testbit_neg_r _ (n - 24)) by lia.
      rewrite Z.shiftr_spec by lia. simpl. rewrite !orb_false_r.
      f_equal. lia.
    + rewrite (testbit_u8 v) by lia. rewrite bool_decide_eq_false_2 by lia.
      rewrite (testbit_u8 (Z.shiftr v 8)) by lia.
      rewrite bool_decide_eq_false_2 by lia.
      rewrite (testbit_u8 (Z.shiftr v 16)) by lia.
      rewrite bool_decide_eq_false_2 by lia.
      rewrite (testbit_u8 (Z.shiftr v 24)) by lia.
      rewrite bool_decide_eq_true_2 by lia.
      rewrite Z.shiftr_spec by lia. simpl. f_equal. lia.
  - rewrite Z.mod_pow2_bits_high by lia.
    rewrite !testbit_u8 by lia. rewrite !bool_decide_eq_false_2 by lia. done.
Qed.

(** [setUint32] writes four cells and nothing else. *)
Lemma setUint32_cells buf off v :
  0 ≤ off → off + 4 ≤ U8.length buf →
  U8.length (Worker.setUint32 buf off v) = U8.length buf ∧
  U8.get (Worker.setUint32 buf off v) off = U8.u8 v ∧
  U8.get (Worker.setUint32 buf off v) (off + 1) = U8.u8 (Z.shiftr v 8) ∧
  U8.get (Worker.setUint32 buf off v) (off + 2) = U8.u8 (Z.shiftr v 16) ∧
  U8.get (Worker.setUint32 buf off v) (off + 3) = U8.u8 (Z.shiftr v 24) ∧
  ∀ j, ¬ (off ≤ j < off + 4) →
       U8.get (Worker.setUint32 buf off v) j = U8.get buf j.
Proof.
  intros H0 H1. unfold Worker.setUint32. cbv zeta.
  split; [by rewrite !U8_length_set|].
  split; [rewrite !U8_get_set_ne by lia; apply U8_get_set_eq; lia|].
  split; [rewrite !U8_get_set_ne by lia; apply U8_get_set_eq;
          rewrite ?U8_length_set; lia|].
  split; [rewrite !U8_get_set_ne by lia; apply U8_get_set_eq;
          rewrite ?U8_length_set; lia|].
  split; [apply U8_get_set_eq; rewrite ?U8_length_set; lia|].
  intros j Hj. by rewrite !U8_get_set_ne by lia.
Qed.

(** [getUint32] after [setUint32]. *)
Lemma setUint32_getUint32 (buf : list Z) (off v : Z) :
  0 ≤ off → off + 4 ≤ U8.length buf →
  Worker.getUint32 (Worker.setUint32 buf off v) off = v `mod` 2 ^ 32 ∧
  (0 ≤ v < 2 ^ 32 → Worker.getUint32 (Worker.setUint32 buf off v) off = v) ∧
  U8.length (Worker.setUint32 buf off v) = U8.length buf ∧
  (∀ off', off' + 4 ≤ off ∨ off + 4 ≤ off' →
     Worker.getUint32 (Worker.setUint32 buf off v) off'
     = Worker.getUint32 buf off').
Proof.
  intros H0 H1.
  destruct (setUint32_cells buf off v H0 H1)
    as (Hlen & E0 & E1 & E2 & E3 & Hframe).
  assert (Worker.getUint32 (Worker.setUint32 buf off v) off = v `mod` 2 ^ 32)
    as Hrt.
  { unfold Worker.getUint32. rewrite E0, E1, E2, E3. apply le_bytes_value. }
  split; [exact Hrt|]. split; [|split; [exact Hlen|]].
  - intros Hv. rewrite Hrt. by apply Z.mod_small.
  - intros off' Hoff. unfold Worker.getUint32.
    rewrite !Hframe by lia. done.
Qed.

(** X7: the little-endian 32-bit codec of the worker round-trips: inside
    the buffer, [getUint32] after [setUint32] at the same offset returns the
    value modulo 2^32 (the value itself when it is an unsigned 32-bit
    integer), the length of the buffer is kept, and a read at an offset
    whose four bytes lie outside the written ones is unchanged. *)
Theorem X7_uint32_roundtrip (buf : list Z) (off v : Z) :
  0 ≤ off → off + 4 ≤ U8.length buf →
  Worker.getUint32 (Worker.setUint32 buf off v) off = v `mod` 2 ^ 32 ∧
  (0 ≤ v < 2 ^ 32 → Worker.getUint32 (Worker.setUint32 buf off v) off = v) ∧
  U8.length (Worker.setUint32 buf off v) = U8.length buf ∧
  (∀ off', off' + 4 ≤ off ∨ off + 4 ≤ off' →
     Worker.getUint32 (Worker.setUint32 buf off v) off'
     = Worker.getUint32 buf off').
Proof. apply setUint32_getUint32. Qed.

(** X7 on an 8-byte buffer: 0x01020304 written at offset 4 and read back. *)
Lemma X7_uint32_roundtrip_witness :
  Worker.getUint32 (Worker.setUint32 (U8.make 8) 4 0x01020304) 4
  = 0x01020304.
Proof.
  apply (X7_uint32_roundtrip (U8.make 8) 4 0x01020304);
    vm_compute; (reflexivity || (split; [discriminate|reflexivity])
                 || discriminate).
Defined.

(** X8: the packing of the pairs for [execute_batch] is an 8-byte record
    per pair that decodes to the pair: the buffer has [8 * pairs.length]
    bytes, and for the pair at index [i] the little-endian word at [8 i] is
    [a] and the word at [8 i + 4] is [b], each modulo 2^32. *)
Theorem X8_packPairs_layout (pairs : list Pair) (i : nat) (pair : Pair) :
  pairs !! i = Some pair →
  U8.length (Worker.packPairs pairs) = 8 * Z.of_nat (length pairs) ∧
  Worker.getUint32 (Worker.packPairs pairs) (Z.of_nat i * 8)
    = a pair `mod` 2 ^ 32 ∧
  Worker.getUint32 (Worker.packPairs pairs) (Z.of_nat i * 8 + 4)
    = b pair `mod` 2 ^ 32.
Proof.
  intros Hi. unfold Worker.packPairs. cbv zeta.
  set (n := Z.of_nat (length pairs)).
  set (body := λ (k : Z) (buf : list Z),
         Worker.setUint32
           (Worker.setUint32 buf (k * 8)
              (a (default (mkPair 0 0) (pairs !! Z.to_nat k))))
           (k * 8 + 4) (b (default (mkPair 0 0) (pairs !! Z.to_nat k)))).
  assert (Z.of_nat i < n) as Hin
    by (apply lookup_lt_Some in Hi; unfold n; lia).
  cut (U8.length (JS.for_range n body (U8.make (n * 8))) = n * 8 ∧
       ∀ k pr, Z.of_nat k < Z.max 0 n → pairs !! k = Some pr →
         Worker.getUint32 (JS.for_range n body (U8.make (n * 8)))
           (Z.of_nat k * 8) = a pr `mod` 2 ^ 32 ∧
         Worker.getUint32 (JS.for_range n body (U8.make (n * 8)))
           (Z.of_nat k * 8 + 4) = b pr `mod` 2 ^ 32).
  { intros [Hlen Hall]. split; [lia|]. apply Hall; [lia|done]. }
  apply (for_range_ind (λ m buf,
    U8.length buf = n * 8 ∧
    ∀ k pr, Z.of_nat k < m → pairs !! k = Some pr →
      Worker.getUint32 buf (Z.of_nat k * 8) = a pr `mod` 2 ^ 32 ∧
      Worker.getUint32 buf (Z.of_nat k * 8 + 4) = b pr `mod` 2 ^ 32)).
  - split; [rewrite U8_length_make; lia|]. intros; lia.
  - intros m buf Hm [Hlen Hdone]. unfold body.
    set (pm := default (mkPair 0 0) (pairs !! Z.to_nat m)).
    destruct (setUint32_getUint32 buf (m * 8) (a pm))
      as (Ra & _ & La & Fa); [lia|lia|].
    destruct (setUint32_getUint32 (Worker.setUint32 buf (m * 8) (a pm))
                (m * 8 + 4) (b pm)) as (Rb & _ & Lb & Fb); [lia|lia|].
    split; [lia|]. intros k pr Hk Hpr.
    destruct (decide (Z.of_nat k = m)) as [<-|Hne].
    + assert (pm = pr) as -> by (unfold pm; by rewrite Nat2Z.id, Hpr).
      split; [|exact Rb]. rewrite Fb by lia. exact Ra.
    + rewrite !Fb, !Fa by lia. apply Hdone; [lia|done].
Qed.

(** X8 on two pairs: the second pair (6, 300) is read back at offset 8. *)
Lemma X8_packPairs_layout_witness :
  U8.length (Worker.packPairs [mkPair 0 2; mkPair 6 300]) = 8 * 2 ∧
  Worker.getUint32 (Worker.packPairs [mkPair 0 2; mkPair 6 300]) (1 * 8)
    = 6 `mod` 2 ^ 32 ∧
  Worker.getUint32 (Worker.packPairs [mkPair 0 2; mkPair 6 300]) (1 * 8 + 4)
    = 300 `mod` 2 ^ 32.
Proof.
  apply (X8_packPairs_layout [mkPair 0 2; mkPair 6 300] 1 (mkPair 6 300)).
  reflexivity.
Defined.




(** ** worker-pool.js beyond the claims *)

(** [slice] between two indices of the list. *)
Lemma slice_take_drop {A : Type} (l : list A) (start stop : Z) :
  0 ≤ start ≤ stop → stop ≤ Z.of_nat (length l) →
  JS.slice l start stop
  = take (Z.to_nat stop - Z.to_nat start) (drop (Z.to_nat start) l).
Proof.
  intros H0 H1. unfold JS.slice. cbv zeta.
  rewrite !bool_decide_eq_false_2 by lia.
  rewrite !Z.min_l by lia. f_equal. lia.
Qed.

Lemma ceilDiv_spec n d :
  0 < d → 0 ≤ n →
  0 ≤ WorkerPool.ceilDiv n d ∧ n ≤ WorkerPool.ceilDiv n d * d ∧
  (0 < n → 1 ≤ WorkerPool.ceilDiv n d).
Proof.
  intros Hd Hn. unfold WorkerPool.ceilDiv.
  pose proof (Z.mul_div_le (- n) d Hd).
  pose proof (Z.mul_succ_div_gt (- n) d Hd).
  repeat split; nia.
Qed.

(** The batches cut the pairs into consecutive non-empty pieces. *)
Lemma batches_spec pool (pairs : list Pair) :
  0 < WorkerPool.numWorkers pool →
  concat (WorkerPool.batches pool pairs) = pairs ∧
  Z.of_nat (length (WorkerPool.batches pool pairs))
    ≤ WorkerPool.numWorkers pool ∧
  Forall (λ batch : list Pair,
            batch ≠ [] ∧
            Z.of_nat (length batch)
              ≤ WorkerPool.ceilDiv (Z.of_nat (length pairs))
                  (WorkerPool.numWorkers pool))
    (WorkerPool.batches pool pairs).
Proof.
  intros HW. unfold WorkerPool.batches. cbv zeta.
  set (len := Z.of_nat (length pairs)).
  set (ppw := WorkerPool.ceilDiv len (WorkerPool.numWorkers pool)).
  destruct (ceilDiv_spec len (WorkerPool.numWorkers pool) HW ltac:(lia))
    as (Hp0 & Hcover & Hp1). fold ppw in Hp0, Hcover, Hp1.
  set (body := λ (i : Z) (acc : list (list Pair)),
         if bool_decide (i * ppw < len)
         then acc ++ [JS.slice pairs (i * ppw) (Z.min (i * ppw + ppw) len)]
         else acc).
  cut (concat (JS.for_range (WorkerPool.numWorkers pool) body [])
         = take (Z.to_nat (Z.max 0 (WorkerPool.numWorkers pool) * ppw)) pairs ∧
       Z.of_nat (length (JS.for_range (WorkerPool.numWorkers pool) body []))
         ≤ Z.max 0 (WorkerPool.numWorkers pool) ∧
       Forall (λ batch : list Pair,
                 batch ≠ [] ∧ Z.of_nat (length batch) ≤ ppw)
         (JS.for_range (WorkerPool.numWorkers pool) body [])).
  { intros (Hc & Hl & Hf). split; [|split; [lia|done]].
    rewrite Hc. apply take_ge. nia. }
  apply (for_range_ind (λ i acc,
    concat acc = take (Z.to_nat (i * ppw)) pairs ∧
    Z.of_nat (length acc) ≤ i ∧
    Forall (λ batch : list Pair,
              batch ≠ [] ∧ Z.of_nat (length batch) ≤ ppw) acc)).
  - simpl. split; [done|]. split; [lia|constructor].
  - intros i acc Hi (Hc & Hl & Hf). unfold body. case_bool_decide as Hlt.
    + assert (0 ≤ i * ppw) by nia.
      rewrite slice_take_drop by lia.
      split; [|split].
      * rewrite concat_app, Hc. simpl. rewrite app_nil_r.
        rewrite take_take_drop.
        destruct (decide (i * ppw + ppw ≤ len)) as [Hfit|Hover].
        -- rewrite Z.min_l by lia. f_equal. lia.
        -- rewrite Z.min_r by lia. rewrite !take_ge; [done|lia|lia].
      * rewrite length_app. cbn [length]. lia.
      * apply Forall_app. split; [done|]. constructor; [|constructor].
        split.
        -- intros E. apply (f_equal length) in E.
           rewrite length_take, length_drop in E. simpl in E. lia.
        -- rewrite length_take, length_drop. lia.
    + split; [|split; [lia|done]].
      rewrite Hc. rewrite !take_ge; [done|nia|lia].
Qed.

(** X10: [executeBatch] cuts the pairs into at most [numWorkers]
    consecutive non-empty batches of at most [ceil(pairs.length /
    numWorkers)] pairs, whose concatenation is the list of pairs: every pair
    is handed to exactly one worker, in order. *)
Theorem X10_batches_partition (pool : WorkerPool.t) (pairs : list Pair) :
  0 < WorkerPool.numWorkers pool →
  concat (WorkerPool.batches pool pairs) = pairs ∧
  Z.of_nat (length (WorkerPool.batches pool pairs))
    ≤ WorkerPool.numWorkers pool ∧
  Forall (λ batch : list Pair,
            batch ≠ [] ∧
            Z.of_nat (length batch)
              ≤ WorkerPool.ceilDiv (Z.of_nat (length pairs))
                  (WorkerPool.numWorkers pool))
    (WorkerPool.batches pool pairs).
Proof. apply batches_spec. Qed.

(** X10 on five pairs and a pool of two workers. *)
Lemma X10_batches_partition_witness :
  concat (WorkerPool.batches (WorkerPool.mkWorkerPool 2 true [])
            [mkPair 0 2; mkPair 2 4; mkPair 4 6; mkPair 0 4; mkPair 2 6])
  = [mkPair 0 2; mkPair 2 4; mkPair 4 6; mkPair 0 4; mkPair 2 6].
Proof.
  apply (X10_batches_partition (WorkerPool.mkWorkerPool 2 true [])
           [mkPair 0 2; mkPair 2 4; mkPair 4 6; mkPair 0 4; mkPair 2 6]).
  reflexivity.
Defined.

(** X11: what [executeBatch] posts.  A pool that is not ready posts
    nothing.  A ready pool with at least one worker keeps the messages
    posted before and adds one message per batch, to the workers 0, 1, ...
    in order, each carrying the given [head1Offset] and [maxSteps]; the
    pairs of the added messages, concatenated, are the pairs dispatched. *)
Theorem X11_executeBatch_posts (pool : WorkerPool.t) (pairs : list Pair)
    (head1Offset maxSteps : Z) :
  (WorkerPool.ready pool = false →
   WorkerPool.executeBatch pool pairs head1Offset maxSteps = pool) ∧
  (WorkerPool.ready pool = true → 0 < WorkerPool.numWorkers pool →
   ∃ added,
     WorkerPool.posted
       (WorkerPool.executeBatch pool pairs head1Offset maxSteps)
       = WorkerPool.posted pool ++ added ∧
     concat ((λ im : Z * WorkerPool.ExecuteMessage,
                WorkerPool.pairs im.2) <$> added) = pairs ∧
     added.*1 = seqZ 0 (Z.of_nat (length added)) ∧
     Z.of_nat (length added) ≤ WorkerPool.numWorkers pool ∧
     Forall (λ im : Z * WorkerPool.ExecuteMessage,
               WorkerPool.head1Offset im.2 = head1Offset ∧
               WorkerPool.maxSteps im.2 = maxSteps) added).
Proof.
  unfold WorkerPool.executeBatch. split.
  - intros ->. done.
  - intros -> HW. simpl. eexists. split; [done|].
    destruct (batches_spec pool pairs HW) as (Hc & Hl & _).
    revert Hc Hl. generalize (WorkerPool.batches pool pairs). intros bs Hc Hl.
    split; [|split; [|split]].
    + rewrite fmap_imap. rewrite <- Hc. f_equal.
      apply list_eq. intros i. rewrite list_lookup_imap.
      by destruct (bs !! i).
    + rewrite length_imap. rewrite fmap_imap.
      unfold seqZ. rewrite Nat2Z.id. clear.
      apply list_eq. intros i. rewrite list_lookup_imap, list_lookup_fmap.
      destruct (bs !! i) eqn:E; simpl.
      * rewrite lookup_seq_lt by (by eapply lookup_lt_Some). simpl.
        f_equal. lia.
      * rewrite lookup_seq_ge; [done|]. apply lookup_ge_None in E. lia.
    + by rewrite length_imap.
    + apply Forall_forall. intros [i m] Hin.
      apply list_elem_of_lookup in Hin as [k Hk].
      rewrite list_lookup_imap in Hk.
      destruct (bs !! k); simpl in Hk; [|done]. by injection Hk as _ <-.
Qed.

(** X11 on [idlePool] and one pair. *)
Lemma X11_executeBatch_posts_witness :
  ∃ added,
    WorkerPool.posted (WorkerPool.executeBatch idlePool [mkPair 0 2] 2 8192)
      = WorkerPool.posted idlePool ++ added ∧
    concat ((λ im : Z * WorkerPool.ExecuteMessage,
               WorkerPool.pairs im.2) <$> added) = [mkPair 0 2] ∧
    added.*1 = seqZ 0 (Z.of_nat (length added)) ∧
    Z.of_nat (length added) ≤ WorkerPool.numWorkers idlePool ∧
    Forall (λ im : Z * WorkerPool.ExecuteMessage,
              WorkerPool.head1Offset im.2 = 2 ∧
              WorkerPool.maxSteps im.2 = 8192) added.
Proof.
  apply (proj2 (X11_executeBatch_posts idlePool [mkPair 0 2] 2 8192));
    reflexivity.
Defined.

(** ** Slices of the soup *)

Lemma getSlice_ext p q start start' :
  Population.regionSize q = Population.regionSize p →
  (∀ i, 0 ≤ i < Population.regionSize p →
     U8.get (Population.soup q)
       (JS.rem (start' + i) (U8.length (Population.soup q))) =
     U8.get (Population.soup p)
       (JS.rem (start + i) (U8.length (Population.soup p)))) →
  Population.getSlice q start' = Population.getSlice p start.
Proof.
  intros HR Hget.
  destruct (getSlice_spec p start) as (Hs & _ & Hg).
  destruct (getSlice_spec q start') as (Hs' & _ & Hg').
  unfold Tape.size in *. apply U8_ext; [lia|].
  intros i Hi.
  rewrite <- !Tape_get_on_tape by (unfold Tape.size; lia).
  rewrite Hg', Hg by lia. f_equal. apply Hget. lia.
Qed.

(** X12: [setSlice] and [getSlice] are inverse on a region inside the
    soup: reading back the region just written gives the bytes of the
    array of the tape ([toArray()[i]], as [setSlice] reads them),
    a region that does not overlap it reads as before, and writing back the
    tape just read leaves a soup of bytes as it was. *)
Theorem X12_slice_roundtrip (p : Population.t) (start : Z) (tp : Tape.t) :
  0 ≤ start →
  start + Population.regionSize p ≤ U8.length (Population.soup p) →
  (∀ i, 0 ≤ i < Population.regionSize p →
     Tape.get (Population.getSlice (Population.setSlice p start tp) start) i
     = U8.u8 (U8.get (Tape.toArray tp) i)) ∧
  (∀ start', 0 ≤ start' →
     start' + Population.regionSize p ≤ U8.length (Population.soup p) →
     start' + Population.regionSize p ≤ start ∨
       start + Population.regionSize p ≤ start' →
     Population.getSlice (Population.setSlice p start tp) start'
     = Population.getSlice p start') ∧
  (bytes (Population.soup p) →
   Population.soup (Population.setSlice p start (Population.getSlice p start))
   = Population.soup p).
Proof.
  intros Hs He.
  destruct (setSlice_spec p start tp Hs He) as (Hlen & Hin & Hout).
  split; [|split].
  - intros i Hi.
    destruct (getSlice_spec (Population.setSlice p start tp) start)
      as (_ & _ & Hg).
    change (Population.regionSize (Population.setSlice p start tp))
      with (Population.regionSize p) in Hg.
    rewrite Hg by done. rewrite Hlen.
    assert (JS.rem (start + i) (U8.length (Population.soup p)) = start + i)
      as -> by (apply Z.rem_small; lia).
    rewrite Hin by done. apply u8_idem.
  - intros start' Hs' He' Hdis. apply getSlice_ext; [done|].
    intros i Hi. rewrite Hlen.
    assert (JS.rem (start' + i) (U8.length (Population.soup p)) = start' + i)
      as -> by (apply Z.rem_small; lia).
    apply Hout. lia.
  - intros Hb.
    destruct (setSlice_spec p start (Population.getSlice p start) Hs He)
      as (Hlen' & Hin' & Hout').
    destruct (getSlice_spec p start) as (_ & _ & Hg).
    apply U8_ext; [done|]. intros j Hj.
    destruct (decide (start ≤ j < start + Population.regionSize p)) as [Hj'|Hj'].
    + replace j with (start + (j - start)) by lia.
      rewrite Hin' by lia.
      rewrite <- Tape_get_on_tape
        by (destruct (getSlice_spec p start) as (-> & _); lia).
      rewrite Hg by lia.
      assert (JS.rem (start + (j - start)) (U8.length (Population.soup p))
              = start + (j - start)) as -> by (apply Z.rem_small; lia).
      by rewrite u8_idem, bytes_get_u8.
    + by apply Hout'.
Qed.

(** X12 on [smallPopulation]: region 2 receives the tape (300, 5). *)
Lemma X12_slice_roundtrip_witness :
  (∀ i, 0 ≤ i < Population.regionSize smallPopulation →
     Tape.get
       (Population.getSlice (Population.setSlice smallPopulation 2 [300; 5]) 2)
       i = U8.u8 (U8.get (Tape.toArray [300; 5]) i)) ∧
  (∀ start', 0 ≤ start' →
     start' + Population.regionSize smallPopulation
       ≤ U8.length (Population.soup smallPopulation) →
     start' + Population.regionSize smallPopulation ≤ 2 ∨
       2 + Population.regionSize smallPopulation ≤ start' →
     Population.getSlice (Population.setSlice smallPopulation 2 [300; 5])
       start'
     = Population.getSlice smallPopulation start') ∧
  (bytes (Population.soup smallPopulation) →
   Population.soup
     (Population.setSlice smallPopulation 2
        (Population.getSlice smallPopulation 2))
   = Population.soup smallPopulation).
Proof.
  apply (X12_slice_roundtrip smallPopulation 2 [300; 5]).
  - lia.
  - unfold U8.length; simpl; lia.
Defined.

(** X13: [splitTape] undoes [combineTapes] ('concat' mode) on two tapes of
    one region each: the left part is tape A and the right part is tape B. *)
Theorem X13_split_combine (p : Population.t) (tapeA tapeB : Tape.t) :
  Tape.size tapeA = Population.regionSize p →
  Tape.size tapeB = Population.regionSize p →
  bytes tapeA → bytes tapeB →
  Population.splitTape p (Population.combineTapes p tapeA tapeB)
  = (tapeA, tapeB).
Proof.
  intros HA HB HbA HbB.
  pose proof (U8_length_nonneg tapeA) as HR. unfold Tape.size in *.
  destruct (combineTapes_spec p tapeA tapeB) as (Hsc & Hbc & Hc).
  destruct (splitTape_spec p (Population.combineTapes p tapeA tapeB))
    as (H1 & H2 & Hsp).
  destruct (Population.splitTape p _) as [l r]. simpl in *.
  unfold Tape.size in *.
  f_equal; apply U8_ext; try lia; intros i Hi.
  - rewrite <- (Tape_get_on_tape l) by (unfold Tape.size; lia).
    destruct (Hsp i ltac:(lia)) as [-> _].
    rewrite <- (Tape_get_on_tape (Population.combineTapes p tapeA tapeB))
      by (unfold Tape.size; lia).
    destruct (Hc i ltac:(lia)) as [-> _].
    by rewrite u8_idem, bytes_get_u8.
  - rewrite <- (Tape_get_on_tape r) by (unfold Tape.size; lia).
    destruct (Hsp i ltac:(lia)) as [_ ->].
    rewrite <- (Tape_get_on_tape (Population.combineTapes p tapeA tapeB))
      by (unfold Tape.size; lia).
    destruct (Hc i ltac:(lia)) as [_ ->].
    by rewrite u8_idem, bytes_get_u8.
Qed.

(** X13 on two 2-byte tapes. *)
Lemma X13_split_combine_witness :
  Population.splitTape smallPopulation
    (Population.combineTapes smallPopulation [0x2B; 7] [9; 255])
  = ([0x2B; 7], [9; 255]).
Proof.
  apply (X13_split_combine smallPopulation [0x2B; 7] [9; 255]).
  - reflexivity.
  - reflexivity.
  - unfold bytes. repeat constructor; lia.
  - unfold bytes. repeat constructor; lia.
Defined.

(** ** What [runPair] and [soupStep] keep *)

(** [setSlice] keeps the length of the soup and stores bytes, wherever the
    slice starts. *)
Lemma setSlice_shape p start tp :
  U8.length (Population.soup (Population.setSlice p start tp))
    = U8.length (Population.soup p) ∧
  (bytes (Population.soup p) →
   bytes (Population.soup (Population.setSlice p start tp))).
Proof.
  unfold Population.setSlice. simpl.
  apply (for_range_inv
    (λ sp, U8.length sp = U8.length (Population.soup p) ∧
           (bytes (Population.soup p) → bytes sp))); [done|].
  intros i sp _ [Hl Hb]. split; [by rewrite U8_length_set|].
  intros H. apply bytes_set. auto.
Qed.

(** [runPair] changes the soup only. *)
Lemma runPair_fields p pair :
  (Population.runPair p pair).1
  = Population.with_soup p (Population.soup (Population.runPair p pair).1).
Proof.
  unfold Population.runPair.
  destruct (negb _); [by destruct p|]. simpl.
  case_bool_decide; [|by destruct p].
  unfold Population.writeBack. destruct (Population.splitTape p _) as [l r].
  by case_bool_decide.
Qed.

(** [runPair] keeps the length of the soup and its cells bytes. *)
Lemma runPair_shape p pair :
  U8.length (Population.soup (Population.runPair p pair).1)
    = U8.length (Population.soup p) ∧
  (bytes (Population.soup p) →
   bytes (Population.soup (Population.runPair p pair).1)).
Proof.
  unfold Population.runPair.
  destruct (negb _); [done|]. simpl.
  case_bool_decide; [|done].
  unfold Population.writeBack. destruct (Population.splitTape p _) as [l r].
  case_bool_decide.
  - destruct (setSlice_shape p (a pair) r) as [L1 B1].
    destruct (setSlice_shape (Population.setSlice p (a pair) r) (b pair) l)
      as [L2 B2].
    split; [congruence|auto].
  - destruct (setSlice_shape p (a pair) l) as [L1 B1].
    destruct (setSlice_shape (Population.setSlice p (a pair) l) (b pair) r)
      as [L2 B2].
    split; [congruence|auto].
Qed.

(** The counters of a finished run. *)
Lemma run_counters tp :
  0 ≤ BFF.writeCount (BFF.run (BFF.new tp)) ∧
  0 ≤ BFF.loopJumps (BFF.run (BFF.new tp)) ∧
  BFF.writeCount (BFF.run (BFF.new tp)) + BFF.loopJumps (BFF.run (BFF.new tp))
    ≤ BFF.stepCount (BFF.run (BFF.new tp)) ∧
  BFF.stepCount (BFF.run (BFF.new tp)) ≤ BFF.MAX_STEPS.
Proof.
  apply (run_inv
    (λ s, 0 ≤ BFF.writeCount s ∧ 0 ≤ BFF.loopJumps s ∧
          BFF.writeCount s + BFF.loopJumps s ≤ BFF.stepCount s ∧
          BFF.stepCount s ≤ BFF.MAX_STEPS)).
  - intros s (Hw & Hl & Hsum & Hmax). step_cases s; lia.
  - simpl. unfold BFF.MAX_STEPS. lia.
Qed.

Lemma run_haltReason tp :
  interpreterReason (BFF.haltReason (BFF.run (BFF.new tp))).
Proof.
  destruct (run_new_iter tp) as (n & _ & _ & -> & Hh). revert Hh.
  apply (iter_step_inv
    (λ s, BFF.halted s = true → interpreterReason (BFF.haltReason s)));
    [apply step_haltReason|]. simpl. congruence.
Qed.

Lemma runPair_result p pair :
  resultConsistent (Population.runPair p pair).2.
Proof.
  unfold Population.runPair, resultConsistent.
  destruct (negb _); simpl.
  - unfold BFF.MAX_STEPS. split; [lia|]. by left.
  - destruct (run_counters
      (Population.combineTapes p (Population.getSlice p (a pair))
         (Population.getSlice p (b pair)))) as (Hw & Hl & Hsum & Hmax).
    split; [lia|]. right. eexists _, _. split; [done|]. split; [done|].
    split; [apply run_haltReason|lia].
Qed.

(** X14: [runPair] touches the two regions of its pair only: the soup keeps
    its length, its cells stay bytes, every cell outside both regions keeps
    its value, and no other field of the population changes. *)
Theorem X14_runPair_frame (p : Population.t) (pair : Pair) :
  0 ≤ a pair →
  a pair + Population.regionSize p ≤ U8.length (Population.soup p) →
  0 ≤ b pair →
  b pair + Population.regionSize p ≤ U8.length (Population.soup p) →
  (Population.runPair p pair).1
    = Population.with_soup p (Population.soup (Population.runPair p pair).1) ∧
  mutatedWithin
    (λ j, a pair ≤ j < a pair + Population.regionSize p ∨
          b pair ≤ j < b pair + Population.regionSize p)
    (Population.soup p) (Population.soup (Population.runPair p pair).1).
Proof.
  intros Ha0 Ha1 Hb0 Hb1. split; [apply runPair_fields|].
  destruct (runPair_shape p pair) as [HL HB].
  split; [done|]. split; [done|]. intros j Hj.
  unfold Population.runPair.
  destruct (negb _); [done|]. simpl.
  case_bool_decide; [|done].
  unfold Population.writeBack. destruct (Population.splitTape p _) as [l r].
  case_bool_decide.
  - destruct (setSlice_spec p (a pair) r Ha0 Ha1) as (L1 & _ & F1).
    destruct (setSlice_spec (Population.setSlice p (a pair) r) (b pair) l)
      as (_ & _ & F2); [done|by rewrite L1|].
    change (Population.regionSize (Population.setSlice p (a pair) r))
      with (Population.regionSize p) in F2.
    rewrite F2, F1 by lia. done.
  - destruct (setSlice_spec p (a pair) l Ha0 Ha1) as (L1 & _ & F1).
    destruct (setSlice_spec (Population.setSlice p (a pair) l) (b pair) r)
      as (_ & _ & F2); [done|by rewrite L1|].
    change (Population.regionSize (Population.setSlice p (a pair) l))
      with (Population.regionSize p) in F2.
    rewrite F2, F1 by lia. done.
Qed.

(** X14 on the pair (0, 2) of [smallPopulation], which runs [+] and is
    written back. *)
Lemma X14_runPair_frame_witness :
  (Population.runPair smallPopulation (mkPair 0 2)).1
    = Population.with_soup smallPopulation
        (Population.soup (Population.runPair smallPopulation (mkPair 0 2)).1) ∧
  mutatedWithin
    (λ j, 0 ≤ j < 0 + Population.regionSize smallPopulation ∨
          2 ≤ j < 2 + Population.regionSize smallPopulation)
    (Population.soup smallPopulation)
    (Population.soup (Population.runPair smallPopulation (mkPair 0 2)).1).
Proof.
  apply (X14_runPair_frame smallPopulation (mkPair 0 2)).
  - simpl; lia.
  - unfold U8.length; simpl; lia.
  - simpl; lia.
  - unfold U8.length; simpl; lia.
Defined.

(** ** The bookkeeping of a step *)

(** Loop invariant rule for a [for] loop that draws, with the loop index. *)
Lemma for_rangeM_nat_ind {St : Type} (P : Z → St → Prop)
    (body : Z → St → Random.M St) s (m : nat) :
  P 0 s →
  (∀ i s o s1 o1, 0 ≤ i < Z.of_nat m → P i s →
     body i s o = Some (s1, o1) → P (i + 1) s1) →
  ∀ o s' o', Random.for_rangeM (Z.of_nat m) body s o = Some (s', o') →
    P (Z.of_nat m) s'.
Proof.
  intros H0 Hstep. induction m as [|m IH]; intros o s' o'.
  - unfold Random.for_rangeM. rewrite seqZ_nil by lia. simpl.
    by intros [= <- _].
  - unfold Random.for_rangeM in *. rewrite seqZ_S, foldl_app. simpl.
    unfold Random.bind at 1.
    destruct (foldl (λ acc i, Random.bind acc (body i)) (Random.ret s)
                (seqZ 0 (Z.of_nat m)) o) as [[s0 o0]|] eqn:E; [|done].
    intros Hb. replace (Z.of_nat (S m)) with (Z.of_nat m + 1) by lia.
    apply (Hstep _ s0 o0 s' o'); [lia| |done].
    apply (IH ltac:(intros; eapply Hstep; [lia|done..]) o s0 o0 E).
Qed.

Lemma for_rangeM_ind {St : Type} (P : Z → St → Prop) n
    (body : Z → St → Random.M St) s o s' o' :
  P 0 s →
  (∀ i s o s1 o1, 0 ≤ i < n → P i s →
     body i s o = Some (s1, o1) → P (i + 1) s1) →
  Random.for_rangeM n body s o = Some (s', o') →
  P (Z.max 0 n) s'.
Proof.
  intros H0 Hstep. destruct (decide (0 ≤ n)) as [Hn|Hn].
  - rewrite Z.max_r by lia. rewrite <- (Z2Nat.id n) by lia.
    apply for_rangeM_nat_ind; [done|]. intros i s0 o0 s1 o1 Hi.
    apply Hstep. lia.
  - rewrite Z.max_l by lia. unfold Random.for_rangeM.
    rewrite seqZ_nil by lia. simpl. by intros [= <- _].
Qed.

(** The loop of [soupStep] records one pair and one result per iteration
    and changes the soup only. *)
Lemma runPairs_spec p o p1 results o1 :
  Population.runPairs p o = Some ((p1, results), o1) →
  p1 = Population.with_soup
         (Population.with_currentPairs p (Population.currentPairs p1))
         (Population.soup p1) ∧
  U8.length (Population.soup p1) = U8.length (Population.soup p) ∧
  (bytes (Population.soup p) → bytes (Population.soup p1)) ∧
  Z.of_nat (length (Population.currentPairs p1))
    = Z.max 0 (Population.pairsPerStep p) ∧
  Z.of_nat (length results) = Z.max 0 (Population.pairsPerStep p) ∧
  Forall resultConsistent results.
Proof.
  unfold Population.runPairs. intros Hrun.
  apply (for_rangeM_ind (λ i (st : Population.t * list Population.RunResult),
    st.1 = Population.with_soup
             (Population.with_currentPairs p (Population.currentPairs st.1))
             (Population.soup st.1) ∧
    U8.length (Population.soup st.1) = U8.length (Population.soup p) ∧
    (bytes (Population.soup p) → bytes (Population.soup st.1)) ∧
    Z.of_nat (length (Population.currentPairs st.1)) = i ∧
    Z.of_nat (length st.2) = i ∧
    Forall resultConsistent st.2)) in Hrun; [done| |].
  - simpl. repeat split; done.
  - clear. intros i [q rs] o [q1 rs1] o1 Hi (Hq & HL & HB & Hcp & Hrs & Hall).
    simpl in *. unfold_oracle.
    destruct (Population.selectRandomPair q o) as [[pair o2]|]; [|done].
    set (q' := Population.with_currentPairs q
                 (Population.currentPairs q ++ [pair])).
    pose proof (runPair_fields q' pair) as Hf.
    pose proof (runPair_shape q' pair) as [HL' HB'].
    pose proof (runPair_result q' pair) as Hres.
    destruct (Population.runPair q' pair) as [q2 r]. simpl in *.
    intros [= <- <-]. rewrite Hf. simpl.
    split; [unfold q'; by rewrite Hq at 1|].
    split; [congruence|]. split; [auto|].
    rewrite !length_app. simpl. split; [lia|]. split; [lia|].
    apply Forall_app. split; [done|]. by constructor.
Qed.

(** X15: the bookkeeping of [soupStep] in population.js: a step that
    returns has selected and run exactly [pairsPerStep] pairs, one result
    each, every result consistent; [pairCount] has grown by [pairsPerStep];
    the soup has kept its length and its cells are bytes; the geometry and
    the parameters of the population are as before. *)
Theorem X15_soupStep_bookkeeping (p p' : Population.t)
    (results : list Population.RunResult) (o o' : Random.Oracle) :
  Population.soupStep p o = Some ((p', results), o') →
  Z.of_nat (length results) = Z.max 0 (Population.pairsPerStep p) ∧
  Z.of_nat (length (Population.currentPairs p'))
    = Z.max 0 (Population.pairsPerStep p) ∧
  Forall resultConsistent results ∧
  Population.pairCount p' = Population.pairCount p + Population.pairsPerStep p ∧
  U8.length (Population.soup p') = U8.length (Population.soup p) ∧
  (bytes (Population.soup p) → bytes (Population.soup p')) ∧
  p' = Population.with_pairCount
         (Population.with_soup
            (Population.with_currentPairs p (Population.currentPairs p'))
            (Population.soup p'))
         (Population.pairCount p').
Proof.
  unfold Population.soupStep. unfold mbind at 1, oracle_bind, Random.bind.
  destruct (Population.runPairs p o) as [[[p1 rs] o1]|] eqn:E1; [|done].
  apply runPairs_spec in E1 as (Hf & HL & HB & Hcp & Hrs & Hall).
  unfold mbind at 1, oracle_bind, Random.bind.
  destruct (Population.mutateSelected p1 o1) as [[p2 o2]|] eqn:E2; [|done].
  apply Population_mutateSelected_frame in E2 as (Hf2 & HL2 & HB2 & _).
  unfold mret, oracle_ret, Random.ret. intros [= <- <- _].
  rewrite Hf2. simpl. rewrite Hf at 1 2 3 4. simpl.
  split; [done|]. split; [done|]. split; [done|]. split; [done|].
  split; [congruence|]. split; [auto|]. by rewrite Hf at 1.
Qed.

(** X15 on the step of [syncPopulation] with the draws [syncDraws]. *)
Lemma X15_soupStep_bookkeeping_witness :
  Z.of_nat (length syncResults)
    = Z.max 0 (Population.pairsPerStep syncPopulation) ∧
  Z.of_nat (length (Population.currentPairs syncAfter))
    = Z.max 0 (Population.pairsPerStep syncPopulation) ∧
  Forall resultConsistent syncResults ∧
  Population.pairCount syncAfter
    = Population.pairCount syncPopulation
      + Population.pairsPerStep syncPopulation ∧
  U8.length (Population.soup syncAfter)
    = U8.length (Population.soup syncPopulation) ∧
  (bytes (Population.soup syncPopulation) →
   bytes (Population.soup syncAfter)) ∧
  syncAfter = Population.with_pairCount
         (Population.with_soup
            (Population.with_currentPairs syncPopulation
               (Population.currentPairs syncAfter))
            (Population.soup syncAfter))
         (Population.pairCount syncAfter).
Proof.
  apply (X15_soupStep_bookkeeping syncPopulation syncAfter syncResults
           syncDraws []).
  vm_compute. reflexivity.
Defined.

(** ** A step of the parallel population *)




(** X17: back-pressure in [soupStep] of the parallel population.  With
    [maxPendingExecutions] dispatches in flight the call does nothing: no
    pair is selected, no draw is taken, nothing is posted, nothing mutates.
    Otherwise a call that returns has counted one more dispatch in flight
    and [pairsPerStep] more pairs, has handed exactly its [currentPairs] to
    [executeBatch] with the population's [head1Offset] and [maxSteps], and
    has kept the length of the soup.  Either way a call never takes
    [pendingExecutions] above the larger of its old value and the cap. *)
Theorem X17_soupStep_backpressure (p p' : PopulationWasm.t)
    (pool pool' : WorkerPool.t) (o o' : Random.Oracle) :
  PopulationWasm.soupStep p pool o = Some ((p', pool'), o') →
  (PopulationWasm.maxPendingExecutions p ≤ PopulationWasm.pendingExecutions p
   → p' = p ∧ pool' = pool ∧ o' = o) ∧
  (PopulationWasm.pendingExecutions p < PopulationWasm.maxPendingExecutions p
   → PopulationWasm.pendingExecutions p'
       = PopulationWasm.pendingExecutions p + 1 ∧
     PopulationWasm.pairCount p'
       = PopulationWasm.pairCount p + PopulationWasm.pairsPerStep p ∧
     pool' = WorkerPool.executeBatch pool (PopulationWasm.currentPairs p')
               (PopulationWasm.head1Offset p) (PopulationWasm.maxSteps p) ∧
     U8.length (PopulationWasm.soup p') = U8.length (PopulationWasm.soup p)) ∧
  PopulationWasm.pendingExecutions p'
    ≤ Z.max (PopulationWasm.pendingExecutions p)
        (PopulationWasm.maxPendingExecutions p) ∧
  PopulationWasm.maxPendingExecutions p'
    = PopulationWasm.maxPendingExecutions p.
Proof.
  unfold PopulationWasm.soupStep. case_bool_decide as Hcap.
  - intros [= <- <- <-]. split; [done|]. split; [lia|]. split; [lia|done].
  - unfold mbind at 1, oracle_bind, Random.bind.
    destruct (PopulationWasm.generatePairs p o) as [[p1 o1]|] eqn:E1; [|done].
    apply generatePairs_fields in E1.
    unfold mbind at 1, oracle_bind, Random.bind.
    destruct (PopulationWasm.mutateSelected _ o1) as [[p2 o2]|] eqn:E2;
      [|done].
    apply PopulationWasm_mutateSelected_frame in E2 as (Hf & HL & _).
    unfold mret, oracle_ret, Random.ret. intros [= <- <- _].
    rewrite Hf. simpl in *. rewrite E1. simpl.
    split; [lia|]. split; [|split; [lia|done]].
    intros _. split; [done|]. split; [done|]. split; [done|].
    rewrite HL. by rewrite E1.
Qed.

(** X17 on the step of [smallWasm] with the draws [smallDraws]. *)
Lemma X17_soupStep_backpressure_witness :
  (PopulationWasm.maxPendingExecutions smallWasm
     ≤ PopulationWasm.pendingExecutions smallWasm
   → wasmAfter = smallWasm ∧ poolAfter = idlePool ∧ [] = smallDraws) ∧
  (PopulationWasm.pendingExecutions smallWasm
     < PopulationWasm.maxPendingExecutions smallWasm
   → PopulationWasm.pendingExecutions wasmAfter
       = PopulationWasm.pendingExecutions smallWasm + 1 ∧
     PopulationWasm.pairCount wasmAfter
       = PopulationWasm.pairCount smallWasm
         + PopulationWasm.pairsPerStep smallWasm ∧
     poolAfter
       = WorkerPool.executeBatch idlePool
           (PopulationWasm.currentPairs wasmAfter)
           (PopulationWasm.head1Offset smallWasm)
           (PopulationWasm.maxSteps smallWasm) ∧
     U8.length (PopulationWasm.soup wasmAfter)
       = U8.length (PopulationWasm.soup smallWasm)) ∧
  PopulationWasm.pendingExecutions wasmAfter
    ≤ Z.max (PopulationWasm.pendingExecutions smallWasm)
        (PopulationWasm.maxPendingExecutions smallWasm) ∧
  PopulationWasm.maxPendingExecutions wasmAfter
    = PopulationWasm.maxPendingExecutions smallWasm.
Proof.
  apply (X17_soupStep_backpressure smallWasm wasmAfter idlePool poolAfter
           smallDraws []).
  vm_compute. reflexivity.
Defined.

(** ** Selection on a soup with a single region *)

(** X18: pair selection needs room for two regions.  On a soup that holds
    one region but not two, [selectRandomPair] never returns, whatever the
    draws: every candidate for the second region overlaps the first, so the
    [do ... while] loop takes draw after draw.  This holds for the parallel
    population (with or without a locality limit) and for population.js. *)
Theorem X18_selection_needs_two_regions (p : PopulationWasm.t)
    (q : Population.t) (o : Random.Oracle) :
  (0 < PopulationWasm.alignment p →
   0 < PopulationWasm.regionSize p →
   PopulationWasm.regionSize p ≤ U8.length (PopulationWasm.soup p) →
   U8.length (PopulationWasm.soup p) < 2 * PopulationWasm.regionSize p →
   0 ≤ PopulationWasm.numTapes p →
   PopulationWasm.selectRandomPair p o = None) ∧
  (0 < Population.regionSize q →
   Population.regionSize q ≤ U8.length (Population.soup q) →
   U8.length (Population.soup q) < 2 * Population.regionSize q →
   Population.selectRandomPair q o = None).
Proof.
  split.
  - intros Ha HR Hfit Hsmall Hnum.
    destruct (PopulationWasm.selectRandomPair p o) as [[pair o']|] eqn:E;
      [|done].
    apply selectRandomPair_spec in E; try done. lia.
  - intros HR Hfit Hsmall.
    destruct (Population.selectRandomPair q o) as [[pair o']|] eqn:E;
      [|done].
    apply Population_selectRandomPair_spec in E; try done. lia.
Qed.

(** X18 on soups of three cells with regions of two, and four draws. *)
Lemma X18_selection_needs_two_regions_witness :
  PopulationWasm.selectRandomPair
    (PopulationWasm.mkPopulationWasm 3 1 2 [0x2B; 7; 9] 1 [] 0.5%Q 0 1 1
       None 2 8192 0 50)
    [0; 2 ^ 52; 2 ^ 53 - 1; 5] = None ∧
  Population.selectRandomPair
    (Population.mkPopulation 3 1 2 [0x2B; 7; 9] 1 [] 0.5%Q 0 1 2)
    [0; 2 ^ 52; 2 ^ 53 - 1; 5] = None.
Proof.
  destruct (X18_selection_needs_two_regions
              (PopulationWasm.mkPopulationWasm 3 1 2 [0x2B; 7; 9] 1 [] 0.5%Q
                 0 1 1 None 2 8192 0 50)
              (Population.mkPopulation 3 1 2 [0x2B; 7; 9] 1 [] 0.5%Q 0 1 2)
              [0; 2 ^ 52; 2 ^ 53 - 1; 5]) as [Hw Hj].
  split.
  - apply Hw; try (simpl; lia); unfold U8.length; simpl; lia.
  - apply Hj; try (simpl; lia); unfold U8.length; simpl; lia.
Defined.

(** ** The soup as a torus *)

(** The wrap of a coordinate is its residue. *)
Lemma wrap_mod v n : 0 < n → Population.wrap v n = v `mod` n.
Proof.
  intros Hn. unfold Population.wrap, JS.rem.
  pose proof (rem_range v n Hn) as Hr.
  rewrite Z.rem_mod_nonneg by lia.
  replace (Z.rem v n + n) with (Z.rem v n + 1 * n) by lia.
  rewrite Z_mod_plus_full.
  rewrite (Z.quot_rem' v n) at 2.
  by rewrite Z.add_comm, Z.mul_comm, Z_mod_plus_full.
Qed.

(** The cell of the soup that [get] and [set] address. *)
Lemma cell_range p x y :
  0 < Population.width p → 0 < Population.height p →
  0 ≤ (y `mod` Population.height p) * Population.width p
      + x `mod` Population.width p
    < Population.width p * Population.height p.
Proof.
  intros Hw Hh.
  pose proof (Z.mod_pos_bound x _ Hw). pose proof (Z.mod_pos_bound y _ Hh).
  nia.
Qed.

Lemma cell_inj p x y x' y' :
  0 < Population.width p → 0 < Population.height p →
  (y `mod` Population.height p) * Population.width p
    + x `mod` Population.width p
  = (y' `mod` Population.height p) * Population.width p
    + x' `mod` Population.width p →
  x `mod` Population.width p = x' `mod` Population.width p ∧
  y `mod` Population.height p = y' `mod` Population.height p.
Proof.
  intros Hw Hh.
  pose proof (Z.mod_pos_bound x _ Hw). pose proof (Z.mod_pos_bound y _ Hh).
  pose proof (Z.mod_pos_bound x' _ Hw). pose proof (Z.mod_pos_bound y' _ Hh).
  generalize dependent (x `mod` Population.width p).
  generalize dependent (y `mod` Population.height p).
  generalize dependent (x' `mod` Population.width p).
  generalize dependent (y' `mod` Population.height p).
  intros r' Hr' c' Hc' r Hr c Hc E.
  destruct (Z.lt_trichotomy r r') as [Hlt|[->|Hgt]]; [nia|lia|nia].
Qed.

(** X19: [get] and [set] address the soup as a torus.  On a soup of
    [width * height] cells, [get] after [set] at the same place reads the
    value modulo 256; places that differ modulo the width or the height are
    not affected; both functions are periodic in [x] with period [width]
    and in [y] with period [height]; [set] keeps the length of the soup and
    every other field. *)
Theorem X19_torus (p : Population.t) (x y v : Z) :
  0 < Population.width p → 0 < Population.height p →
  U8.length (Population.soup p) = Population.width p * Population.height p →
  Population.get (Population.set p x y v) x y = v `mod` 256 ∧
  (∀ x' y',
     x' `mod` Population.width p ≠ x `mod` Population.width p ∨
     y' `mod` Population.height p ≠ y `mod` Population.height p →
     Population.get (Population.set p x y v) x' y' = Population.get p x' y') ∧
  (∀ i j,
     Population.get p (x + i * Population.width p)
       (y + j * Population.height p) = Population.get p x y ∧
     Population.set p (x + i * Population.width p)
       (y + j * Population.height p) v = Population.set p x y v) ∧
  Population.set p x y v
    = Population.with_soup p (Population.soup (Population.set p x y v)) ∧
  U8.length (Population.soup (Population.set p x y v))
    = U8.length (Population.soup p).
Proof.
  intros Hw Hh Hlen. unfold Population.get, Population.set. simpl.
  rewrite !wrap_mod by done.
  pose proof (cell_range p x y Hw Hh) as Hc.
  split; [|split; [|split; [|split]]].
  - rewrite U8_get_set_eq by lia. unfold U8.u8.
    change 255 with (Z.ones 8). rewrite Z.land_ones by lia.
    change (2 ^ 8) with 256. apply Z.mod_mod. lia.
  - intros x' y' Hne. rewrite !wrap_mod by done.
    apply U8_get_set_ne. intros E.
    apply cell_inj in E as [E1 E2]; [|done..]. destruct Hne; congruence.
  - intros i j. rewrite !wrap_mod by done. by rewrite !Z_mod_plus_full.
  - done.
  - apply U8_length_set.
Qed.

(** X19 on [smallPopulation] (two columns, four rows) at (3, -1), the
    cell in column 1 of row 3. *)
Lemma X19_torus_witness :
  Population.get (Population.set smallPopulation 3 (-1) 300) 3 (-1)
    = 300 `mod` 256 ∧
  (∀ x' y',
     x' `mod` Population.width smallPopulation
       ≠ 3 `mod` Population.width smallPopulation ∨
     y' `mod` Population.height smallPopulation
       ≠ (-1) `mod` Population.height smallPopulation →
     Population.get (Population.set smallPopulation 3 (-1) 300) x' y'
     = Population.get smallPopulation x' y') ∧
  (∀ i j,
     Population.get smallPopulation (3 + i * Population.width smallPopulation)
       (-1 + j * Population.height smallPopulation)
     = Population.get smallPopulation 3 (-1) ∧
     Population.set smallPopulation (3 + i * Population.width smallPopulation)
       (-1 + j * Population.height smallPopulation) 300
     = Population.set smallPopulation 3 (-1) 300) ∧
  Population.set smallPopulation 3 (-1) 300
    = Population.with_soup smallPopulation
        (Population.soup (Population.set smallPopulation 3 (-1) 300)) ∧
  U8.length (Population.soup (Population.set smallPopulation 3 (-1) 300))
    = U8.length (Population.soup smallPopulation).
Proof.
  apply (X19_torus smallPopulation 3 (-1) 300).
  - simpl; lia.
  - simpl; lia.
  - reflexivity.
Defined.

(** ** Initialization *)

Lemma randomByte_range k : 0 ≤ randomByte k < 256.
Proof. apply floorTimes_range. lia. Qed.

(** The fill loop of [initialize] after [m] iterations: the first [m]
    cells hold the bytes of the first [m] draws. *)
Lemma fill_spec (m : nat) (sp : list Z) (o : Random.Oracle) :
  (m ≤ length sp)%nat →
  Random.for_rangeM (Z.of_nat m)
    (λ i sp, u ← Random.random;
             mret (U8.set sp i (Random.floorTimes u 256))) sp o
  = if decide (m ≤ length o)%nat
    then Some ((randomByte <$> take m o) ++ drop m sp, drop m o)
    else None.
Proof.
  set (body := λ (i : Z) (sp : list Z),
         u ← Random.random; mret (U8.set sp i (Random.floorTimes u 256))).
  induction m as [|m IH]; intros Hm.
  - unfold Random.for_rangeM. rewrite seqZ_nil by lia.
    rewrite decide_True by lia. by rewrite drop_0.
  - unfold Random.for_rangeM. rewrite seqZ_S, foldl_app. simpl.
    change (foldl (λ acc i, Random.bind acc (body i)) (Random.ret sp)
              (seqZ 0 (Z.of_nat m)))
      with (Random.for_rangeM (Z.of_nat m) body sp).
    unfold Random.bind at 1. rewrite IH by lia.
    destruct (decide (m ≤ length o)%nat) as [Hmo|Hmo];
      [|by rewrite decide_False by lia].
    unfold body. unfold_oracle.
    destruct (drop m o) as [|k o1] eqn:Ed.
    + rewrite decide_False; [done|].
      apply (f_equal length) in Ed. rewrite length_drop in Ed. simpl in Ed.
      lia.
    + assert (o !! m = Some k) as Hk.
      { pose proof (lookup_drop o m 0) as H.
        rewrite Ed, Nat.add_0_r in H. done. }
      pose proof (lookup_lt_Some _ _ _ Hk) as Hlt.
      rewrite decide_True by lia.
      destruct (lookup_lt_is_Some_2 sp m ltac:(lia)) as [x Hx].
      rewrite (drop_S sp x m Hx), (take_S_r o m k Hk).
      rewrite (drop_S o k m Hk) in Ed. injection Ed as <-.
      f_equal. f_equal. unfold U8.set. rewrite Z.add_0_l.
      rewrite bool_decide_eq_true_2, Nat2Z.id by lia.
      rewrite insert_app_r_alt by (rewrite length_fmap, length_take; lia).
      rewrite length_fmap, length_take, Nat.min_l, Nat.sub_diag by lia.
      simpl. rewrite fmap_app, <- app_assoc. simpl.
      fold (randomByte k). by rewrite (u8_small _ (randomByte_range k)).
Qed.

Lemma fill_all (sp : list Z) (o : Random.Oracle) :
  Random.for_rangeM (U8.length sp)
    (λ i sp, u ← Random.random;
             mret (U8.set sp i (Random.floorTimes u 256))) sp o
  = if decide (length sp ≤ length o)%nat
    then Some (randomByte <$> take (length sp) o, drop (length sp) o)
    else None.
Proof.
  unfold U8.length. rewrite fill_spec by done.
  by rewrite drop_all, app_nil_r.
Qed.

Lemma fill_make (n : Z) (o : Random.Oracle) :
  Random.for_rangeM n
    (λ i sp, u ← Random.random;
             mret (U8.set sp i (Random.floorTimes u 256))) (U8.make n) o
  = if decide (Z.to_nat n ≤ length o)%nat
    then Some (randomByte <$> take (Z.to_nat n) o, drop (Z.to_nat n) o)
    else None.
Proof.
  destruct (decide (0 ≤ n)) as [Hn|Hn].
  - pose proof (fill_all (U8.make n) o) as H.
    rewrite U8_length_make, Z.max_r in H by lia.
    assert (length (U8.make n) = Z.to_nat n) as Hl
      by apply length_replicate.
    by rewrite Hl in H.
  - unfold Random.for_rangeM, U8.make. rewrite seqZ_nil by lia.
    replace (Z.to_nat n) with 0%nat by lia.
    rewrite decide_True by lia. by rewrite drop_0.
Qed.

Lemma bytes_randomByte (ks : list Z) : bytes (randomByte <$> ks).
Proof.
  unfold bytes. apply Forall_fmap, Forall_forall. intros k _.
  apply randomByte_range.
Qed.

(** X20: what [initialize] computes.  It takes exactly one draw per cell
    of the soup and has no result on fewer draws; cell [i] receives
    [floor(256 u)] for the draw [u] of index [i], so every cell is a byte
    whatever the soup held before; [pairCount] is reset to 0; the draws
    that remain are the ones after the first [soup.length].  The parallel
    population first allocates [width * height] cells. *)
Theorem X20_initialize (p : Population.t) (w : PopulationWasm.t)
    (o : Random.Oracle) :
  Population.initialize p o
  = (if decide (length (Population.soup p) ≤ length o)%nat
     then Some
            (Population.with_pairCount
               (Population.with_soup p
                  (randomByte <$> take (length (Population.soup p)) o)) 0,
             drop (length (Population.soup p)) o)
     else None) ∧
  PopulationWasm.initialize w o
  = (let n := Z.to_nat (PopulationWasm.width w * PopulationWasm.height w) in
     if decide (n ≤ length o)%nat
     then Some
            (PopulationWasm.with_pairCount
               (PopulationWasm.with_soup w (randomByte <$> take n o)) 0,
             drop n o)
     else None) ∧
  bytes (randomByte <$> take (length (Population.soup p)) o).
Proof.
  split; [|split; [|apply bytes_randomByte]].
  - unfold Population.initialize.
    unfold mbind at 1, oracle_bind, Random.bind. rewrite fill_all.
    by destruct (decide _).
  - unfold PopulationWasm.initialize. cbv zeta.
    set (n := PopulationWasm.width w * PopulationWasm.height w).
    unfold mbind at 1, oracle_bind, Random.bind.
    rewrite fill_make.
    by destruct (decide _).
Qed.

(** ** Neighbour rows *)

(** Loop invariant rule for [for (let i = 1; i <= n; i++)]. *)
Lemma for_range1_nat_ind {St : Type} (P : Z → St → Prop) (body : Z → St → St)
    (s : St) (m : nat) :
  P 0 s →
  (∀ i s, 1 ≤ i ≤ Z.of_nat m → P (i - 1) s → P i (body i s)) →
  P (Z.of_nat m) (JS.for_range1 (Z.of_nat m) body s).
Proof.
  intros H0 Hstep. induction m as [|m IH].
  - unfold JS.for_range1. by rewrite seqZ_nil.
  - unfold JS.for_range1. rewrite seqZ_S, foldl_snoc.
    replace (Z.of_nat (S m)) with (1 + Z.of_nat m) by lia.
    apply Hstep; [lia|].
    replace (1 + Z.of_nat m - 1) with (Z.of_nat m) by lia.
    apply IH. intros i s' Hi. apply Hstep. lia.
Qed.

(** A full row of the soup, as [getNeighborRows] slices it. *)
Lemma row_slice (sp : list Z) (w h r : Z) :
  0 < w → U8.length sp = w * h → 0 ≤ r < h →
  U8.length (U8.slice sp (r * w) ((r + 1) * w)) = w ∧
  ∀ c, 0 ≤ c < w →
    U8.get (U8.slice sp (r * w) ((r + 1) * w)) c = U8.get sp (r * w + c).
Proof.
  intros Hw Hlen Hr. unfold U8.slice, U8.length in *.
  rewrite slice_take_drop by nia.
  assert (Z.to_nat ((r + 1) * w) - Z.to_nat (r * w) = Z.to_nat w)%nat as ->
    by nia.
  split.
  - rewrite length_take, length_drop. nia.
  - intros c Hc. unfold U8.get.
    rewrite !bool_decide_eq_true_2 by nia.
    rewrite lookup_take_lt by lia. rewrite lookup_drop.
    do 2 f_equal. nia.
Qed.

Lemma row_isRow p y r :
  0 < Population.width p → 0 < Population.height p →
  U8.length (Population.soup p) = Population.width p * Population.height p →
  r = y `mod` Population.height p →
  isRow p y (U8.slice (Population.soup p) (r * Population.width p)
               ((r + 1) * Population.width p)).
Proof.
  intros Hw Hh Hlen ->.
  pose proof (Z.mod_pos_bound y _ Hh) as Hy.
  destruct (row_slice (Population.soup p) _ _ _ Hw Hlen Hy) as [HL HG].
  split; [done|]. intros c Hc. rewrite HG by done.
  unfold Population.get. cbv zeta. rewrite !wrap_mod by done.
  by rewrite (Z.mod_small c) by done.
Qed.

(** X21: the neighbour rows of a slot.  On a soup of [width * height]
    cells with at most [height] neighbours per side, [getNeighborRows]
    returns [neighborsPerSide] rows above and as many below; the rows at
    index [k] are full copies of the rows [row - (k + 1)] and
    [row + (k + 1)] of the torus, where [row] is the row of the slot. *)
Theorem X21_neighbour_rows (p : Population.t) (slot : Z) (k : nat) :
  0 < Population.width p → 0 < Population.height p →
  U8.length (Population.soup p) = Population.width p * Population.height p →
  0 ≤ slot →
  Population.neighborsPerSide p ≤ Population.height p →
  Z.of_nat k < Population.neighborsPerSide p →
  Z.of_nat (length (Population.getNeighborRows p slot).1)
    = Population.neighborsPerSide p ∧
  Z.of_nat (length (Population.getNeighborRows p slot).2)
    = Population.neighborsPerSide p ∧
  ∃ above below,
    (Population.getNeighborRows p slot).1 !! k = Some above ∧
    (Population.getNeighborRows p slot).2 !! k = Some below ∧
    isRow p (slot `div` Population.width p - (Z.of_nat k + 1)) above ∧
    isRow p (slot `div` Population.width p + (Z.of_nat k + 1)) below.
Proof.
  intros Hw Hh Hlen Hslot Hn Hk. unfold Population.getNeighborRows.
  cbv zeta. set (row := slot `div` Population.width p).
  assert (0 ≤ row) as Hrow by (apply Z.div_pos; lia).
  set (body := λ (i : Z) (st : list (list Z) * list (list Z)),
         let '(above, below) := st in
         (above ++ [U8.slice (Population.soup p)
                      (JS.rem (row - i + Population.height p)
                         (Population.height p) * Population.width p)
                      ((JS.rem (row - i + Population.height p)
                          (Population.height p) + 1) * Population.width p)],
          below ++ [U8.slice (Population.soup p)
                      (JS.rem (row + i) (Population.height p)
                       * Population.width p)
                      ((JS.rem (row + i) (Population.height p) + 1)
                       * Population.width p)])).
  change (JS.for_range1 (Population.neighborsPerSide p) _ ([], []))
    with (JS.for_range1 (Population.neighborsPerSide p) body ([], [])).
  assert (Population.neighborsPerSide p
          = Z.of_nat (Z.to_nat (Population.neighborsPerSide p))) as HN by lia.
  revert Hk Hn. rewrite HN.
  generalize (Z.to_nat (Population.neighborsPerSide p)).
  clear HN. intros m Hk Hn.
  cut (Z.of_nat (length (JS.for_range1 (Z.of_nat m) body ([], [])).1)
         = Z.of_nat m ∧
       Z.of_nat (length (JS.for_range1 (Z.of_nat m) body ([], [])).2)
         = Z.of_nat m ∧
       ∀ j : nat, Z.of_nat j < Z.of_nat m →
         ∃ above below,
           (JS.for_range1 (Z.of_nat m) body ([], [])).1 !! j = Some above ∧
           (JS.for_range1 (Z.of_nat m) body ([], [])).2 !! j = Some below ∧
           isRow p (row - (Z.of_nat j + 1)) above ∧
           isRow p (row + (Z.of_nat j + 1)) below).
  { intros (H1 & H2 & H3).
    split; [done|]. split; [done|]. by apply H3. }
  clear k Hk.
  apply (for_range1_nat_ind (λ i st,
    Z.of_nat (length st.1) = i ∧ Z.of_nat (length st.2) = i ∧
    ∀ j : nat, Z.of_nat j < i →
      ∃ above below, st.1 !! j = Some above ∧ st.2 !! j = Some below ∧
        isRow p (row - (Z.of_nat j + 1)) above ∧
        isRow p (row + (Z.of_nat j + 1)) below)).
  - simpl. split; [done|]. split; [done|]. intros; lia.
  - intros i [ab be] Hi (H1 & H2 & H3). simpl in *.
    rewrite !length_app. simpl. split; [lia|]. split; [lia|].
    intros j Hj. destruct (decide (Z.of_nat j = i - 1)) as [Ej|Ej].
    + assert (j = length ab) as Ea by lia.
      assert (j = length be) as Eb by lia.
      eexists _, _. split; [rewrite Ea; apply list_lookup_middle; done|].
      split; [rewrite Eb; apply list_lookup_middle; done|].
      unfold JS.rem. rewrite !Z.rem_mod_nonneg by lia.
      split; apply row_isRow; try done.
      * replace (row - i + Population.height p)
          with (row - (Z.of_nat j + 1) + 1 * Population.height p) by lia.
        apply Z_mod_plus_full.
      * f_equal. lia.
    + destruct (H3 j ltac:(lia)) as (ra & rb & Ha & Hb & Hra & Hrb).
      exists ra, rb. split; [by apply lookup_app_l_Some|].
      split; [by apply lookup_app_l_Some|]. done.
Qed.

(** X21 on [smallPopulation] (rows of two cells, two neighbours per side):
    the rows next to the slot of region 2, which is row 1. *)
Lemma X21_neighbour_rows_witness :
  Z.of_nat (length (Population.getNeighborRows smallPopulation 2).1)
    = Population.neighborsPerSide smallPopulation ∧
  Z.of_nat (length (Population.getNeighborRows smallPopulation 2).2)
    = Population.neighborsPerSide smallPopulation ∧
  ∃ above below,
    (Population.getNeighborRows smallPopulation 2).1 !! 0%nat = Some above ∧
    (Population.getNeighborRows smallPopulation 2).2 !! 0%nat = Some below ∧
    isRow smallPopulation
      (2 `div` Population.width smallPopulation - (Z.of_nat 0 + 1)) above ∧
    isRow smallPopulation
      (2 `div` Population.width smallPopulation + (Z.of_nat 0 + 1)) below.
Proof.
  apply (X21_neighbour_rows smallPopulation 2 0).
  - simpl; lia.
  - simpl; lia.
  - reflexivity.
  - lia.
  - simpl; lia.
  - simpl; lia.
Defined.

(** ** The compression cost *)

Lemma bigramsOf_snoc l y :
  bigramsOf (l ++ [y])
  = bigramsOf l ∪
    match last l with Some x => {[ Population.bigram x y ]} | None => ∅ end.
Proof.
  induction l as [|x l IH]; [(set_unfold; tauto)|].
  destruct l as [|z l]; [(set_unfold; tauto)|].
  change (bigramsOf ((x :: z :: l) ++ [y]))
    with ({[ Population.bigram x z ]} ∪ bigramsOf ((z :: l) ++ [y])).
  rewrite IH.
  change (last (x :: z :: l)) with (last (z :: l)).
  change (bigramsOf (x :: z :: l))
    with ({[ Population.bigram x z ]} ∪ bigramsOf (z :: l)).
  (set_unfold; tauto).
Qed.

Lemma bigramsOf_app l1 x l2 :
  bigramsOf (l1 ++ x :: l2) = bigramsOf (l1 ++ [x]) ∪ bigramsOf (x :: l2).
Proof.
  induction l1 as [|a l1 IH]; [(set_unfold; tauto)|].
  destruct l1 as [|b l1].
  - change (bigramsOf ([a] ++ x :: l2))
      with ({[ Population.bigram a x ]} ∪ bigramsOf (x :: l2)).
    (set_unfold; tauto).
  - change (bigramsOf ((a :: b :: l1) ++ x :: l2))
      with ({[ Population.bigram a b ]} ∪ bigramsOf ((b :: l1) ++ x :: l2)).
    change (bigramsOf ((a :: b :: l1) ++ [x]))
      with ({[ Population.bigram a b ]} ∪ bigramsOf ((b :: l1) ++ [x])).
    rewrite IH. (set_unfold; tauto).
Qed.

Lemma bigramsOf_size l : (size (bigramsOf l) ≤ pred (length l))%nat.
Proof.
  induction l as [|x l IH]; [done|].
  destruct l as [|y l]; [done|].
  change (bigramsOf (x :: y :: l))
    with ({[ Population.bigram x y ]} ∪ bigramsOf (y :: l)).
  rewrite size_union_alt, size_singleton.
  pose proof (subseteq_size (bigramsOf (y :: l) ∖ {[Population.bigram x y]})
                (bigramsOf (y :: l)) ltac:((set_unfold; tauto))).
  simpl in *. lia.
Qed.

(** The inner loop of [compressionCost] adds the bigrams of the array. *)
Lemma inner_bigrams (data : list Z) (bg0 : gset Z) :
  JS.for_range (U8.length data - 1)
    (λ i (bg : gset Z),
       {[ Population.bigram (U8.get data i) (U8.get data (i + 1)) ]} ∪ bg)
    bg0
  = bigramsOf data ∪ bg0.
Proof.
  cut (JS.for_range (U8.length data - 1)
         (λ i (bg : gset Z),
            {[ Population.bigram (U8.get data i) (U8.get data (i + 1)) ]} ∪ bg)
         bg0
       = bigramsOf (take (Z.to_nat (Z.max 0 (U8.length data - 1)) + 1) data)
         ∪ bg0).
  { intros ->. rewrite take_ge; [done|]. unfold U8.length. lia. }
  apply (for_range_ind (λ i (bg : gset Z),
    bg = bigramsOf (take (Z.to_nat i + 1) data) ∪ bg0)).
  - destruct data as [|x [|y l]]; (set_unfold; tauto).
  - intros i bg Hi ->. unfold U8.length in Hi.
    destruct (lookup_lt_is_Some_2 data (Z.to_nat i) ltac:(lia)) as [x Hx].
    destruct (lookup_lt_is_Some_2 data (S (Z.to_nat i)) ltac:(lia))
      as [y Hy].
    replace (Z.to_nat (i + 1) + 1)%nat with (S (S (Z.to_nat i))) by lia.
    replace (Z.to_nat i + 1)%nat with (S (Z.to_nat i)) by lia.
    rewrite (take_S_r data (S (Z.to_nat i)) y Hy), bigramsOf_snoc.
    rewrite (take_S_r data (Z.to_nat i) x Hx), last_snoc.
    rewrite <- (U8_get_lookup data _ x Hx), <- (U8_get_lookup data _ y Hy).
    rewrite Z2Nat.id by lia.
    replace (Z.of_nat (S (Z.to_nat i))) with (i + 1) by lia.
    (set_unfold; tauto).
Qed.

(** [compressionCost] counts the bigrams of the arrays and of the joints
    between consecutive arrays. *)
Lemma compressionCost_concat (arrays : list (list Z)) :
  Forall (λ d, d ≠ []) arrays →
  Population.compressionCost arrays
  = Z.of_nat (size (bigramsOf (concat arrays))).
Proof.
  intros Hne. unfold Population.compressionCost. cbv zeta. do 2 f_equal.
  set (n := Z.of_nat (length arrays)).
  set (body := λ (k : Z) (bigrams : gset Z),
         if bool_decide (k < n - 1)
         then {[ Population.bigram
                   (U8.get (default [] (arrays !! Z.to_nat k))
                      (U8.length (default [] (arrays !! Z.to_nat k)) - 1))
                   (U8.get (default [] (arrays !! Z.to_nat (k + 1))) 0) ]}
              ∪ JS.for_range (U8.length (default [] (arrays !! Z.to_nat k)) - 1)
                  (λ i (bg : gset Z),
                     {[ Population.bigram
                          (U8.get (default [] (arrays !! Z.to_nat k)) i)
                          (U8.get (default [] (arrays !! Z.to_nat k)) (i + 1))
                     ]} ∪ bg)
                  bigrams
         else JS.for_range (U8.length (default [] (arrays !! Z.to_nat k)) - 1)
                (λ i (bg : gset Z),
                   {[ Population.bigram
                        (U8.get (default [] (arrays !! Z.to_nat k)) i)
                        (U8.get (default [] (arrays !! Z.to_nat k)) (i + 1))
                   ]} ∪ bg)
                bigrams).
  change (JS.for_range n _ ∅) with (JS.for_range n body ∅).
  cut (JS.for_range n body ∅
       = bigramsOf (concat (take (Z.to_nat (Z.max 0 n)) arrays)
                    ++ take 1 (default []
                                 (arrays !! Z.to_nat (Z.max 0 n))))).
  { intros ->. rewrite take_ge by lia.
    rewrite (proj2 (lookup_ge_None arrays _)) by lia.
    by rewrite app_nil_r. }
  apply (for_range_ind (λ k (bg : gset Z),
    bg = bigramsOf (concat (take (Z.to_nat k) arrays)
                    ++ take 1 (default [] (arrays !! Z.to_nat k))))).
  - change (Z.to_nat 0) with 0%nat. rewrite take_0. simpl.
    by destruct (default [] (arrays !! 0%nat)).
  - intros k bg Hk ->. unfold body. rewrite !inner_bigrams.
    destruct (lookup_lt_is_Some_2 arrays (Z.to_nat k) ltac:(lia))
      as [data Hd].
    rewrite Hd. cbn [from_option]. unfold id.
    pose proof (Forall_lookup_1 _ _ _ _ Hne Hd) as Hdne.
    destruct data as [|x rest]; [done|].
    change (take 1 (x :: rest)) with [x].
    replace (Z.to_nat (k + 1)) with (S (Z.to_nat k)) by lia.
    rewrite (take_S_r arrays _ _ Hd), concat_app.
    change (concat [x :: rest]) with ((x :: rest) ++ []).
    rewrite app_nil_r.
    set (C := concat (take (Z.to_nat k) arrays)).
    assert (bigramsOf (C ++ x :: rest)
            = bigramsOf (x :: rest) ∪ bigramsOf (C ++ [x])) as HC
      by (rewrite bigramsOf_app; apply (comm_L (∪))).
    case_bool_decide as Hlast.
    + destruct (lookup_lt_is_Some_2 arrays (S (Z.to_nat k)) ltac:(lia))
        as [next Hn].
      rewrite Hn. cbn [from_option]. unfold id.
      pose proof (Forall_lookup_1 _ _ _ _ Hne Hn) as Hnne.
      destruct next as [|y rest']; [done|].
      change (take 1 (y :: rest')) with [y].
      change (U8.get (y :: rest') 0) with y.
      rewrite (bigramsOf_snoc (C ++ x :: rest) y), HC.
      assert (last (C ++ x :: rest)
              = Some (U8.get (x :: rest) (U8.length (x :: rest) - 1))) as ->.
      { rewrite last_app.
        destruct (last (x :: rest)) as [z|] eqn:Hz;
          [|by apply last_None in Hz].
        f_equal. rewrite last_lookup in Hz. symmetry.
        unfold U8.length.
        replace (Z.of_nat (length (x :: rest)) - 1)
          with (Z.of_nat (pred (length (x :: rest)))) by (simpl; lia).
        by apply U8_get_lookup. }
      apply (comm_L (∪)).
    + rewrite (proj2 (lookup_ge_None arrays (S (Z.to_nat k)))) by lia.
      cbn [from_option]. change (take 1 []) with (@nil Z).
      by rewrite app_nil_r, HC.
Qed.

(** X22: [compressionCost] is the bigram count of the concatenation.  For
    arrays none of which is empty, the cost is the number of distinct
    bigrams of adjacent cells of the concatenated arrays, so it equals the
    cost of the concatenation passed as one array, and it is less than
    the number of cells. *)
Theorem X22_cost_of_concatenation (arrays : list (list Z)) :
  Forall (λ d, d ≠ []) arrays →
  Population.compressionCost arrays
    = Z.of_nat (size (bigramsOf (concat arrays))) ∧
  Population.compressionCost arrays
    = Population.compressionCost [concat arrays] ∧
  0 ≤ Population.compressionCost arrays
    ≤ Z.max 0 (U8.length (concat arrays) - 1).
Proof.
  intros Hne. pose proof (compressionCost_concat arrays Hne) as H.
  split; [done|]. split.
  - rewrite H. destruct arrays as [|d arrays].
    + reflexivity.
    + rewrite compressionCost_concat.
      * simpl. by rewrite app_nil_r.
      * constructor; [|done]. inversion Hne as [|? ? Hd _]; subst.
        simpl. by destruct d.
  - rewrite H. pose proof (bigramsOf_size (concat arrays)).
    unfold U8.length. lia.
Qed.

(** X22 on two rows: the bigrams are (1,2), (2,1) and (1,2) again. *)
Lemma X22_cost_of_concatenation_witness :
  Population.compressionCost [[1; 2]; [1; 2]]
    = Z.of_nat (size (bigramsOf (concat [[1; 2]; [1; 2]]))) ∧
  Population.compressionCost [[1; 2]; [1; 2]]
    = Population.compressionCost [concat [[1; 2]; [1; 2]]] ∧
  0 ≤ Population.compressionCost [[1; 2]; [1; 2]]
    ≤ Z.max 0 (U8.length (concat [[1; 2]; [1; 2]]) - 1).
Proof.
  apply (X22_cost_of_concatenation [[1; 2]; [1; 2]]).
  repeat constructor; discriminate.
Defined.


(** ** The tape class and the tape as its buffer *)

Lemma TapeJs_wrap_mod tp index :
  0 < TapeJs.size tp → TapeJs._wrap tp index = index `mod` TapeJs.size tp.
Proof.
  intros Hn. unfold TapeJs._wrap, JS.rem.
  pose proof (rem_range index _ Hn) as Hr.
  rewrite Z.rem_mod_nonneg by lia.
  replace (Z.rem index (TapeJs.size tp) + TapeJs.size tp)
    with (Z.rem index (TapeJs.size tp) + 1 * TapeJs.size tp) by lia.
  rewrite Z_mod_plus_full.
  rewrite (Z.quot_rem' index (TapeJs.size tp)) at 2.
  by rewrite Z.add_comm, Z.mul_comm, Z_mod_plus_full.
Qed.

(** X23: the class [Tape] with its two fields and the tape kept as its
    buffer agree.  For a tape object with a positive size whose buffer has
    [size] cells, every method at [index] is the operation of [Tape] on the
    buffer at [index mod size], which is [index] itself on the tape
    ([0 <= index < size]).  The methods keep the size and the length of the
    buffer; a new tape has the buffer of [Tape.make]. *)
Theorem X23_tape_class (tp : TapeJs.t) (index value : Z) :
  0 < TapeJs.size tp → tapeShape tp →
  TapeJs.size tp = Tape.size (TapeJs.data tp) ∧
  TapeJs.toArray tp = Tape.toArray (TapeJs.data tp) ∧
  0 ≤ index `mod` TapeJs.size tp < Tape.size (TapeJs.data tp) ∧
  TapeJs.get tp index
    = Tape.get (TapeJs.data tp) (index `mod` TapeJs.size tp) ∧
  TapeJs.set tp index value
    = TapeJs.mkTape (TapeJs.size tp)
        (Tape.set (TapeJs.data tp) (index `mod` TapeJs.size tp) value) ∧
  TapeJs.increment tp index
    = TapeJs.mkTape (TapeJs.size tp)
        (Tape.increment (TapeJs.data tp) (index `mod` TapeJs.size tp)) ∧
  TapeJs.decrement tp index
    = TapeJs.mkTape (TapeJs.size tp)
        (Tape.decrement (TapeJs.data tp) (index `mod` TapeJs.size tp)) ∧
  (0 ≤ index < TapeJs.size tp → index `mod` TapeJs.size tp = index) ∧
  tapeShape (TapeJs.set tp index value) ∧
  tapeShape (TapeJs.increment tp index) ∧
  tapeShape (TapeJs.decrement tp index) ∧
  TapeJs.data (TapeJs.new (TapeJs.size tp)) = Tape.make (TapeJs.size tp) ∧
  tapeShape (TapeJs.new (TapeJs.size tp)).
Proof.
  intros Hn Hs. unfold tapeShape in *.
  pose proof (Z.mod_pos_bound index _ Hn) as Hm.
  assert (0 ≤ index `mod` TapeJs.size tp < Tape.size (TapeJs.data tp)) as Hon
    by (unfold Tape.size; lia).
  unfold TapeJs.get, TapeJs.set, TapeJs.increment, TapeJs.decrement,
    Tape.increment, Tape.decrement.
  cbv zeta. rewrite !TapeJs_wrap_mod by done.
  rewrite Tape_get_on_tape, Tape_set_on_tape, !Tape_wrap_on_tape by done.
  rewrite !U8_set_land. simpl.
  rewrite !U8_length_set, U8_length_make. unfold Tape.size.
  repeat split; try done; try lia.
  intros Hi. by apply Z.mod_small.
Qed.

(** X23 on a tape of four cells at index -1, the last cell. *)
Lemma X23_tape_class_witness :
  TapeJs.get (TapeJs.mkTape 4 [0x2B; 7; 9; 44]) (-1)
    = Tape.get [0x2B; 7; 9; 44] ((-1) `mod` 4) ∧
  TapeJs.increment (TapeJs.mkTape 4 [0x2B; 7; 9; 44]) (-1)
    = TapeJs.mkTape 4 (Tape.increment [0x2B; 7; 9; 44] ((-1) `mod` 4)).
Proof.
  destruct (X23_tape_class (TapeJs.mkTape 4 [0x2B; 7; 9; 44]) (-1) 0)
    as (_ & _ & _ & Hg & _ & Hi & _).
  - simpl; lia.
  - reflexivity.
  - split; [exact Hg|exact Hi].
Defined.

(** X24: [Tape.fromArray] and [toArray].  The tape made from an array has
    one cell per element, holding the element modulo 256; made from an
    array of bytes and exported again it is that array; [clear] zeroes a
    tape of any content and keeps its shape. *)
Theorem X24_fromArray (arr : list Z) :
  TapeJs.size (TapeJs.fromArray arr) = U8.length arr ∧
  tapeShape (TapeJs.fromArray arr) ∧
  TapeJs.toArray (TapeJs.fromArray arr) = (λ v, v `mod` 256) <$> arr ∧
  (bytes arr → TapeJs.toArray (TapeJs.fromArray arr) = arr) ∧
  TapeJs.toArray (TapeJs.clear (TapeJs.fromArray arr))
    = TapeJs.toArray (TapeJs.new (U8.length arr)).
Proof.
  unfold TapeJs.fromArray. cbv zeta. fold (U8.length arr).
  set (body := λ (i : Z) (tp : TapeJs.t),
         TapeJs.mkTape (TapeJs.size tp)
           (U8.set (TapeJs.data tp) i (Z.land (U8.get arr i) 0xFF))).
  assert (TapeJs.size (JS.for_range (U8.length arr) body
                         (TapeJs.new (U8.length arr))) = U8.length arr ∧
          U8.length (TapeJs.data (JS.for_range (U8.length arr) body
                                    (TapeJs.new (U8.length arr))))
            = U8.length arr ∧
          ∀ i, 0 ≤ i < Z.max 0 (U8.length arr) →
            U8.get (TapeJs.data (JS.for_range (U8.length arr) body
                                   (TapeJs.new (U8.length arr)))) i
            = U8.get arr i `mod` 256) as (Hsize & Hlen & Hget).
  { apply (for_range_ind (λ k tp,
      TapeJs.size tp = U8.length arr ∧
      U8.length (TapeJs.data tp) = U8.length arr ∧
      ∀ i, 0 ≤ i < k → U8.get (TapeJs.data tp) i = U8.get arr i `mod` 256)).
    - simpl. rewrite U8_length_make.
      pose proof (U8_length_nonneg arr). split; [done|]. split; [lia|].
      intros; lia.
    - intros k tp Hk (H1 & H2 & H3). unfold body. simpl.
      rewrite U8_length_set, U8_set_land. split; [done|]. split; [done|].
      intros i Hi. destruct (decide (i = k)) as [->|Hne].
      + rewrite U8_get_set_eq by lia. done.
      + rewrite U8_get_set_ne by lia. apply H3. lia. }
  pose proof (U8_length_nonneg arr) as Hnn.
  assert (TapeJs.data (JS.for_range (U8.length arr) body
                         (TapeJs.new (U8.length arr)))
          = (λ v, v `mod` 256) <$> arr) as Hdata.
  { apply U8_ext.
    - rewrite Hlen. unfold U8.length. by rewrite length_fmap.
    - intros i Hi. rewrite Hget by lia. unfold U8.get.
      rewrite !bool_decide_eq_true_2 by lia. rewrite list_lookup_fmap.
      destruct (arr !! Z.to_nat i) eqn:E; [done|].
      apply lookup_ge_None in E. unfold U8.length in *. lia. }
  split; [done|]. split; [unfold tapeShape; lia|]. unfold TapeJs.toArray.
  split; [done|]. split.
  - intros Hb. rewrite Hdata. apply list_eq. intros i.
    rewrite list_lookup_fmap. destruct (arr !! i) as [v|] eqn:E; [|done].
    simpl. f_equal. apply Z.mod_small.
    apply (Forall_lookup_1 _ _ _ _ Hb E).
  - assert (length (TapeJs.data (JS.for_range (U8.length arr) body
                                   (TapeJs.new (U8.length arr))))
            = Z.to_nat (U8.length arr)) as Hl
      by (unfold U8.length in Hlen at 1; lia).
    unfold TapeJs.clear. cbn [TapeJs.data]. by rewrite Hl.
Qed.

(** ** The interpreter on the tape class *)





(** ** The mutation of a slice *)

(** Loop invariant rule for a [for] loop that draws, with the loop index
    and the oracle. *)
Lemma for_rangeM_nat_ind_oracle {St : Type}
    (P : Z → St → Random.Oracle → Prop)
    (body : Z → St → Random.M St) s o (m : nat) :
  P 0 s o →
  (∀ i s o s1 o1, 0 ≤ i < Z.of_nat m → P i s o →
     body i s o = Some (s1, o1) → P (i + 1) s1 o1) →
  ∀ s' o', Random.for_rangeM (Z.of_nat m) body s o = Some (s', o') →
    P (Z.of_nat m) s' o'.
Proof.
  intros H0 Hstep. induction m as [|m IH]; intros s' o'.
  - unfold Random.for_rangeM. rewrite seqZ_nil by lia. simpl.
    by intros [= <- <-].
  - unfold Random.for_rangeM in *. rewrite seqZ_S, foldl_app. simpl.
    unfold Random.bind at 1.
    destruct (foldl (λ acc i, Random.bind acc (body i)) (Random.ret s)
                (seqZ 0 (Z.of_nat m)) o) as [[s0 o0]|] eqn:E; [|done].
    intros Hb. replace (Z.of_nat (S m)) with (Z.of_nat m + 1) by lia.
    apply (Hstep _ s0 o0 s' o'); [lia| |done].
    apply (IH ltac:(intros; eapply Hstep; [lia|done..]) s0 o0 eq_refl).
Qed.

(** A [for] loop whose body returns on every oracle of [c] draws or more,
    and takes at most [c] of them, returns when the oracle holds [c] draws
    per iteration. *)
Lemma for_rangeM_nat_total {St : Type} (c : nat)
    (body : Z → St → Random.M St) (m : nat) :
  (∀ i s o, (c ≤ length o)%nat →
     ∃ s1 o1, body i s o = Some (s1, o1) ∧ (length o ≤ length o1 + c)%nat) →
  ∀ s o, (m * c ≤ length o)%nat →
    ∃ s' o', Random.for_rangeM (Z.of_nat m) body s o = Some (s', o') ∧
             (length o ≤ length o' + m * c)%nat.
Proof.
  intros Hbody. induction m as [|m IH]; intros s o Ho.
  - exists s, o. unfold Random.for_rangeM. rewrite seqZ_nil by lia.
    split; [done|lia].
  - destruct (IH s o ltac:(lia)) as (s0 & o0 & E & Hl).
    destruct (Hbody (Z.of_nat m) s0 o0 ltac:(lia)) as (s1 & o1 & E1 & Hl1).
    exists s1, o1. unfold Random.for_rangeM in *.
    rewrite seqZ_S, foldl_app. simpl. unfold Random.bind at 1.
    rewrite E. split; [done|lia].
Qed.

Lemma randomByte_u8 v : U8.u8 (randomByte v) = randomByte v.
Proof. unfold U8.u8. apply Z.mod_small, randomByte_range. Qed.

(** The mutation loop over a slice inside the soup: what it returns. *)
Lemma mutateLoop_decisions R rate start sp o sp' o' :
  0 ≤ start → start + R ≤ U8.length sp →
  mutateLoop R (U8.length sp) rate start sp o = Some (sp', o') →
  sliceMutated R rate start sp o sp' o'.
Proof.
  intros Hs Hin. unfold mutateLoop, sliceMutated.
  destruct (decide (0 ≤ R)) as [HR|HR]; cycle 1.
  { unfold Random.for_rangeM. rewrite seqZ_nil by lia. simpl.
    intros [= <- <-]. exists []. rewrite Z.max_l by lia.
    repeat split; try done. }
  rewrite Z.max_r by lia.
  assert (R = Z.of_nat (Z.to_nat R)) as HN by lia.
  revert Hin. rewrite HN. generalize (Z.to_nat R). clear HN HR.
  intros m Hin.
  revert sp' o'.
  apply (for_rangeM_nat_ind_oracle (λ i s oc,
    ∃ ds : list Decision,
      Z.of_nat (length ds) = i ∧ Forall (decidedBy rate) ds ∧
      o = concat (drawsOf <$> ds) ++ oc ∧
      U8.length s = U8.length sp ∧
      (∀ j : nat, U8.get s (start + Z.of_nat j)
                  = cellAfter (ds !! j) (U8.get sp (start + Z.of_nat j))) ∧
      (∀ j, j < start → U8.get s j = U8.get sp j))).
  - exists []. repeat split; done.
  - intros i s oc s1 o1 Hi (ds & Hlen & Hds & Ho & HL & Hget & Hout).
    unfold_oracle. destruct oc as [|k oc]; [done|].
    assert (JS.rem (start + i) (U8.length sp) = start + i) as Hidx
      by (unfold JS.rem; apply Z.rem_small; lia).
    destruct (Random.below (Random.unit k) rate) eqn:Hb.
    + cbv zeta. destruct oc as [|v oc]; [done|]. intros [= <- <-].
      rewrite Hidx. exists (ds ++ [Replace k v]).
      rewrite length_app, fmap_app, concat_app, Forall_app, <- app_assoc.
      simpl. split; [lia|]. split; [split; [done|by constructor]|].
      split; [done|]. split; [by rewrite U8_length_set|]. split.
      * intros j. destruct (decide (Z.of_nat j = i)) as [Ej|Ej].
        -- assert (j = length ds) as -> by lia.
           rewrite list_lookup_middle by done. simpl.
           rewrite Ej, U8_get_set_eq by lia. apply randomByte_u8.
        -- rewrite U8_get_set_ne by lia. rewrite Hget.
           destruct (decide (j < length ds)%nat).
           ++ by rewrite lookup_app_l by done.
           ++ rewrite !(proj2 (lookup_ge_None _ _));
                [done|rewrite length_app; simpl; lia|lia].
      * intros j Hj. rewrite U8_get_set_ne by lia. by apply Hout.
    + intros [= <- <-]. exists (ds ++ [Keep k]).
      rewrite length_app, fmap_app, concat_app, Forall_app, <- app_assoc.
      simpl. split; [lia|]. split; [split; [done|by constructor]|].
      split; [done|]. split; [done|]. split; [|done].
      intros j. rewrite Hget. destruct (decide (Z.of_nat j = i)) as [Ej|Ej].
      * assert (j = length ds) as -> by lia.
        rewrite list_lookup_middle by done.
        by rewrite (proj2 (lookup_ge_None _ _)) by lia.
      * destruct (decide (j < length ds)%nat).
        -- by rewrite lookup_app_l by done.
        -- rewrite !(proj2 (lookup_ge_None _ _));
             [done|rewrite length_app; simpl; lia|lia].
Qed.

(** The mutation loop returns when the oracle holds two draws per cell. *)
Lemma mutateLoop_total R len rate start sp o :
  2 * Z.max 0 R ≤ Z.of_nat (length o) →
  is_Some (mutateLoop R len rate start sp o).
Proof.
  intros Ho. unfold mutateLoop.
  destruct (decide (0 ≤ R)) as [HR|HR]; cycle 1.
  { unfold Random.for_rangeM. by rewrite seqZ_nil by lia. }
  rewrite Z.max_r in Ho by lia. rewrite <- (Z2Nat.id R) by lia.
  destruct (for_rangeM_nat_total 2
    (λ (i : Z) (sp : list Z),
       u ← Random.random;
       if Random.below u rate then
         let idx := JS.rem (start + i) len in
         v ← Random.random;
         mret (U8.set sp idx (Random.floorTimes v 256))
       else mret sp) (Z.to_nat R)) with (s := sp) (o := o)
    as (s' & o' & E & _); [|lia|exact (ex_intro _ _ E)].
  intros i s oc Hoc. unfold_oracle.
  destruct oc as [|k [|v oc]]; [simpl in Hoc; lia..|].
  destruct (Random.below _ rate); cbv zeta; eexists _, _;
    (split; [reflexivity|simpl; lia]).
Qed.

(** X26: the mutation of one slice, draw by draw.  For a slice of
    [regionSize] cells inside the soup, the loop of [mutateSelected] returns
    whenever the oracle holds two draws per cell, and what it returns is
    fixed by one decision per cell, in order: the first draw of a cell is
    compared with [mutationRate]; when it is below, a second draw [v] is
    taken and the cell becomes [Math.floor(v * 256)], otherwise the cell
    keeps its byte.  Exactly these draws are taken from the oracle, and all
    other cells and the length of the soup stay.  population.js runs the
    same loop, and with a mutation rate of 0 or less [mutateSelected] takes
    no draw and changes nothing. *)
Theorem X26_mutation_decisions (w : PopulationWasm.t) (q : Population.t)
    (start : Z) (sp : list Z) (o : Random.Oracle) :
  0 ≤ start →
  start + PopulationWasm.regionSize w ≤ U8.length (PopulationWasm.soup w) →
  U8.length sp = U8.length (PopulationWasm.soup w) →
  (2 * Z.max 0 (PopulationWasm.regionSize w) ≤ Z.of_nat (length o) →
   is_Some (PopulationWasm.mutateSlice w start sp o)) ∧
  (∀ sp' o', PopulationWasm.mutateSlice w start sp o = Some (sp', o') →
     sliceMutated (PopulationWasm.regionSize w) (PopulationWasm.mutationRate w)
       start sp o sp' o') ∧
  (Population.regionSize q = PopulationWasm.regionSize w →
   Population.mutationRate q = PopulationWasm.mutationRate w →
   U8.length (Population.soup q) = U8.length (PopulationWasm.soup w) →
   Population.mutateSlice q start sp = PopulationWasm.mutateSlice w start sp) ∧
  (Qle_bool (PopulationWasm.mutationRate w) 0 = true →
   PopulationWasm.mutateSelected w o = Some (w, o)).
Proof.
  intros Hs Hin Hlen. split; [|split; [|split]].
  - apply mutateLoop_total.
  - intros sp' o' E. apply mutateLoop_decisions; [done|lia|].
    rewrite Hlen. exact E.
  - intros H1 H2 H3. unfold Population.mutateSlice, PopulationWasm.mutateSlice.
    by rewrite H1, H2, H3.
  - intros Hr. unfold PopulationWasm.mutateSelected. by rewrite Hr.
Qed.

(** X26 on the first region of [smallWasm]: the draw 0 is below the rate
    and the next draw makes the first byte 255; the draw of one half is not
    below the rate and the second byte stays. *)
Lemma X26_mutation_decisions_witness :
  sliceMutated (PopulationWasm.regionSize smallWasm)
    (PopulationWasm.mutationRate smallWasm) 0
    (PopulationWasm.soup smallWasm) [0; 2 ^ 53 - 1; 2 ^ 52]
    [255; 7; 9; 9; 9; 9; 9; 9] [].
Proof.
  apply (X26_mutation_decisions smallWasm syncPopulation 0
           (PopulationWasm.soup smallWasm) [0; 2 ^ 53 - 1; 2 ^ 52]).
  - lia.
  - vm_compute. discriminate.
  - reflexivity.
  - vm_compute. reflexivity.
Defined.
